(** * StoryForge simulation core: world state, gates, agent views, frame loop

    A shallow embedding of [src/core/engine.ts] together with the narrative
    types it works on.  The engine is an object with mutable private fields;
    here every method is a function in a small state-and-exception monad over
    the record [Engine].  JavaScript [Map]s whose iteration order is observed
    (the variables of a world state, the per-frame view and action tables) are
    insertion-ordered association lists; the other [Map]s are [gmap]s.

    Modelling conventions:
    - a value of TypeScript type [unknown] is an element of a type [V] that
      comes with the JavaScript operators the engine applies to it
      ([JSRuntime]); every theorem holds for any such runtime, and [json] is
      a concrete one used to evaluate the engine on examples;
    - an optional string is an [option string]; JavaScript truthiness of such
      a field ([if (x)], [!x]) is [truthy]: absent and empty are both falsy;
    - numbers (frames, indices, configuration) are integers, in [Z], without
      the precision limit of doubles;
    - [uuid()] and [new Date()] are oracles indexed by the number of calls
      made so far, which the engine state counts;
    - the agent decision callback is an oracle giving, for each position in
      the agent list, the outcome of the raced promise; event listeners
      receive events and are assumed not to call back into the engine. *)

From Stdlib Require Import ZArith String List Bool Lia DecimalString.
From stdpp Require Import gmap strings.
Import ListNotations.

Local Open Scope string_scope.
Local Open Scope Z_scope.
Local Set Warnings "-register-all".

(** ** JavaScript values and idioms *)

(** The operators the engine applies to values of type [unknown].  On
    JSON-like values the comparison and arithmetic operators never throw;
    spreading a non-iterable and calling [.filter] on a non-array do, which
    is [None] here. *)
Class JSRuntime (V : Type) := {
  js_undefined : V;
  js_null : V;
  js_bool : bool -> V;
  js_not : V -> bool;                     (* !v *)
  js_seq : V -> V -> bool;                (* a === b *)
  js_gt : V -> V -> bool;                 (* a > b *)
  js_gte : V -> V -> bool;                (* a >= b *)
  js_lt : V -> V -> bool;                 (* a < b *)
  js_lte : V -> V -> bool;                (* a <= b *)
  js_isArray : V -> bool;                 (* Array.isArray(a) *)
  js_includes : V -> V -> bool;           (* a.includes(b), a an array *)
  js_add : V -> V -> V;                   (* a + b *)
  js_sub : V -> V -> V;                   (* a - b *)
  js_mul : V -> V -> V;                   (* a * b *)
  js_spread_push : V -> V -> option V;    (* [...a, b] *)
  js_filter_sne : V -> V -> option V      (* a.filter(v => v !== b) *)
}.

(** Truthiness of an optional string: [undefined] and [""] are falsy. *)
Definition truthy (o : option string) : bool :=
  match o with
  | Some s => negb (String.eqb s "")
  | None => false
  end.

(** [o === s] for an optional string [o] and a string [s]. *)
Definition opt_is (o : option string) (s : string) : bool :=
  match o with
  | Some t => String.eqb t s
  | None => false
  end.

(** [xs.slice(-n)]: the last [n] elements. *)
Definition slice_last {A} (n : nat) (xs : list A) : list A :=
  skipn (length xs - n)%nat xs.

(** [xs.findIndex(p)], [-1] when nothing matches. *)
Fixpoint findIndex {A} (p : A -> bool) (xs : list A) : Z :=
  match xs with
  | [] => -1
  | x :: xs' =>
      if p x then 0
      else let i := findIndex p xs' in if i <? 0 then -1 else i + 1
  end.

(** [xs[i]] for a number [i]. *)
Definition js_index {A} (xs : list A) (i : Z) : option A :=
  if i <? 0 then None else nth_error xs (Z.to_nat i).

(** *** Insertion-ordered maps (JavaScript [Map]) *)

Module JSMap.
Definition t (A : Type) : Type := list (string * A).

Definition get {A} (k : string) (m : t A) : option A :=
  option_map snd (find (fun p => String.eqb (fst p) k) m).

(** [m.set(k, v)]: an existing key keeps its position. *)
Fixpoint set {A} (k : string) (v : A) (m : t A) : t A :=
  match m with
  | [] => [(k, v)]
  | (k', v') :: m' =>
      if String.eqb k' k then (k, v) :: m' else (k', v') :: set k v m'
  end.

Definition values {A} (m : t A) : list A := map snd m.
End JSMap.

(** ** Narrative types (narrative/types.ts) *)

Section Engine.
Context {V : Type} {JS : JSRuntime V}.

(** The oracles behind [uuid()] and [new Date()]: the result of the n-th call. *)
Variable uuid : nat -> string.
Variable now : nat -> Z.

(** [Variable] of the source; the name is reserved in Rocq. *)
Record VariableDef := {
  var_id : string;
  var_name : string;
  var_type : string;
  var_scope : string;
  var_defaultValue : V
}.

Record VariableState := {
  variableId : string;
  value : V;
  lastModifiedFrame : Z;
  modifiedBy : option string
}.

(** [operator] is the string found at run time; the thirteen members of
    [GateOperatorSchema] are the ones [evaluateCondition] has a case for. *)
Inductive GateCondition := {
  operator : string;
  gc_variableId : option string;
  gc_value : V;
  children : option (list GateCondition)
}.

Record Gate := {
  gate_id : string;
  gate_name : string;
  condition : GateCondition
}.

Record VariableMutation := {
  mut_variableId : string;
  operation : string;
  mut_value : V;
  targetAgent : option string
}.

Record Choice := {
  choice_id : string;
  text : string;
  gateId : option string;
  mutations : list VariableMutation;
  nextEncounterId : option string;
  nextSpoolId : option string;
  isTerminal : option bool
}.

Record Encounter := {
  enc_id : string;
  enc_spoolId : string;
  enc_name : string;
  enc_description : string;
  participants : list string;
  choices : list Choice;
  enc_gateId : option string
}.

Record Spool := {
  spool_id : string;
  spool_name : string;
  spool_description : string;
  entryGateId : option string;
  entryEncounterId : string;
  spool_encounters : list string
}.

Record ChoiceRecord := {
  cr_encounterId : string;
  cr_choiceId : string;
  cr_frame : Z
}.

Inductive SpoolStatus := AVAILABLE | ACTIVE | SUSPENDED | COMPLETED | ABANDONED.

Record SpoolProgress := {
  spoolId : string;
  sp_agentId : string;
  status : SpoolStatus;
  currentEncounterId : option string;
  enteredAtFrame : Z;
  completedAtFrame : option Z;
  choiceHistory : list ChoiceRecord
}.

Record Storyworld := {
  sw_id : string;
  sw_name : string;
  variables : list VariableDef;
  gates : list Gate;
  spools : list Spool;
  encounters : list Encounter
}.

Record SpoolSummary := {
  ss_spoolId : string;
  ss_spoolName : string;
  ss_description : string
}.

Record HistoryEntry := {
  he_frame : Z;
  he_event : string;
  he_summary : string
}.

Record AgentView := {
  av_agentId : string;
  av_simulationId : string;
  av_frame : Z;
  visibleVariables : list VariableState;
  availableSpools : list SpoolSummary;
  activeSpools : list SpoolProgress;
  currentEncounter : option Encounter;
  availableChoices : list Choice;
  recentHistory : list HistoryEntry
}.

(** The fields of a [NarrativeEvent] that the view builder reads. *)
Record NarrativeEvent := {
  ne_frame : Z;
  ne_eventType : string;
  ne_agentId : option string;
  ne_spoolId : option string;
  ne_encounterId : option string;
  ne_variableId : option string
}.

Record SequenceEntry := {
  se_frame : Z;
  se_encounterId : string;
  se_choiceId : string;
  se_availableChoices : list string;
  choiceIndex : Z
}.

Record SessionOutcome := {
  sessionId : string;
  so_agentId : string;
  so_simulationId : string;
  so_storyworldId : option string;
  so_startFrame : Z;
  endFrame : Z;
  totalChoices : Z;
  spoolsEntered : list string;
  spoolsCompleted : list string;
  endingsReached : list string;
  finalVariableState : list VariableState;
  choiceSequence : list SequenceEntry
}.

(** ** World state manager (class [WorldState]) *)

Record WorldState := {
  ws_variables : JSMap.t VariableState;
  spoolProgress : gmap string (list SpoolProgress);
  frame : Z;
  ws_storyworld : Storyworld
}.

Definition initializeVariables (sw : Storyworld) : JSMap.t VariableState :=
  fold_left
    (fun m variable =>
       JSMap.set (var_id variable)
         {| variableId := var_id variable;
            value := var_defaultValue variable;
            lastModifiedFrame := 0;
            modifiedBy := None |} m)
    (variables sw) [].

(** [new WorldState(storyworld)] *)
Definition newWorldState (sw : Storyworld) : WorldState :=
  {| ws_variables := initializeVariables sw;
     spoolProgress := ∅;
     frame := 0;
     ws_storyworld := sw |}.

Definition getVariable (ws : WorldState) (id : string) : option VariableState :=
  JSMap.get id (ws_variables ws).

Definition setVariable (ws : WorldState) (id : string) (v : V)
    (by_ : option string) : WorldState :=
  {| ws_variables :=
       JSMap.set id
         {| variableId := id; value := v;
            lastModifiedFrame := frame ws; modifiedBy := by_ |}
         (ws_variables ws);
     spoolProgress := spoolProgress ws;
     frame := frame ws;
     ws_storyworld := ws_storyworld ws |}.

(** The new value computed by the [switch] of [applyMutation]; [None] when
    the expression throws a [TypeError]. *)
Definition mutatedValue (op : string) (current operand : V) : option V :=
  if String.eqb op "SET" then Some operand
  else if String.eqb op "ADD" then Some (js_add current operand)
  else if String.eqb op "SUBTRACT" then Some (js_sub current operand)
  else if String.eqb op "MULTIPLY" then Some (js_mul current operand)
  else if String.eqb op "APPEND" then js_spread_push current operand
  else if String.eqb op "REMOVE" then js_filter_sne current operand
  else if String.eqb op "TOGGLE" then Some (js_bool (js_not current))
  else Some operand.

(** [applyMutation]: [None] when it throws; a mutation of an unknown
    variable is ignored. *)
Definition applyMutation (ws : WorldState) (mutation : VariableMutation)
    (actorId : string) : option WorldState :=
  match getVariable ws (mut_variableId mutation) with
  | None => Some ws
  | Some current =>
      match mutatedValue (operation mutation) (value current) (mut_value mutation) with
      | Some newValue =>
          Some (setVariable ws (mut_variableId mutation) newValue (Some actorId))
      | None => None
      end
  end.

Definition getAllVariables (ws : WorldState) : list VariableState :=
  JSMap.values (ws_variables ws).

Definition getAgentSpools (ws : WorldState) (agentId : string) : list SpoolProgress :=
  match spoolProgress ws !! agentId with
  | Some progress => progress
  | None => []
  end.

Definition setAgentSpools (ws : WorldState) (agentId : string)
    (progress : list SpoolProgress) : WorldState :=
  {| ws_variables := ws_variables ws;
     spoolProgress := <[agentId := progress]> (spoolProgress ws);
     frame := frame ws;
     ws_storyworld := ws_storyworld ws |}.

Definition advanceFrame (ws : WorldState) : WorldState :=
  {| ws_variables := ws_variables ws;
     spoolProgress := spoolProgress ws;
     frame := frame ws + 1;
     ws_storyworld := ws_storyworld ws |}.

Definition getCurrentFrame (ws : WorldState) : Z := frame ws.

(** ** Gate evaluator (class [GateEvaluator]) *)

Fixpoint evaluateCondition (c : GateCondition) (ws : WorldState)
    (agentId : option string) {struct c} : bool :=
  let varValue :=
    if truthy (gc_variableId c) then
      match gc_variableId c with
      | Some id =>
          match getVariable ws id with
          | Some varState => value varState
          | None => js_undefined
          end
      | None => js_undefined
      end
    else js_undefined in
  let op := operator c in
  if String.eqb op "EQ" then js_seq varValue (gc_value c)
  else if String.eqb op "NEQ" then negb (js_seq varValue (gc_value c))
  else if String.eqb op "GT" then js_gt varValue (gc_value c)
  else if String.eqb op "GTE" then js_gte varValue (gc_value c)
  else if String.eqb op "LT" then js_lt varValue (gc_value c)
  else if String.eqb op "LTE" then js_lte varValue (gc_value c)
  else if String.eqb op "CONTAINS" then
    js_isArray varValue && js_includes varValue (gc_value c)
  else if String.eqb op "NOT_CONTAINS" then
    negb (js_isArray varValue) || negb (js_includes varValue (gc_value c))
  else if String.eqb op "EXISTS" then
    negb (js_seq varValue js_undefined) && negb (js_seq varValue js_null)
  else if String.eqb op "NOT_EXISTS" then
    js_seq varValue js_undefined || js_seq varValue js_null
  else if String.eqb op "AND" then
    match children c with
    | Some cs => forallb (fun c' => evaluateCondition c' ws agentId) cs
    | None => true
    end
  else if String.eqb op "OR" then
    match children c with
    | Some cs => existsb (fun c' => evaluateCondition c' ws agentId) cs
    | None => false
    end
  else if String.eqb op "NOT" then
    negb (match children c with
          | Some (c0 :: _) => evaluateCondition c0 ws agentId
          | _ => false
          end)
  else true.

Definition evaluate (sw : Storyworld) (gateId : string) (ws : WorldState)
    (agentId : option string) : bool :=
  match find (fun g => String.eqb (gate_id g) gateId) (gates sw) with
  | None => true
  | Some gate => evaluateCondition (condition gate) ws agentId
  end.


(** ** Agent view builder (class [ViewBuilder]) *)

Definition getVisibleVariables (sw : Storyworld) (agentId : string)
    (ws : WorldState) : list VariableState :=
  List.filter
    (fun v =>
       match find (fun vd => String.eqb (var_id vd) (variableId v)) (variables sw) with
       | None => false
       | Some varDef =>
           String.eqb (var_scope varDef) "GLOBAL" || String.eqb (var_scope varDef) "AGENT"
       end)
    (getAllVariables ws).

Definition getAvailableSpools (sw : Storyworld) (agentId : string)
    (ws : WorldState) : list SpoolSummary :=
  let activeSpoolIds := map spoolId (getAgentSpools ws agentId) in
  map (fun spool =>
         {| ss_spoolId := spool_id spool;
            ss_spoolName := spool_name spool;
            ss_description := spool_description spool |})
    (List.filter
       (fun spool =>
          if existsb (String.eqb (spool_id spool)) activeSpoolIds then false
          else
            match entryGateId spool with
            | Some g =>
                if truthy (Some g) && negb (evaluate sw g ws (Some agentId))
                then false else true
            | None => true
            end)
       (spools sw)).

Fixpoint getCurrentEncounter (sw : Storyworld) (agentId : string)
    (activeSpools : list SpoolProgress) : option Encounter :=
  match activeSpools with
  | [] => None
  | progress :: rest =>
      match currentEncounterId progress with
      | Some eid =>
          if truthy (Some eid) then
            match find (fun e => String.eqb (enc_id e) eid) (encounters sw) with
            | Some encounter => Some encounter
            | None => getCurrentEncounter sw agentId rest
            end
          else getCurrentEncounter sw agentId rest
      | None => getCurrentEncounter sw agentId rest
      end
  end.

Definition getAvailableChoices (sw : Storyworld) (encounter : Encounter)
    (ws : WorldState) (agentId : string) : list Choice :=
  List.filter
    (fun choice =>
       match gateId choice with
       | Some g =>
           if negb (truthy (Some g)) then true
           else evaluate sw g ws (Some agentId)
       | None => true
       end)
    (choices encounter).

(** A template literal prints an absent field as [undefined]. *)
Definition interpolate (o : option string) : string :=
  match o with
  | Some s => s
  | None => "undefined"
  end.

Definition summarizeEvent (event : NarrativeEvent) : string :=
  let ty := ne_eventType event in
  if String.eqb ty "CHOICE_MADE" then
    "Made choice in " ++ interpolate (ne_encounterId event)
  else if String.eqb ty "SPOOL_ENTERED" then
    "Entered narrative thread: " ++ interpolate (ne_spoolId event)
  else if String.eqb ty "SPOOL_COMPLETED" then
    "Completed narrative thread: " ++ interpolate (ne_spoolId event)
  else if String.eqb ty "VARIABLE_CHANGED" then
    "World state changed: " ++ interpolate (ne_variableId event)
  else ty.

(** The predicate of the [filter] in [buildRecentHistory]. *)
Definition ownOrGlobal (agentId : string) (e : NarrativeEvent) : bool :=
  opt_is (ne_agentId e) agentId || negb (truthy (ne_agentId e)).

Definition buildRecentHistory (agentId : string)
    (events : list NarrativeEvent) : list HistoryEntry :=
  map (fun e =>
         {| he_frame := ne_frame e;
            he_event := ne_eventType e;
            he_summary := summarizeEvent e |})
    (slice_last 10 (List.filter (ownOrGlobal agentId) events)).

Definition buildView (sw : Storyworld) (agentId simulationId : string)
    (ws : WorldState) (recentEvents : list NarrativeEvent) : AgentView :=
  let frame := getCurrentFrame ws in
  let visibleVariables := getVisibleVariables sw agentId ws in
  let availableSpools := getAvailableSpools sw agentId ws in
  let activeSpools := getAgentSpools ws agentId in
  let currentEncounter := getCurrentEncounter sw agentId activeSpools in
  let availableChoices :=
    match currentEncounter with
    | Some encounter => getAvailableChoices sw encounter ws agentId
    | None => []
    end in
  let recentHistory := buildRecentHistory agentId recentEvents in
  {| av_agentId := agentId;
     av_simulationId := simulationId;
     av_frame := frame;
     visibleVariables := visibleVariables;
     availableSpools := availableSpools;
     activeSpools := activeSpools;
     currentEncounter := currentEncounter;
     availableChoices := availableChoices;
     recentHistory := recentHistory |}.

(** ** Core simulation types (core/types.ts) *)

Inductive SimulationStatus :=
  INITIALIZING | RUNNING | PAUSED | SIM_COMPLETED | ABORTED | ANALYZING.

Definition statusName (st : SimulationStatus) : string :=
  match st with
  | INITIALIZING => "INITIALIZING"
  | RUNNING => "RUNNING"
  | PAUSED => "PAUSED"
  | SIM_COMPLETED => "COMPLETED"
  | ABORTED => "ABORTED"
  | ANALYZING => "ANALYZING"
  end.

Inductive EventCategory := NARRATIVE | COMMUNICATION | STATE | SYSTEM | ANALYSIS.

Inductive FrameStage :=
  OBSERVATION | DELIBERATION | ACTION | RESOLUTION | TRANSITION | EVALUATION.

(** What the caller of [createSimulation] supplies for an agent. *)
Record AgentSpec := {
  spec_id : string;
  spec_name : string;
  spec_agentType : string;
  spec_isActive : bool
}.

Record AgentSlot := {
  agent_id : string;
  agent_simulationId : string;
  agent_name : string;
  agentType : string;
  isActive : bool;
  joinedAtFrame : Z
}.

(** [config] and [metadata] of a simulation are not read by the engine. *)
Record Simulation := {
  sim_id : string;
  experimentId : option string;
  sim_name : string;
  storyworldIds : list string;
  agents : list AgentSlot;
  sim_status : SimulationStatus;
  currentFrame : Z;
  startedAt : option Z;
  completedAt : option Z
}.

(** The values the engine puts into event payloads. *)
Inductive PayloadValue :=
| PString (s : string)
| PNumber (n : Z)
| PBoolean (b : bool)
| PStrings (ss : list string)
| PUnknown (v : V)
| PAbsent.

Record SimulationEvent := {
  ev_id : string;
  ev_simulationId : string;
  ev_frame : Z;
  stage : FrameStage;
  category : EventCategory;
  eventType : string;
  actorId : option string;
  targetId : option string;
  payload : list (string * PayloadValue);
  timestamp : Z
}.

Record AgentState := {
  as_agentId : string;
  as_activeSpools : list string;
  as_currentEncounter : option string
}.

Record StateSnapshot := {
  snap_id : string;
  snap_simulationId : string;
  snap_frame : Z;
  variableStates : list (string * V);
  agentStates : list AgentState;
  createdAt : Z
}.

(** ** Simulation engine (class [SimulationEngine]) *)

(** [EngineConfig] as passed to the constructor, and with every field set. *)
Record EngineConfig := {
  cfg_maxFrames : option Z;
  cfg_agentTimeoutMs : option Z;
  cfg_snapshotInterval : option Z;
  cfg_enforceEpistemicIsolation : option bool;
  cfg_computeMetricsPerFrame : option bool
}.

Record RequiredConfig := {
  maxFrames : Z;
  agentTimeoutMs : Z;
  snapshotInterval : Z;
  enforceEpistemicIsolation : bool;
  computeMetricsPerFrame : bool
}.

Record SessionData := {
  startFrame : Z;
  sd_choices : list SequenceEntry
}.

(** The private fields of the engine.  [gateEvaluators] and [viewBuilders]
    hold, per storyworld id, objects that wrap the storyworld stored under
    that id and nothing else, so they are read off [storyworlds];
    [eventHandlers] are the external listeners.  [uuidCalls] and
    [clockReads] count the calls of [uuid()] and [new Date()]. *)
Record Engine := {
  simulation : Simulation;
  storyworlds : gmap string Storyworld;
  worldStates : gmap string WorldState;
  events : list SimulationEvent;
  config : RequiredConfig;
  sessionData : gmap string SessionData;
  uuidCalls : nat;
  clockReads : nat
}.

Record AgentAction := {
  act_choiceId : option string;
  act_message : option string
}.

(** Outcome of the raced promise in the action stage: the callback's result
    ([null] is [None]), or a rejection, by the callback or by the timeout,
    with the message of the error when it is an [Error]. *)
Inductive HandlerOutcome :=
| Resolved (action : option AgentAction)
| Rejected (message : option string).

Definition AgentActionHandler : Type :=
  nat -> string -> AgentView -> HandlerOutcome.

(** *** The engine monad: mutable state, and exceptions that keep the state *)

Inductive Completion (A : Type) :=
| Returned (a : A)
| Thrown (message : string).
Arguments Returned {A} a.
Arguments Thrown {A} message.

Definition M (A : Type) : Type := Engine -> Completion A * Engine.

Definition ret {A} (a : A) : M A := fun s => (Returned a, s).

Definition bind {A B} (c : M A) (k : A -> M B) : M B :=
  fun s =>
    match c s with
    | (Returned a, s') => k a s'
    | (Thrown msg, s') => (Thrown msg, s')
    end.

Definition throw {A} (msg : string) : M A := fun s => (Thrown msg, s).

Definition get : M Engine := fun s => (Returned s, s).

Definition modify (f : Engine -> Engine) : M unit := fun s => (Returned tt, f s).

Notation "x <- c ;; k" := (bind c (fun x => k))
  (at level 100, c at next level, right associativity).
Notation "c ;;; k" := (bind c (fun _ => k))
  (at level 100, right associativity).

Fixpoint forEach {A} (f : A -> M unit) (xs : list A) : M unit :=
  match xs with
  | [] => ret tt
  | x :: xs' => f x ;;; forEach f xs'
  end.

Fixpoint foldM {A B} (f : B -> A -> M B) (xs : list A) (b : B) : M B :=
  match xs with
  | [] => ret b
  | x :: xs' => b' <- f b x ;; foldM f xs' b'
  end.

(** Field updates. *)
Definition set_simulation (sim : Simulation) (s : Engine) : Engine :=
  {| simulation := sim; storyworlds := storyworlds s; worldStates := worldStates s;
     events := events s; config := config s; sessionData := sessionData s;
     uuidCalls := uuidCalls s; clockReads := clockReads s |}.

Definition set_storyworlds (m : gmap string Storyworld) (s : Engine) : Engine :=
  {| simulation := simulation s; storyworlds := m; worldStates := worldStates s;
     events := events s; config := config s; sessionData := sessionData s;
     uuidCalls := uuidCalls s; clockReads := clockReads s |}.

Definition set_worldStates (m : gmap string WorldState) (s : Engine) : Engine :=
  {| simulation := simulation s; storyworlds := storyworlds s; worldStates := m;
     events := events s; config := config s; sessionData := sessionData s;
     uuidCalls := uuidCalls s; clockReads := clockReads s |}.

Definition set_events (es : list SimulationEvent) (s : Engine) : Engine :=
  {| simulation := simulation s; storyworlds := storyworlds s;
     worldStates := worldStates s; events := es; config := config s;
     sessionData := sessionData s;
     uuidCalls := uuidCalls s; clockReads := clockReads s |}.

Definition set_sessionData (m : gmap string SessionData) (s : Engine) : Engine :=
  {| simulation := simulation s; storyworlds := storyworlds s;
     worldStates := worldStates s; events := events s; config := config s;
     sessionData := m;
     uuidCalls := uuidCalls s; clockReads := clockReads s |}.

Definition set_status (st : SimulationStatus) (sim : Simulation) : Simulation :=
  {| sim_id := sim_id sim; experimentId := experimentId sim; sim_name := sim_name sim;
     storyworldIds := storyworldIds sim; agents := agents sim; sim_status := st;
     currentFrame := currentFrame sim; startedAt := startedAt sim;
     completedAt := completedAt sim |}.

Definition set_startedAt (t : Z) (sim : Simulation) : Simulation :=
  {| sim_id := sim_id sim; experimentId := experimentId sim; sim_name := sim_name sim;
     storyworldIds := storyworldIds sim; agents := agents sim;
     sim_status := sim_status sim;
     currentFrame := currentFrame sim; startedAt := Some t;
     completedAt := completedAt sim |}.

Definition set_completedAt (t : Z) (sim : Simulation) : Simulation :=
  {| sim_id := sim_id sim; experimentId := experimentId sim; sim_name := sim_name sim;
     storyworldIds := storyworldIds sim; agents := agents sim;
     sim_status := sim_status sim;
     currentFrame := currentFrame sim; startedAt := startedAt sim;
     completedAt := Some t |}.

Definition set_currentFrame (n : Z) (sim : Simulation) : Simulation :=
  {| sim_id := sim_id sim; experimentId := experimentId sim; sim_name := sim_name sim;
     storyworldIds := storyworldIds sim; agents := agents sim;
     sim_status := sim_status sim;
     currentFrame := n; startedAt := startedAt sim;
     completedAt := completedAt sim |}.

Definition tick_uuid (s : Engine) : Engine :=
  {| simulation := simulation s; storyworlds := storyworlds s;
     worldStates := worldStates s; events := events s; config := config s;
     sessionData := sessionData s;
     uuidCalls := S (uuidCalls s); clockReads := clockReads s |}.

Definition tick_clock (s : Engine) : Engine :=
  {| simulation := simulation s; storyworlds := storyworlds s;
     worldStates := worldStates s; events := events s; config := config s;
     sessionData := sessionData s;
     uuidCalls := uuidCalls s; clockReads := S (clockReads s) |}.

(** [uuid()] *)
Definition freshUuid : M string :=
  fun s => (Returned (uuid (uuidCalls s)), tick_uuid s).

(** [new Date()] *)
Definition newDate : M Z :=
  fun s => (Returned (now (clockReads s)), tick_clock s).

(** *** Event system *)

Definition emitEvent (category : EventCategory) (eventType : string)
    (payload : list (string * PayloadValue))
    (actorId targetId : option string) : M unit :=
  id <- freshUuid ;;
  s <- get ;;
  timestamp <- newDate ;;
  let event :=
    {| ev_id := id;
       ev_simulationId := sim_id (simulation s);
       ev_frame := currentFrame (simulation s);
       stage := RESOLUTION;
       category := category;
       eventType := eventType;
       actorId := actorId;
       targetId := targetId;
       payload := payload;
       timestamp := timestamp |} in
  modify (fun s => set_events (events s ++ [event]) s).

(** *** Setup *)

Definition createEmptySimulation : Simulation :=
  {| sim_id := ""; experimentId := None; sim_name := ""; storyworldIds := [];
     agents := []; sim_status := INITIALIZING; currentFrame := 0;
     startedAt := None; completedAt := None |}.

Definition orElse {A} (o : option A) (d : A) : A :=
  match o with Some a => a | None => d end.

(** [new SimulationEngine(config)] *)
Definition newEngine (cfg : EngineConfig) : Engine :=
  {| simulation := createEmptySimulation;
     storyworlds := ∅;
     worldStates := ∅;
     events := [];
     config :=
       {| maxFrames := orElse (cfg_maxFrames cfg) 1000;
          agentTimeoutMs := orElse (cfg_agentTimeoutMs cfg) 30000;
          snapshotInterval := orElse (cfg_snapshotInterval cfg) 10;
          enforceEpistemicIsolation := orElse (cfg_enforceEpistemicIsolation cfg) true;
          computeMetricsPerFrame := orElse (cfg_computeMetricsPerFrame cfg) false |};
     sessionData := ∅;
     uuidCalls := 0;
     clockReads := 0 |}.

Definition loadStoryworld (storyworld : Storyworld) : M unit :=
  modify (fun s =>
    set_worldStates (<[sw_id storyworld := newWorldState storyworld]> (worldStates s))
      (set_storyworlds (<[sw_id storyworld := storyworld]> (storyworlds s)) s)).

Definition createSimulation (name : string) (swIds : list string)
    (agentSpecs : list AgentSpec) (expId : option string) : M Simulation :=
  simId <- freshUuid ;;
  let sim :=
    {| sim_id := simId;
       experimentId := expId;
       sim_name := name;
       storyworldIds := swIds;
       agents :=
         map (fun a =>
                {| agent_id := spec_id a;
                   agent_simulationId := simId;
                   agent_name := spec_name a;
                   agentType := spec_agentType a;
                   isActive := spec_isActive a;
                   joinedAtFrame := 0 |}) agentSpecs;
       sim_status := INITIALIZING;
       currentFrame := 0;
       startedAt := None;
       completedAt := None |} in
  modify (set_simulation sim) ;;;
  forEach
    (fun agent =>
       modify (fun s =>
         set_sessionData
           (<[agent_id agent := {| startFrame := 0; sd_choices := [] |}]> (sessionData s)) s))
    (agents sim) ;;;
  emitEvent SYSTEM "SIMULATION_CREATED"
    [("name", PString name); ("storyworldIds", PStrings swIds);
     ("agentCount", PNumber (Z.of_nat (length agentSpecs)))] None None ;;;
  s <- get ;;
  ret (simulation s).

Definition start : M unit :=
  s <- get ;;
  match sim_status (simulation s) with
  | INITIALIZING =>
      modify (fun s => set_simulation (set_status RUNNING (simulation s)) s) ;;;
      t <- newDate ;;
      modify (fun s => set_simulation (set_startedAt t (simulation s)) s) ;;;
      emitEvent SYSTEM "SIMULATION_STARTED" [] None None
  | st =>
      throw ("Cannot start simulation in " ++ statusName st ++ " status")
  end.

(** *** Frame execution *)

(** [this.worldStates.get(this.simulation.storyworldIds[0])] and the same
    for [this.storyworlds]. *)
Definition firstWorldState (s : Engine) : option WorldState :=
  match head (storyworldIds (simulation s)) with
  | Some swid => worldStates s !! swid
  | None => None
  end.

Definition firstStoryworld (s : Engine) : option Storyworld :=
  match head (storyworldIds (simulation s)) with
  | Some swid => storyworlds s !! swid
  | None => None
  end.

(** The world state is an object the engine mutates in place: a write goes
    to the entry of the first storyworld id. *)
Definition putFirstWorldState (ws : WorldState) (s : Engine) : Engine :=
  match head (storyworldIds (simulation s)) with
  | Some swid => set_worldStates (<[swid := ws]> (worldStates s)) s
  | None => s
  end.

(** The events are [SimulationEvent] objects read through the type
    [NarrativeEvent]: the properties a [SimulationEvent] does not have read
    as [undefined]. *)
Definition asNarrativeEvent (e : SimulationEvent) : NarrativeEvent :=
  {| ne_frame := ev_frame e;
     ne_eventType := eventType e;
     ne_agentId := None;
     ne_spoolId := None;
     ne_encounterId := None;
     ne_variableId := None |}.

(** The predicate of the [filter] in [buildAgentView]. *)
Definition actedOrSystem (agentId : string) (e : SimulationEvent) : bool :=
  opt_is (actorId e) agentId || negb (truthy (actorId e)).

Definition buildAgentView (agentId : string) : M AgentView :=
  s <- get ;;
  match firstStoryworld s, firstWorldState s with
  | Some sw, Some worldState =>
      let recentEvents :=
        map asNarrativeEvent
          (slice_last 20 (List.filter (actedOrSystem agentId) (events s))) in
      ret (buildView sw agentId (sim_id (simulation s)) worldState recentEvents)
  | _, _ => throw "Storyworld not loaded"
  end.

Definition enterSpool (agentId sid : string) : M unit :=
  s <- get ;;
  match firstStoryworld s, firstWorldState s with
  | Some storyworld, Some worldState =>
      match find (fun sp => String.eqb (spool_id sp) sid) (spools storyworld) with
      | None => ret tt
      | Some spool =>
          let progress :=
            {| spoolId := sid;
               sp_agentId := agentId;
               status := ACTIVE;
               currentEncounterId := Some (entryEncounterId spool);
               enteredAtFrame := currentFrame (simulation s);
               completedAtFrame := None;
               choiceHistory := [] |} in
          let agentSpools := getAgentSpools worldState agentId in
          modify (putFirstWorldState
                    (setAgentSpools worldState agentId (agentSpools ++ [progress]))) ;;;
          emitEvent NARRATIVE "SPOOL_ENTERED" [("spoolId", PString sid)]
            (Some agentId) None
      end
  | _, _ => ret tt
  end.

Definition markCompleted (atFrame : Z) (p : SpoolProgress) : SpoolProgress :=
  {| spoolId := spoolId p;
     sp_agentId := sp_agentId p;
     status := COMPLETED;
     currentEncounterId := currentEncounterId p;
     enteredAtFrame := enteredAtFrame p;
     completedAtFrame := Some atFrame;
     choiceHistory := choiceHistory p |}.

Definition completeSpool (agentId sid : string) : M unit :=
  s <- get ;;
  match firstWorldState s with
  | None => ret tt
  | Some worldState =>
      let agentSpools := getAgentSpools worldState agentId in
      let updated :=
        map (fun p =>
               if String.eqb (spoolId p) sid
               then markCompleted (currentFrame (simulation s)) p
               else p) agentSpools in
      modify (putFirstWorldState (setAgentSpools worldState agentId updated)) ;;;
      emitEvent NARRATIVE "SPOOL_COMPLETED" [("spoolId", PString sid)]
        (Some agentId) None
  end.

Definition withCurrentEncounter (encounterId : string) (p : SpoolProgress)
    : SpoolProgress :=
  {| spoolId := spoolId p;
     sp_agentId := sp_agentId p;
     status := status p;
     currentEncounterId := Some encounterId;
     enteredAtFrame := enteredAtFrame p;
     completedAtFrame := completedAtFrame p;
     choiceHistory := choiceHistory p |}.

Definition isACTIVE (st : SpoolStatus) : bool :=
  match st with ACTIVE => true | _ => false end.

Definition isCOMPLETED (st : SpoolStatus) : bool :=
  match st with COMPLETED => true | _ => false end.

Definition advanceToEncounter (agentId encounterId : string) : M unit :=
  s <- get ;;
  match firstWorldState s with
  | None => ret tt
  | Some worldState =>
      let agentSpools := getAgentSpools worldState agentId in
      let updated :=
        map (fun p =>
               if isACTIVE (status p)
               then withCurrentEncounter encounterId p
               else p) agentSpools in
      modify (putFirstWorldState (setAgentSpools worldState agentId updated)) ;;;
      emitEvent NARRATIVE "ENCOUNTER_STARTED" [("encounterId", PString encounterId)]
        (Some agentId) None
  end.

(** The search loop of [processChoice]: the first encounter, in declaration
    order, with a choice of that id, and its first such choice. *)
Fixpoint findChoice (encs : list Encounter) (choiceId : string)
    : option (Choice * Encounter) :=
  match encs with
  | [] => None
  | encounter :: rest =>
      match find (fun c => String.eqb (choice_id c) choiceId) (choices encounter) with
      | Some choice => Some (choice, encounter)
      | None => findChoice rest choiceId
      end
  end.

(** The entry [processChoice] pushes onto the agent's choice sequence. *)
Definition ledgerEntry (atFrame : Z) (foundEncounter : Encounter)
    (foundChoice : Choice) (choiceId : string) : SequenceEntry :=
  {| se_frame := atFrame;
     se_encounterId := enc_id foundEncounter;
     se_choiceId := choice_id foundChoice;
     se_availableChoices := map choice_id (choices foundEncounter);
     choiceIndex :=
       findIndex (fun c => String.eqb (choice_id c) choiceId) (choices foundEncounter) |}.

(** [sessionData.choices.push(entry)], when the agent has session data. *)
Definition recordChoice (agentId : string) (entry : SequenceEntry) : M unit :=
  modify (fun s =>
    match sessionData s !! agentId with
    | Some sd =>
        set_sessionData
          (<[agentId := {| startFrame := startFrame sd;
                           sd_choices := sd_choices sd ++ [entry] |}]> (sessionData s)) s
    | None => s
    end).

(** One iteration of the mutation loop; a [TypeError] of the mutation
    leaves [processChoice] with the state reached so far. *)
Definition applyOne (agentId : string) (mutation : VariableMutation) : M unit :=
  s <- get ;;
  match firstWorldState s with
  | None => ret tt
  | Some worldState =>
      match applyMutation worldState mutation agentId with
      | None => throw "TypeError"
      | Some worldState' =>
          modify (putFirstWorldState worldState') ;;;
          emitEvent STATE "VARIABLE_CHANGED"
            [("variableId", PString (mut_variableId mutation));
             ("operation", PString (operation mutation));
             ("value", PUnknown (mut_value mutation))]
            (Some agentId) None
      end
  end.

Definition processChoice (agentId choiceId : string) : M unit :=
  s <- get ;;
  match firstStoryworld s, firstWorldState s with
  | Some storyworld, Some _ =>
      match findChoice (encounters storyworld) choiceId with
      | None =>
          emitEvent SYSTEM "INVALID_CHOICE" [("choiceId", PString choiceId)]
            (Some agentId) None
      | Some (foundChoice, foundEncounter) =>
          recordChoice agentId
            (ledgerEntry (currentFrame (simulation s)) foundEncounter foundChoice choiceId) ;;;
          forEach (applyOne agentId) (mutations foundChoice) ;;;
          emitEvent NARRATIVE "CHOICE_MADE"
            [("encounterId", PString (enc_id foundEncounter));
             ("choiceId", PString (choice_id foundChoice));
             ("choiceText", PString (text foundChoice))]
            (Some agentId) None ;;;
          match isTerminal foundChoice with
          | Some true => completeSpool agentId (enc_spoolId foundEncounter)
          | _ =>
              if truthy (nextEncounterId foundChoice) then
                advanceToEncounter agentId (orElse (nextEncounterId foundChoice) "")
              else if truthy (nextSpoolId foundChoice) then
                enterSpool agentId (orElse (nextSpoolId foundChoice) "")
              else ret tt
          end
      end
  | _, _ => ret tt
  end.

(** *** Completion, snapshots and session export *)

Definition complete (reason : option string) : M unit :=
  modify (fun s => set_simulation (set_status SIM_COMPLETED (simulation s)) s) ;;;
  t <- newDate ;;
  modify (fun s => set_simulation (set_completedAt t (simulation s)) s) ;;;
  emitEvent SYSTEM "SIMULATION_COMPLETED"
    [("reason", match reason with Some r => PString r | None => PAbsent end)]
    None None.

Definition takeSnapshot : M StateSnapshot :=
  s <- get ;;
  let worldState := firstWorldState s in
  id <- freshUuid ;;
  t <- newDate ;;
  ret {| snap_id := id;
         snap_simulationId := sim_id (simulation s);
         snap_frame := currentFrame (simulation s);
         variableStates :=
           match worldState with
           | Some ws => map (fun v => (variableId v, value v)) (getAllVariables ws)
           | None => []
           end;
         agentStates :=
           map (fun a =>
                  {| as_agentId := agent_id a;
                     as_activeSpools :=
                       match worldState with
                       | Some ws => map spoolId (getAgentSpools ws (agent_id a))
                       | None => []
                       end;
                     as_currentEncounter :=
                       match worldState with
                       | Some ws =>
                           match find (fun p => truthy (currentEncounterId p))
                                   (getAgentSpools ws (agent_id a)) with
                           | Some p => currentEncounterId p
                           | None => None
                           end
                       | None => None
                       end |})
             (agents (simulation s));
         createdAt := t |}.

Definition exportSessionOutcomes : M (list SessionOutcome) :=
  s0 <- get ;;
  foldM
    (fun (outcomes : list SessionOutcome) agent =>
       s <- get ;;
       match sessionData s !! agent_id agent with
       | None => ret outcomes
       | Some sd =>
           let worldState := firstWorldState s in
           let agentSpools :=
             match worldState with
             | Some ws => getAgentSpools ws (agent_id agent)
             | None => []
             end in
           sid <- freshUuid ;;
           ret (app outcomes
                [{| sessionId := sid;
                    so_agentId := agent_id agent;
                    so_simulationId := sim_id (simulation s);
                    so_storyworldId := head (storyworldIds (simulation s));
                    so_startFrame := startFrame sd;
                    endFrame := currentFrame (simulation s);
                    totalChoices := Z.of_nat (length (sd_choices sd));
                    spoolsEntered := map spoolId agentSpools;
                    spoolsCompleted :=
                      map spoolId
                        (List.filter (fun p => isCOMPLETED (status p)) agentSpools);
                    endingsReached := [];
                    finalVariableState :=
                      match worldState with
                      | Some ws => getAllVariables ws
                      | None => []
                      end;
                    choiceSequence := sd_choices sd |}])
       end)
    (agents (simulation s0)) [].

(** *** [executeFrame] *)

(** Observation stage, one agent: build the view, log its delivery. *)
Definition observeAgent (views : JSMap.t AgentView) (agent : AgentSlot)
    : M (JSMap.t AgentView) :=
  if negb (isActive agent) then ret views
  else
    view <- buildAgentView (agent_id agent) ;;
    emitEvent SYSTEM "VIEW_DELIVERED"
      [("agentId", PString (agent_id agent));
       ("hasEncounter",
        PBoolean (match currentEncounter view with Some _ => true | None => false end));
       ("choiceCount", PNumber (Z.of_nat (length (availableChoices view))))]
      (Some (agent_id agent)) None ;;;
    ret (JSMap.set (agent_id agent) view views).

(** Action stage, one agent: [slot] is the agent with its position in the
    agent list. *)
Definition collectAction (actionHandler : AgentActionHandler)
    (agentViews : JSMap.t AgentView) (actions : JSMap.t AgentAction)
    (slot : nat * AgentSlot) : M (JSMap.t AgentAction) :=
  let (i, agent) := slot in
  if negb (isActive agent) then ret actions
  else
    match JSMap.get (agent_id agent) agentViews with
    | None => ret actions
    | Some view =>
        match actionHandler i (agent_id agent) view with
        | Resolved (Some action) => ret (JSMap.set (agent_id agent) action actions)
        | Resolved None => ret actions
        | Rejected err =>
            emitEvent SYSTEM "AGENT_ERROR"
              [("agentId", PString (agent_id agent));
               ("error", PString (orElse err "Unknown error"))]
              (Some (agent_id agent)) None ;;;
            ret actions
        end
    end.

(** Resolution stage, one collected action. *)
Definition resolveAction (entry : string * AgentAction) : M unit :=
  let (agentId, action) := entry in
  (if truthy (act_choiceId action)
   then processChoice agentId (orElse (act_choiceId action) "")
   else ret tt) ;;;
  (if truthy (act_message action)
   then emitEvent COMMUNICATION "MESSAGE_SENT"
          [("content", PString (orElse (act_message action) ""));
           ("channel", PString "NARRATIVE")]
          (Some agentId) None
   else ret tt).

(** Transition stage: every world state and the simulation advance. *)
Definition transition : M unit :=
  modify (fun s => set_worldStates (advanceFrame <$> worldStates s) s) ;;;
  modify (fun s =>
    set_simulation (set_currentFrame (currentFrame (simulation s) + 1) (simulation s)) s).

Definition executeFrame (actionHandler : AgentActionHandler) : M unit :=
  s <- get ;;
  match sim_status (simulation s) with
  | RUNNING =>
      let agentList := agents (simulation s) in
      agentViews <- foldM observeAgent agentList [] ;;
      actions <-
        foldM (collectAction actionHandler agentViews)
          (combine (seq 0 (length agentList)) agentList) [] ;;
      forEach resolveAction actions ;;;
      transition ;;;
      s1 <- get ;;
      (if currentFrame (simulation s1) >=? maxFrames (config s1)
       then complete (Some "Max frames reached")
       else ret tt) ;;;
      s2 <- get ;;
      (if (0 <? snapshotInterval (config s2))
          && (Z.rem (currentFrame (simulation s2)) (snapshotInterval (config s2)) =? 0)
       then _ <- takeSnapshot ;; ret tt
       else ret tt)
  | _ => throw "Simulation not running"
  end.


(** ** Vocabulary of the properties *)

(** The operators [evaluateCondition] has a case for. *)
Definition knownOperator (op : string) : bool :=
  existsb (String.eqb op)
    ["EQ"; "NEQ"; "GT"; "GTE"; "LT"; "LTE"; "CONTAINS"; "NOT_CONTAINS";
     "EXISTS"; "NOT_EXISTS"; "AND"; "OR"; "NOT"].

(** A condition that [GateConditionSchema] would reject: an operator outside
    the schema, or a [NOT] without a first child. *)
Definition malformed (c : GateCondition) : Prop :=
  knownOperator (operator c) = false \/
  (operator c = "NOT" /\ (children c = None \/ children c = Some [])).

(** [c] relates every state it is run in to the state it leaves, whether it
    returns or throws. *)
Definition preserves {A} (R : Engine -> Engine -> Prop) (c : M A) : Prop :=
  forall s r s', c s = (r, s') -> R s s'.

(** The frame counter of every loaded world state. *)
Definition framesOf (s : Engine) : gmap string Z := frame <$> worldStates s.

Definition sameFrames (s s' : Engine) : Prop :=
  currentFrame (simulation s') = currentFrame (simulation s) /\
  framesOf s' = framesOf s.

(** The current-frame value after each call of a sequence of
    [executeFrame] calls. *)
Fixpoint frameValues (handlers : list AgentActionHandler) (s : Engine) : list Z :=
  match handlers with
  | [] => []
  | h :: rest =>
      let s1 := snd (executeFrame h s) in
      currentFrame (simulation s1) :: frameValues rest s1
  end.

(** The computation touches only the world states, the event log and the
    oracle counters. *)
Definition worldOnly (s s' : Engine) : Prop :=
  simulation s' = simulation s /\ storyworlds s' = storyworlds s /\
  sessionData s' = sessionData s /\ config s' = config s.

(** The event [emitEvent] builds in state [s], and the state it leaves. *)
Definition eventAt (s : Engine) (category : EventCategory) (eventType : string)
    (payload : list (string * PayloadValue)) (actorId targetId : option string)
    : SimulationEvent :=
  {| ev_id := uuid (uuidCalls s);
     ev_simulationId := sim_id (simulation s);
     ev_frame := currentFrame (simulation s);
     stage := RESOLUTION;
     category := category;
     eventType := eventType;
     actorId := actorId;
     targetId := targetId;
     payload := payload;
     timestamp := now (clockReads s) |}.

Definition emitted (e : SimulationEvent) (s : Engine) : Engine :=
  set_events (events s ++ [e]) (tick_clock (tick_uuid s)).

(** An agent's choice ledger: the choice sequence of its session data. *)
Definition ledger (s : Engine) (agentId : string) : list SequenceEntry :=
  match sessionData s !! agentId with
  | Some sd => sd_choices sd
  | None => []
  end.

(** A ledger entry for the choice [choiceId] is complete with respect to
    the storyworld: it names the encounter owning the choice, lists all the
    choice ids that encounter declares, in order, and its index points at
    the chosen id in that list. *)
Definition entryComplete (sw : Storyworld) (choiceId : string)
    (e : SequenceEntry) : Prop :=
  exists ch enc,
    findChoice (encounters sw) choiceId = Some (ch, enc) /\
    se_encounterId e = enc_id enc /\
    se_availableChoices e = map choice_id (choices enc) /\
    0 <= choiceIndex e < Z.of_nat (length (se_availableChoices e)) /\
    js_index (se_availableChoices e) (choiceIndex e) = Some choiceId /\
    se_choiceId e = choiceId.

(** The mutation loop of [processChoice] on one world state: [None] when a
    mutation throws. *)
Fixpoint applyMutations (ws : WorldState) (ms : list VariableMutation)
    (actorId : string) : option WorldState :=
  match ms with
  | [] => Some ws
  | m :: ms' =>
      match applyMutation ws m actorId with
      | Some ws' => applyMutations ws' ms' actorId
      | None => None
      end
  end.

(** The agent's progress list after the narrative transition of a choice of
    encounter [enc], resolved at frame [atFrame], field by field: a terminal
    choice marks every entry of the encounter's spool [COMPLETED] at that
    frame; else a next-encounter id becomes the current encounter of every
    [ACTIVE] entry; else a next-spool id of a declared spool adds an
    [ACTIVE] entry at the spool's entry encounter. *)
Definition transitionSpools (sw : Storyworld) (atFrame : Z) (agentId : string)
    (enc : Encounter) (ch : Choice) (progress : list SpoolProgress)
    : list SpoolProgress :=
  match isTerminal ch with
  | Some true =>
      map (fun p => if String.eqb (spoolId p) (enc_spoolId enc)
                    then {| spoolId := spoolId p;
                            sp_agentId := sp_agentId p;
                            status := COMPLETED;
                            currentEncounterId := currentEncounterId p;
                            enteredAtFrame := enteredAtFrame p;
                            completedAtFrame := Some atFrame;
                            choiceHistory := choiceHistory p |}
                    else p) progress
  | _ =>
      if truthy (nextEncounterId ch) then
        map (fun p => if isACTIVE (status p)
                      then {| spoolId := spoolId p;
                              sp_agentId := sp_agentId p;
                              status := status p;
                              currentEncounterId := Some (orElse (nextEncounterId ch) "");
                              enteredAtFrame := enteredAtFrame p;
                              completedAtFrame := completedAtFrame p;
                              choiceHistory := choiceHistory p |}
                      else p) progress
      else if truthy (nextSpoolId ch) then
        match find (fun sp => String.eqb (spool_id sp) (orElse (nextSpoolId ch) ""))
                (spools sw) with
        | Some spool =>
            progress ++
            [{| spoolId := orElse (nextSpoolId ch) "";
                sp_agentId := agentId;
                status := ACTIVE;
                currentEncounterId := Some (entryEncounterId spool);
                enteredAtFrame := atFrame;
                completedAtFrame := None;
                choiceHistory := [] |}]
        | None => progress
        end
      else progress
  end.

(** The update the specification describes for a choice with a
    next-encounter id: only the first [ACTIVE] entry moves to [encounterId]. *)
Fixpoint advanceFirstActive (encounterId : string) (progress : list SpoolProgress)
    : list SpoolProgress :=
  match progress with
  | [] => []
  | p :: rest =>
      if isACTIVE (status p) then withCurrentEncounter encounterId p :: rest
      else p :: advanceFirstActive encounterId rest
  end.

(** The update [advanceToEncounter] makes: every [ACTIVE] entry moves. *)
Definition advanceEveryActive (encounterId : string) (progress : list SpoolProgress)
    : list SpoolProgress :=
  map (fun p => if isACTIVE (status p) then withCurrentEncounter encounterId p else p)
    progress.

(** A session outcome without its session id. *)
Definition withoutSessionId (o : SessionOutcome) : SessionOutcome :=
  {| sessionId := "";
     so_agentId := so_agentId o;
     so_simulationId := so_simulationId o;
     so_storyworldId := so_storyworldId o;
     so_startFrame := so_startFrame o;
     endFrame := endFrame o;
     totalChoices := totalChoices o;
     spoolsEntered := spoolsEntered o;
     spoolsCompleted := spoolsCompleted o;
     endingsReached := endingsReached o;
     finalVariableState := finalVariableState o;
     choiceSequence := choiceSequence o |}.

Definition set_uuidCalls (n : nat) (s : Engine) : Engine :=
  {| simulation := simulation s; storyworlds := storyworlds s;
     worldStates := worldStates s; events := events s; config := config s;
     sessionData := sessionData s;
     uuidCalls := n; clockReads := clockReads s |}.

(** The outcomes [exportSessionOutcomes] builds for a list of agents when
    the next uuid is the [n]-th. *)
Fixpoint outcomesFrom (s : Engine) (n : nat) (agentList : list AgentSlot)
    : list SessionOutcome :=
  match agentList with
  | [] => []
  | agent :: rest =>
      match sessionData s !! agent_id agent with
      | None => outcomesFrom s n rest
      | Some sd =>
          let agentSpools :=
            match firstWorldState s with
            | Some ws => getAgentSpools ws (agent_id agent)
            | None => []
            end in
          {| sessionId := uuid n;
             so_agentId := agent_id agent;
             so_simulationId := sim_id (simulation s);
             so_storyworldId := head (storyworldIds (simulation s));
             so_startFrame := startFrame sd;
             endFrame := currentFrame (simulation s);
             totalChoices := Z.of_nat (length (sd_choices sd));
             spoolsEntered := map spoolId agentSpools;
             spoolsCompleted :=
               map spoolId (List.filter (fun p => isCOMPLETED (status p)) agentSpools);
             endingsReached := [];
             finalVariableState :=
               match firstWorldState s with
               | Some ws => getAllVariables ws
               | None => []
               end;
             choiceSequence := sd_choices sd |}
          :: outcomesFrom s (S n) rest
      end
  end.

(** Every progress entry is stored under the agent it names. *)
Definition progressOwned (s : Engine) : Prop :=
  forall swid ws agent p,
    worldStates s !! swid = Some ws ->
    In p (getAgentSpools ws agent) -> sp_agentId p = agent.

(** The history entry [buildRecentHistory] makes of an event. *)
Definition historyEntry (e : NarrativeEvent) : HistoryEntry :=
  {| he_frame := ne_frame e;
     he_event := ne_eventType e;
     he_summary := summarizeEvent e |}.

(** The current encounter as the specification describes it: resolved from
    the entries of [ACTIVE] status only. *)
Definition currentEncounterOfActive (sw : Storyworld) (agentId : string)
    (progress : list SpoolProgress) : option Encounter :=
  getCurrentEncounter sw agentId (List.filter (fun p => isACTIVE (status p)) progress).

(** One call of a public method of the engine. *)
Inductive publicCall (s : Engine) : Engine -> Prop :=
| call_loadStoryworld sw :
    publicCall s (snd (loadStoryworld sw s))
| call_createSimulation name swIds agentSpecs expId :
    publicCall s (snd (createSimulation name swIds agentSpecs expId s))
| call_start :
    publicCall s (snd (start s))
| call_executeFrame handler :
    publicCall s (snd (executeFrame handler s))
| call_complete reason :
    publicCall s (snd (complete reason s))
| call_exportSessionOutcomes :
    publicCall s (snd (exportSessionOutcomes s)).

(** The states an engine can be in: those reached from a new engine by
    calls of its public methods, returning or throwing. *)
Inductive reachable : Engine -> Prop :=
| reachable_new cfg : reachable (newEngine cfg)
| reachable_call s s' : reachable s -> publicCall s s' -> reachable s'.

Definition ownedStep (s s' : Engine) : Prop := progressOwned s -> progressOwned s'.

(** *** Vocabulary for the world state *)

(** The state [initializeVariables] stores for a declared variable. *)
Definition initialState (variable : VariableDef) : VariableState :=
  {| variableId := var_id variable;
     value := var_defaultValue variable;
     lastModifiedFrame := 0;
     modifiedBy := None |}.

(** The keys of the variable map, in insertion order. *)
Definition variableIds (ws : WorldState) : list string := map fst (ws_variables ws).

(** A world state whose variable map has one entry per declared variable
    id, each stored under its own id and stamped with a frame that the
    world state has reached. *)
Definition wellKeyed (ws : WorldState) : Prop :=
  0 <= frame ws /\
  List.NoDup (variableIds ws) /\
  (forall k v, In (k, v) (ws_variables ws) ->
     variableId v = k /\ 0 <= lastModifiedFrame v <= frame ws) /\
  (forall id, In id (variableIds ws) <->
              In id (map var_id (variables (ws_storyworld ws)))).

Definition worldsSatisfy (P : WorldState -> Prop) (s : Engine) : Prop :=
  forall swid ws, worldStates s !! swid = Some ws -> P ws.

Definition keepsWorlds (P : WorldState -> Prop) (s s' : Engine) : Prop :=
  worldsSatisfy P s -> worldsSatisfy P s'.

(** The shape of the progress entries the engine writes: [ACTIVE] without a
    completion frame or [COMPLETED] with one, a current encounter id, and no
    choice history. *)
Definition engineMade (p : SpoolProgress) : Prop :=
  ((status p = ACTIVE /\ completedAtFrame p = None) \/
   (status p = COMPLETED /\ completedAtFrame p <> None)) /\
  currentEncounterId p <> None /\
  choiceHistory p = [].

Definition progressEngineMade (ws : WorldState) : Prop :=
  forall agentId p, In p (getAgentSpools ws agentId) -> engineMade p.

(** *** Vocabulary for gates *)

(** The variable ids a condition tree names. *)
Fixpoint mentionedVariables (c : GateCondition) : list string :=
  (if truthy (gc_variableId c) then [orElse (gc_variableId c) ""] else []) ++
  match children c with
  | Some cs => flat_map mentionedVariables cs
  | None => []
  end.

(** The value of a variable as a gate reads it. *)
Definition readValue (ws : WorldState) (id : string) : option V :=
  option_map value (getVariable ws id).

(** *** Vocabulary for the engine *)

(** The simulation record and the configuration are as before. *)
Definition simFixed (s s' : Engine) : Prop :=
  simulation s' = simulation s /\ config s' = config s.


(** The event log has only grown. *)
Definition logGrows (s s' : Engine) : Prop :=
  exists added, events s' = app (events s) added.

(** *** Vocabulary for choice resolution *)

(** An entry after a step: the same spool, agent and entry frame, and a
    completed entry stays completed. *)
Definition entryEvolves (p q : SpoolProgress) : Prop :=
  spoolId q = spoolId p /\ sp_agentId q = sp_agentId p /\
  enteredAtFrame q = enteredAtFrame p /\
  (status p = COMPLETED -> status q = COMPLETED).

(** A progress list after a step: the old entries, evolved, in their order,
    followed by the entries added. *)
Definition progressGrows (before after : list SpoolProgress) : Prop :=
  exists kept extra, after = app kept extra /\ Forall2 entryEvolves before kept.

(** A world state before and after a step made for agent [b]. *)
Definition choiceWorld (b : string) (ws ws' : WorldState) : Prop :=
  frame ws' = frame ws /\ ws_storyworld ws' = ws_storyworld ws /\
  variableIds ws' = variableIds ws /\
  (forall agent, agent <> b -> getAgentSpools ws' agent = getAgentSpools ws agent) /\
  progressGrows (getAgentSpools ws b) (getAgentSpools ws' b).

(** An engine state before and after a step made for agent [b]: the
    simulation, the storyworlds and the configuration are as before, the
    events added all have [b] as actor, the session data of the other agents
    is as before and the ledger of [b] has only grown, and every world state
    is related by [choiceWorld]. *)
Definition choiceStep (b : string) (s s' : Engine) : Prop :=
  simulation s' = simulation s /\ storyworlds s' = storyworlds s /\
  config s' = config s /\
  (exists added, events s' = app (events s) added /\
                 Forall (fun e => actorId e = Some b) added) /\
  (forall agent, agent <> b -> sessionData s' !! agent = sessionData s !! agent) /\
  (exists added, ledger s' b = app (ledger s b) added) /\
  (forall swid,
     match worldStates s !! swid with
     | Some ws => exists ws', worldStates s' !! swid = Some ws' /\ choiceWorld b ws ws'
     | None => worldStates s' !! swid = None
     end).

(** Agent [a] is not touched by a step: its progress lists and session data
    are as before and no event added has it as actor. *)
Definition untouched (a : string) (s s' : Engine) : Prop :=
  (forall swid,
     match worldStates s !! swid with
     | Some ws =>
         exists ws', worldStates s' !! swid = Some ws' /\
                     getAgentSpools ws' a = getAgentSpools ws a
     | None => worldStates s' !! swid = None
     end) /\
  sessionData s' !! a = sessionData s !! a /\
  (exists added, events s' = app (events s) added /\
                 Forall (fun e => actorId e <> Some a) added).

(** The narrative state is as before: session data, variable states and
    spool progress of every world state. *)
Definition narrativeFixed (s s' : Engine) : Prop :=
  sessionData s' = sessionData s /\
  (forall swid,
     match worldStates s !! swid with
     | Some ws =>
         exists ws', worldStates s' !! swid = Some ws' /\
                     ws_variables ws' = ws_variables ws /\
                     spoolProgress ws' = spoolProgress ws
     | None => worldStates s' !! swid = None
     end).


(** *** Vocabulary for the event log *)

(** The indices [ks] are increasing, each at least [lo] and below [hi]:
    the positions, in the sequence of ids the generator gives, of ids given
    between its [lo]-th and its [hi]-th call. *)
Fixpoint drawnBetween (lo hi : nat) (ks : list nat) : Prop :=
  match ks with
  | [] => (lo <= hi)%nat
  | k :: rest => (lo <= k)%nat /\ drawnBetween (S k) hi rest
  end.

(** A step that only appends events to the log, each with an id the
    generator gave during the step, in the order given. *)
Definition logStep (s s' : Engine) : Prop :=
  exists added ks,
    events s' = app (events s) added /\
    map ev_id added = map uuid ks /\
    drawnBetween (uuidCalls s) (uuidCalls s') ks.

(** What a logged event says: its category, its type and its payload. *)
Definition said (e : SimulationEvent)
    : EventCategory * string * list (string * PayloadValue) :=
  (category e, eventType e, payload e).

(** The events [processChoice] logs for the choice [ch] of encounter
    [enc]: one [VARIABLE_CHANGED] per mutation, [CHOICE_MADE], and the event
    of the narrative transition, if any. *)
Definition choiceTrace (sw : Storyworld) (enc : Encounter) (ch : Choice)
    : list (EventCategory * string * list (string * PayloadValue)) :=
  app
    (map (fun mutation =>
            (STATE, "VARIABLE_CHANGED",
             [("variableId", PString (mut_variableId mutation));
              ("operation", PString (operation mutation));
              ("value", PUnknown (mut_value mutation))]))
       (mutations ch))
    ((NARRATIVE, "CHOICE_MADE",
      [("encounterId", PString (enc_id enc));
       ("choiceId", PString (choice_id ch));
       ("choiceText", PString (text ch))])
     :: match isTerminal ch with
        | Some true =>
            [(NARRATIVE, "SPOOL_COMPLETED", [("spoolId", PString (enc_spoolId enc))])]
        | _ =>
            if truthy (nextEncounterId ch) then
              [(NARRATIVE, "ENCOUNTER_STARTED",
                [("encounterId", PString (orElse (nextEncounterId ch) ""))])]
            else if truthy (nextSpoolId ch) then
              match find (fun sp => String.eqb (spool_id sp) (orElse (nextSpoolId ch) ""))
                      (spools sw) with
              | Some _ =>
                  [(NARRATIVE, "SPOOL_ENTERED",
                    [("spoolId", PString (orElse (nextSpoolId ch) ""))])]
              | None => []
              end
            else []
        end).

(** Between [s] and [s'] the simulation record and the storyworlds are
    unchanged, and the events added say [tr], in order, each logged for the
    actor [agentId] with the simulation id and the frame of [s]. *)
Definition traced (agentId : string)
    (tr : list (EventCategory * string * list (string * PayloadValue)))
    (s s' : Engine) : Prop :=
  simulation s' = simulation s /\ storyworlds s' = storyworlds s /\
  exists added,
    events s' = app (events s) added /\ map said added = tr /\
    Forall (fun e => actorId e = Some agentId /\ targetId e = None /\
                     ev_simulationId e = sim_id (simulation s) /\
                     ev_frame e = currentFrame (simulation s)) added.

(** *** Vocabulary for sessions *)

(** The session data [createSimulation] stores for an agent. *)
Definition emptySession : SessionData := {| startFrame := 0; sd_choices := [] |}.

(** Every agent of the simulation has session data. *)
Definition agentsHaveSessions (s : Engine) : Prop :=
  forall agent, In agent (agents (simulation s)) ->
    is_Some (sessionData s !! agent_id agent).

(** The agents are as before and no session data is removed. *)
Definition sessionsKept (s s' : Engine) : Prop :=
  agents (simulation s') = agents (simulation s) /\
  forall a, is_Some (sessionData s !! a) -> is_Some (sessionData s' !! a).

(** The progress list [exportSessionOutcomes] reads for an agent. *)
Definition spoolsOf (s : Engine) (agentId : string) : list SpoolProgress :=
  match firstWorldState s with
  | Some ws => getAgentSpools ws agentId
  | None => []
  end.
End Engine.

Arguments Returned {A} a.
Arguments Thrown {A} message.

Notation "x <- c ;; k" := (bind c (fun x => k))
  (at level 100, c at next level, right associativity).
Notation "c ;;; k" := (bind c (fun _ => k))
  (at level 100, right associativity).

Arguments VariableDef V : clear implicits.
Arguments VariableState V : clear implicits.
Arguments GateCondition V : clear implicits.
Arguments Gate V : clear implicits.
Arguments VariableMutation V : clear implicits.
Arguments Choice V : clear implicits.
Arguments Encounter V : clear implicits.
Arguments Storyworld V : clear implicits.
Arguments AgentView V : clear implicits.
Arguments SessionOutcome V : clear implicits.
Arguments WorldState V : clear implicits.
Arguments PayloadValue V : clear implicits.
Arguments SimulationEvent V : clear implicits.
Arguments StateSnapshot V : clear implicits.
Arguments Engine V : clear implicits.
Arguments AgentActionHandler V : clear implicits.
Arguments M V A : clear implicits.

(** ** A concrete runtime: JSON-like values with integer numbers

    Exact for the operators on [undefined], [null], booleans, integers and
    arrays of them, which is what the examples below use.  Two arrays are
    never [===] (they are distinct objects); string-to-number coercion and
    non-numeric [+] are not modelled. *)

Inductive json :=
| JUndefined
| JNull
| JBool (b : bool)
| JNum (n : Z)
| JStr (s : string)
| JArr (items : list json).

Module Json.

Definition not (v : json) : bool :=
  match v with
  | JUndefined | JNull => true
  | JBool b => negb b
  | JNum n => n =? 0
  | JStr s => String.eqb s ""
  | JArr _ => false
  end.

Definition seq (a b : json) : bool :=
  match a, b with
  | JUndefined, JUndefined => true
  | JNull, JNull => true
  | JBool x, JBool y => Bool.eqb x y
  | JNum x, JNum y => x =? y
  | JStr x, JStr y => String.eqb x y
  | _, _ => false
  end.

(** [ToNumber] where it is an integer. *)
Definition toNumber (v : json) : option Z :=
  match v with
  | JNull => Some 0
  | JBool b => Some (if b then 1 else 0)
  | JNum n => Some n
  | _ => None
  end.

Definition compare (test : Z -> Z -> bool) (a b : json) : bool :=
  match toNumber a, toNumber b with
  | Some x, Some y => test x y
  | _, _ => false
  end.

Definition arith (op : Z -> Z -> Z) (a b : json) : json :=
  match toNumber a, toNumber b with
  | Some x, Some y => JNum (op x y)
  | _, _ => JUndefined
  end.

Definition isArray (v : json) : bool :=
  match v with JArr _ => true | _ => false end.

Definition includes (a b : json) : bool :=
  match a with
  | JArr items => existsb (fun x => seq x b) items
  | _ => false
  end.

Definition spread_push (a b : json) : option json :=
  match a with
  | JArr items => Some (JArr (items ++ [b]))
  | _ => None
  end.

Definition filter_sne (a b : json) : option json :=
  match a with
  | JArr items => Some (JArr (List.filter (fun x => negb (seq x b)) items))
  | _ => None
  end.

End Json.

#[export] Instance json_runtime : JSRuntime json := {|
  js_undefined := JUndefined;
  js_null := JNull;
  js_bool := JBool;
  js_not := Json.not;
  js_seq := Json.seq;
  js_gt := Json.compare Z.gtb;
  js_gte := Json.compare Z.geb;
  js_lt := Json.compare Z.ltb;
  js_lte := Json.compare Z.leb;
  js_isArray := Json.isArray;
  js_includes := Json.includes;
  js_add := Json.arith Z.add;
  js_sub := Json.arith Z.sub;
  js_mul := Json.arith Z.mul;
  js_spread_push := Json.spread_push;
  js_filter_sne := Json.filter_sne
|}.

(** ** The trust storyworld

    The number [trust_level] (default 50) with two variables of narrower
    scope, the gate [high_trust] ([trust_level >= 70]), the spool
    [alliance] behind that gate and the open spool [rivalry].  At the
    [crossroads] an agent joins either spool; the encounter [offer] of the
    alliance has the choices [propose] (gated, adds 25, leads to
    [negotiate]) and [decline] (terminal). *)

Module Trust.

Definition leaf (op : string) (var : string) (v : json) : GateCondition json :=
  {| operator := op; gc_variableId := Some var; gc_value := v; children := None |}.

Definition variable (id scope : string) (v : json) : VariableDef json :=
  {| var_id := id; var_name := id; var_type := "NUMBER";
     var_scope := scope; var_defaultValue := v |}.

Definition high_trust : Gate json :=
  {| gate_id := "high_trust"; gate_name := "High trust";
     condition := leaf "GTE" "trust_level" (JNum 70) |}.

Definition spool (id : string) (gate : option string) (entry : string) : Spool :=
  {| spool_id := id; spool_name := id; spool_description := id;
     entryGateId := gate; entryEncounterId := entry; spool_encounters := [entry] |}.

Definition choice (id : string) (gate : option string)
    (ms : list (VariableMutation json)) (nextEncounter nextSpool : option string)
    (terminal : option bool) : Choice json :=
  {| choice_id := id; text := id; gateId := gate; mutations := ms;
     nextEncounterId := nextEncounter; nextSpoolId := nextSpool;
     isTerminal := terminal |}.

Definition encounter (id spool : string) (cs : list (Choice json)) : Encounter json :=
  {| enc_id := id; enc_spoolId := spool; enc_name := id; enc_description := id;
     participants := []; choices := cs; enc_gateId := None |}.

Definition join : Choice json := choice "join" None [] None (Some "alliance") None.
Definition feud : Choice json := choice "feud" None [] None (Some "rivalry") None.

Definition propose : Choice json :=
  choice "propose" (Some "high_trust")
    [{| mut_variableId := "trust_level"; operation := "ADD";
        mut_value := JNum 25; targetAgent := None |}]
    (Some "negotiate") None (Some false).

Definition decline : Choice json := choice "decline" None [] None None (Some true).

Definition crossroads : Encounter json := encounter "crossroads" "prologue" [join; feud].
Definition offer : Encounter json := encounter "offer" "alliance" [propose; decline].
Definition negotiate : Encounter json := encounter "negotiate" "alliance" [].
Definition duel : Encounter json := encounter "duel" "rivalry" [].

Definition world : Storyworld json :=
  {| sw_id := "trust-dilemma"; sw_name := "Trust dilemma";
     variables :=
       [variable "trust_level" "GLOBAL" (JNum 50);
        variable "pact" "DYADIC" (JBool false);
        variable "hunch" "LOCAL" (JNum 1)];
     gates := [high_trust];
     spools := [spool "alliance" (Some "high_trust") "offer"; spool "rivalry" None "duel"];
     encounters := [crossroads; offer; negotiate; duel] |}.

(** Conditions outside [GateConditionSchema]. *)
Definition xor : GateCondition json :=
  {| operator := "XOR"; gc_variableId := None; gc_value := JUndefined;
     children := Some [leaf "GTE" "trust_level" (JNum 70)] |}.

Definition not_without_children : GateCondition json :=
  {| operator := "NOT"; gc_variableId := None; gc_value := JUndefined; children := None |}.

Definition not_of_nothing : GateCondition json :=
  {| operator := "NOT"; gc_variableId := None; gc_value := JUndefined;
     children := Some [] |}.

(** Oracles: the n-th uuid is [id-n], the n-th clock reading is [n]. *)
Definition uuid (n : nat) : string :=
  "id-" ++ NilEmpty.string_of_uint (Nat.to_uint n).
Definition now (n : nat) : Z := Z.of_nat n.

Definition defaults : EngineConfig :=
  {| cfg_maxFrames := None; cfg_agentTimeoutMs := None; cfg_snapshotInterval := None;
     cfg_enforceEpistemicIsolation := None; cfg_computeMetricsPerFrame := None |}.

Definition agent (id : string) : AgentSpec :=
  {| spec_id := id; spec_name := id; spec_agentType := "SCRIPTED"; spec_isActive := true |}.

(** A decision callback that answers from a table of agent id and choice
    id, and resolves to [null] for the other agents. *)
Definition choose (picks : list (string * string)) : AgentActionHandler json :=
  fun _ agentId _ =>
    match find (fun p => String.eqb (fst p) agentId) picks with
    | Some p =>
        Resolved (Some {| act_choiceId := Some (snd p); act_message := None |})
    | None => Resolved None
    end.

(** Run [c] for its final state, whatever it returns. *)
Definition exec {A} (c : M json A) (s : Engine json) : Engine json := snd (c s).

Definition frameWith (picks : list (string * string)) : Engine json -> Engine json :=
  exec (executeFrame uuid now (choose picks)).

(** The first world state of a state in which the storyworld is loaded. *)
Definition worldOf (s : Engine json) : WorldState json :=
  match firstWorldState s with
  | Some ws => ws
  | None => newWorldState world
  end.

Definition started (agentIds : list string) : Engine json :=
  exec (start uuid now)
    (exec (createSimulation uuid now "run" ["trust-dilemma"] (map agent agentIds) None)
       (exec (loadStoryworld world) (newEngine defaults))).

(** A running simulation with agents [a] and [b]. *)
Definition running : Engine json := started ["a"; "b"].

(** Agent [a] has joined the alliance, then the rivalry. *)
Definition twoActive : Engine json :=
  frameWith [("a", "feud")] (frameWith [("a", "join")] running).

(** Agent [a] has joined the alliance and declined the offer. *)
Definition declined : Engine json :=
  frameWith [("a", "decline")] (frameWith [("a", "join")] running).

(** A simulation in which one agent has the empty string as id; that agent
    has chosen [feud] in the first frame. *)
Definition anonymousFeud : Engine json :=
  frameWith [("", "feud")] (started [""; "a"]).

End Trust.

(** ** Further runs on the trust storyworld *)

Module Runs.

(** The simulation of agents [a] and [b], created and not yet started. *)
Definition created : Engine json :=
  Trust.exec
    (createSimulation Trust.uuid Trust.now "run" ["trust-dilemma"]
       (map Trust.agent ["a"; "b"]) None)
    (Trust.exec (loadStoryworld Trust.world) (newEngine Trust.defaults)).

(** A running simulation limited to two frames, after its first frame. *)
Definition twoFrames : EngineConfig :=
  {| cfg_maxFrames := Some 2; cfg_agentTimeoutMs := None; cfg_snapshotInterval := None;
     cfg_enforceEpistemicIsolation := None; cfg_computeMetricsPerFrame := None |}.

Definition lastFrame : Engine json :=
  Trust.frameWith []
    (Trust.exec (start Trust.uuid Trust.now)
       (Trust.exec
          (createSimulation Trust.uuid Trust.now "short" ["trust-dilemma"]
             (map Trust.agent ["a"]) None)
          (Trust.exec (loadStoryworld Trust.world) (newEngine twoFrames)))).

(** A running simulation whose storyworld id names no loaded storyworld. *)
Definition unloaded : Engine json :=
  Trust.exec (start Trust.uuid Trust.now)
    (Trust.exec
       (createSimulation Trust.uuid Trust.now "lost" ["atlantis"]
          (map Trust.agent ["a"]) None)
       (Trust.exec (loadStoryworld Trust.world) (newEngine Trust.defaults))).

(** A running simulation with the active agent [a] and the inactive agent
    [c]. *)
Definition bench : AgentSpec :=
  {| spec_id := "c"; spec_name := "c"; spec_agentType := "SCRIPTED";
     spec_isActive := false |}.

Definition benched : Engine json :=
  Trust.exec (start Trust.uuid Trust.now)
    (Trust.exec
       (createSimulation Trust.uuid Trust.now "run" ["trust-dilemma"]
          [Trust.agent "a"; bench] None)
       (Trust.exec (loadStoryworld Trust.world) (newEngine Trust.defaults))).

(** A decision callback that sends a message and makes no choice. *)
Definition greet : AgentActionHandler json :=
  fun _ _ _ => Resolved (Some {| act_choiceId := None; act_message := Some "hello" |}).

(** The mutation of [propose], and the new world state after it. *)
Definition raise : VariableMutation json :=
  {| mut_variableId := "trust_level"; operation := "ADD";
     mut_value := JNum 25; targetAgent := None |}.

Definition raised : WorldState json :=
  setVariable (newWorldState Trust.world) "trust_level" (JNum 75) (Some "a").

(** The world state of the running simulation with a progress entry given
    to agent [b]. *)
Definition otherBusy : WorldState json :=
  setAgentSpools (Trust.worldOf Trust.running) "b"
    [{| spoolId := "rivalry"; sp_agentId := "b"; status := ACTIVE;
        currentEncounterId := Some "duel"; enteredAtFrame := 0;
        completedAtFrame := None; choiceHistory := [] |}].

(** Agent [a] has joined the alliance. *)
Definition joined : Engine json := Trust.frameWith [("a", "join")] Trust.running.

(** The trust storyworld with one more choice at the crossroads:
    [sabotage] adds 5 to [trust_level], then appends to it, which is a
    number and cannot be spread, and names the spool [rivalry]. *)
Definition sabotage : Choice json :=
  Trust.choice "sabotage" None
    [{| mut_variableId := "trust_level"; operation := "ADD";
        mut_value := JNum 5; targetAgent := None |};
     {| mut_variableId := "trust_level"; operation := "APPEND";
        mut_value := JNum 1; targetAgent := None |}]
    None (Some "rivalry") None.

Definition riggedCrossroads : Encounter json :=
  Trust.encounter "crossroads" "prologue" [Trust.join; Trust.feud; sabotage].

Definition rigged : Storyworld json :=
  {| sw_id := sw_id Trust.world; sw_name := sw_name Trust.world;
     variables := variables Trust.world;
     gates := gates Trust.world;
     spools := spools Trust.world;
     encounters := [riggedCrossroads; Trust.offer; Trust.negotiate; Trust.duel] |}.

(** A running simulation of agents [a] and [b] on the rigged storyworld. *)
Definition riggedRun : Engine json :=
  Trust.exec (start Trust.uuid Trust.now)
    (Trust.exec
       (createSimulation Trust.uuid Trust.now "run" ["trust-dilemma"]
          (map Trust.agent ["a"; "b"]) None)
       (Trust.exec (loadStoryworld rigged) (newEngine Trust.defaults))).

(** A simulation limited to zero frames, started. *)
Definition noFrames : EngineConfig :=
  {| cfg_maxFrames := Some 0; cfg_agentTimeoutMs := None; cfg_snapshotInterval := None;
     cfg_enforceEpistemicIsolation := None; cfg_computeMetricsPerFrame := None |}.

Definition zeroLimit : Engine json :=
  Trust.exec (start Trust.uuid Trust.now)
    (Trust.exec
       (createSimulation Trust.uuid Trust.now "none" ["trust-dilemma"]
          (map Trust.agent ["a"]) None)
       (Trust.exec (loadStoryworld Trust.world) (newEngine noFrames))).

End Runs.
(** * Properties *)

Section Properties.
Context {V : Type} {JS : JSRuntime V}.
Variable uuid : nat -> string.
Variable now : nat -> Z.
Local Open Scope list_scope.

(** ** Reasoning about engine computations *)

Section Preservation.
Variable R : Engine V -> Engine V -> Prop.
Hypothesis R_refl : forall s, R s s.
Hypothesis R_trans : forall s1 s2 s3, R s1 s2 -> R s2 s3 -> R s1 s3.

Lemma preserves_ret {A} (a : A) : preserves R (ret a).
Proof. intros s r s' [= _ <-]. apply R_refl. Qed.

Lemma preserves_throw {A} (msg : string) : preserves R (throw (A := A) msg).
Proof. intros s r s' [= _ <-]. apply R_refl. Qed.

Lemma preserves_get : preserves R get.
Proof. intros s r s' [= _ <-]. apply R_refl. Qed.

Lemma preserves_modify (f : Engine V -> Engine V) :
  (forall s, R s (f s)) -> preserves R (modify f).
Proof. intros Hf s r s' [= _ <-]. apply Hf. Qed.

Lemma preserves_bind {A B} (c : M V A) (k : A -> M V B) :
  preserves R c -> (forall a, preserves R (k a)) -> preserves R (bind c k).
Proof.
  intros Hc Hk s r s'. unfold bind.
  destruct (c s) as [[a|msg] s1] eqn:Ec.
  - intros Hk1. eapply R_trans; [eapply Hc | eapply Hk]; eassumption.
  - intros [= _ <-]. eapply Hc; eassumption.
Qed.

Lemma preserves_forEach {A} (f : A -> M V unit) (xs : list A) :
  (forall x, preserves R (f x)) -> preserves R (forEach f xs).
Proof.
  intros Hf. induction xs as [|x xs IH]; cbn [forEach].
  - apply preserves_ret.
  - apply preserves_bind; [apply Hf | intros _; exact IH].
Qed.

Lemma preserves_foldM {A B} (f : B -> A -> M V B) (xs : list A) (b : B) :
  (forall b x, preserves R (f b x)) -> preserves R (foldM f xs b).
Proof.
  intros Hf. revert b. induction xs as [|x xs IH]; intros b; cbn [foldM].
  - apply preserves_ret.
  - apply preserves_bind; [apply Hf | intros b'; apply IH].
Qed.

End Preservation.

(** Decompose a [preserves] goal along the structure of the computation. *)
Ltac preserves_step Hrefl Htrans :=
  lazymatch goal with
  | |- preserves _ (bind _ _) => apply (preserves_bind _ Htrans); [|intros ?]
  | |- preserves _ (ret _) => apply (preserves_ret _ Hrefl)
  | |- preserves _ (throw _) => apply (preserves_throw _ Hrefl)
  | |- preserves _ get => apply (preserves_get _ Hrefl)
  | |- preserves _ (forEach _ _) =>
      apply (preserves_forEach _ Hrefl Htrans); intros ?
  | |- preserves _ (foldM _ _ _) =>
      apply (preserves_foldM _ Hrefl Htrans); intros ? ?
  | |- preserves _ (match ?x with _ => _ end) => destruct x eqn:?
  end.

(** ** Frame monotonicity *)

Lemma sameFrames_refl (s : Engine V) : sameFrames s s.
Proof. split; reflexivity. Qed.

Lemma sameFrames_trans (s1 s2 s3 : Engine V) :
  sameFrames s1 s2 -> sameFrames s2 s3 -> sameFrames s1 s3.
Proof. intros [H1 H2] [H3 H4]. split; congruence. Qed.

Lemma framesOf_put (s : Engine V) (ws ws' : WorldState V) :
  firstWorldState s = Some ws -> frame ws' = frame ws ->
  framesOf (putFirstWorldState ws' s) = framesOf s.
Proof.
  unfold firstWorldState, putFirstWorldState, framesOf.
  destruct (head (storyworldIds (simulation s))) as [swid|]; [|discriminate].
  intros Hws Hframe. cbn.
  rewrite fmap_insert, Hframe.
  apply insert_id. now rewrite lookup_fmap, Hws.
Qed.

Lemma emitEvent_sameFrames cat ty (pl : list (string * PayloadValue V)) actor target :
  preserves (@sameFrames V) (emitEvent uuid now cat ty pl actor target).
Proof. intros s r s' [= _ <-]. split; reflexivity. Qed.
(** ** Gate evaluation *)

(** Induction on a condition tree, with the hypothesis for every child. *)
Lemma GateCondition_children_ind (P : GateCondition V -> Prop) :
  (forall op var val ch,
      (forall cs, ch = Some cs -> Forall P cs) ->
      P {| operator := op; gc_variableId := var; gc_value := val; children := ch |}) ->
  forall c, P c.
Proof.
  intros step.
  fix IH 1.
  intros [op var val ch].
  apply step.
  destruct ch as [cs0|]; [|discriminate].
  assert (Hall : Forall P cs0).
  { revert cs0. fix IHcs 1.
    intros [|c cs0]; constructor; [apply IH | apply IHcs]. }
  intros cs [= <-]. exact Hall.
Qed.

Lemma evaluateCondition_agent (ws : WorldState V) (a1 a2 : option string) :
  forall c, evaluateCondition c ws a1 = evaluateCondition c ws a2.
Proof.
  induction c as [op var val ch IH] using GateCondition_children_ind.
  cbn [evaluateCondition operator gc_variableId gc_value children].
  repeat match goal with
         | |- (if ?b then _ else _) = (if ?b then _ else _) =>
             destruct b; [try reflexivity|]
         end; try reflexivity.
  - (* AND *)
    destruct ch as [cs|]; [|reflexivity].
    specialize (IH cs eq_refl).
    induction IH as [|c cs Hc _ IHcs]; [reflexivity|].
    cbn [forallb]. now rewrite Hc, IHcs.
  - (* OR *)
    destruct ch as [cs|]; [|reflexivity].
    specialize (IH cs eq_refl).
    induction IH as [|c cs Hc _ IHcs]; [reflexivity|].
    cbn [existsb]. now rewrite Hc, IHcs.
  - (* NOT *)
    destruct ch as [[|c0 cs]|]; try reflexivity.
    specialize (IH _ eq_refl). inversion IH as [|? ? Hc0 _]; subst.
    now rewrite Hc0.
Qed.

Lemma evaluate_agent (sw : Storyworld V) (ws : WorldState V) (a1 a2 : option string) :
  forall gateId, evaluate sw gateId ws a1 = evaluate sw gateId ws a2.
Proof.
  intros gateId. unfold evaluate.
  destruct (find _ (gates sw)); [apply evaluateCondition_agent | reflexivity].
Qed.

(** The entry-gate test of [getAvailableSpools] is the same for every agent
    with the same set of entered spools. *)
Lemma getAvailableSpools_agent (sw : Storyworld V) (ws : WorldState V) (a b : string) :
  map spoolId (getAgentSpools ws a) = map spoolId (getAgentSpools ws b) ->
  getAvailableSpools sw a ws = getAvailableSpools sw b ws.
Proof.
  intros Hsame. unfold getAvailableSpools. rewrite Hsame.
  f_equal. apply filter_ext. intros spool.
  destruct (existsb _ _); [reflexivity|].
  destruct (entryGateId spool) as [g|]; [|reflexivity].
  now rewrite (evaluate_agent sw ws (Some a) (Some b) g).
Qed.

(** C10.  Gate evaluation does not depend on the agent: for every
    storyworld, gate id, condition and world state, [evaluate] and
    [evaluateCondition] return the same boolean for any two [agentId]
    arguments (present or omitted); in particular the gate-filtered choices
    of an encounter are the same for any two agents. *)
Theorem evaluate_agent_independent (sw : Storyworld V) (ws : WorldState V)
    (a1 a2 : option string) :
  (forall gateId, evaluate sw gateId ws a1 = evaluate sw gateId ws a2) /\
  (forall c, evaluateCondition c ws a1 = evaluateCondition c ws a2) /\
  (forall encounter (a b : string),
     getAvailableChoices sw encounter ws a = getAvailableChoices sw encounter ws b).
Proof.
  split; [apply evaluate_agent|]. split; [apply evaluateCondition_agent|].
  intros encounter a b. unfold getAvailableChoices.
  apply filter_ext. intros choice.
  destruct (gateId choice) as [g|]; [|reflexivity].
  destruct (negb (truthy (Some g))); [reflexivity|].
  apply evaluate_agent.
Qed.

(** C3, as the code has it.  A condition whose operator is not one of the
    defined operators, and a [NOT] condition whose child list is missing or
    empty, evaluate to [true]: the evaluator has no failure result, its
    [default] case and the negation of an absent child both yield [true]. *)
Theorem malformed_condition_is_open (c : GateCondition V) (ws : WorldState V)
    (agentId : option string) :
  malformed c -> evaluateCondition c ws agentId = true.
Proof.
  destruct c as [op var val ch].
  unfold malformed. cbn [operator children].
  intros [Hunknown | [-> Hch]].
  - unfold knownOperator in Hunknown. cbn [existsb] in Hunknown.
    repeat (apply orb_false_elim in Hunknown as [? Hunknown]).
    cbn [evaluateCondition operator].
    repeat match goal with
           | Hop : String.eqb op ?k = false |- context [String.eqb op ?k] =>
               rewrite Hop
           end.
    reflexivity.
  - cbn [evaluateCondition operator children]. cbn.
    destruct Hch as [-> | ->]; reflexivity.
Qed.

Lemma applyMutation_frame (ws ws' : WorldState V) mutation actor :
  applyMutation ws mutation actor = Some ws' ->
  frame ws' = frame ws /\ spoolProgress ws' = spoolProgress ws.
Proof.
  unfold applyMutation.
  destruct (getVariable ws _); [|intros [= <-]; now split].
  destruct (mutatedValue _ _ _); [|discriminate].
  intros [= <-]. now split.
Qed.

Lemma putFirstWorldState_sameFrames (s : Engine V) (ws ws' : WorldState V) :
  firstWorldState s = Some ws -> frame ws' = frame ws ->
  sameFrames s (putFirstWorldState ws' s).
Proof.
  intros Hws Hframe. split.
  - unfold putFirstWorldState. now destruct (head _).
  - eapply framesOf_put; eassumption.
Qed.

(** A write to the first world state followed by an event. *)
Lemma put_then_emit_sameFrames (s : Engine V) (ws ws' : WorldState V)
    cat ty pl actor target r s' :
  firstWorldState s = Some ws -> frame ws' = frame ws ->
  (modify (putFirstWorldState ws') ;;; emitEvent uuid now cat ty pl actor target) s = (r, s') ->
  sameFrames s s'.
Proof.
  intros Hws Hframe [= _ <-].
  destruct (putFirstWorldState_sameFrames s ws ws' Hws Hframe) as [H1 H2].
  split; [exact H1 | exact H2].
Qed.

Lemma applyOne_sameFrames agentId mutation :
  preserves (@sameFrames V) (applyOne uuid now agentId mutation).
Proof.
  intros s r s'. unfold applyOne, bind at 1, get.
  destruct (firstWorldState s) as [ws|] eqn:Hws.
  - destruct (applyMutation ws mutation agentId) as [ws'|] eqn:Hmut.
    + apply put_then_emit_sameFrames with (ws := ws); [assumption|].
      now apply applyMutation_frame in Hmut.
    + intros [= _ <-]. apply sameFrames_refl.
  - intros [= _ <-]. apply sameFrames_refl.
Qed.

Lemma completeSpool_sameFrames agentId sid :
  preserves (@sameFrames V) (completeSpool uuid now agentId sid).
Proof.
  intros s r s'. unfold completeSpool, bind at 1, get.
  destruct (firstWorldState s) as [ws|] eqn:Hws.
  - apply put_then_emit_sameFrames with (ws := ws); [assumption | reflexivity].
  - intros [= _ <-]. apply sameFrames_refl.
Qed.

Lemma advanceToEncounter_sameFrames agentId eid :
  preserves (@sameFrames V) (advanceToEncounter uuid now agentId eid).
Proof.
  intros s r s'. unfold advanceToEncounter, bind at 1, get.
  destruct (firstWorldState s) as [ws|] eqn:Hws.
  - apply put_then_emit_sameFrames with (ws := ws); [assumption | reflexivity].
  - intros [= _ <-]. apply sameFrames_refl.
Qed.

Lemma enterSpool_sameFrames agentId sid :
  preserves (@sameFrames V) (enterSpool uuid now agentId sid).
Proof.
  intros s r s'. unfold enterSpool, bind at 1, get.
  destruct (firstStoryworld s) as [sw|]; [|intros [= _ <-]; apply sameFrames_refl].
  destruct (firstWorldState s) as [ws|] eqn:Hws;
    [|intros [= _ <-]; apply sameFrames_refl].
  destruct (find _ (spools sw)); [|intros [= _ <-]; apply sameFrames_refl].
  apply put_then_emit_sameFrames with (ws := ws); [assumption | reflexivity].
Qed.

Lemma recordChoice_sameFrames agentId entry :
  preserves (@sameFrames V) (recordChoice agentId entry).
Proof.
  intros s r s' [= _ <-]. destruct (sessionData s !! agentId); split; reflexivity.
Qed.

Ltac sameFrames_step :=
  lazymatch goal with
  | |- preserves _ (recordChoice _ _) => apply recordChoice_sameFrames
  | |- preserves _ (applyOne _ _ _ _) => apply applyOne_sameFrames
  | |- preserves _ (emitEvent _ _ _ _ _ _ _) => apply emitEvent_sameFrames
  | |- preserves _ (completeSpool _ _ _ _) => apply completeSpool_sameFrames
  | |- preserves _ (advanceToEncounter _ _ _ _) => apply advanceToEncounter_sameFrames
  | |- preserves _ (enterSpool _ _ _ _) => apply enterSpool_sameFrames
  | |- _ => preserves_step sameFrames_refl sameFrames_trans
  end.

Lemma processChoice_sameFrames agentId choiceId :
  preserves (@sameFrames V) (processChoice uuid now agentId choiceId).
Proof. unfold processChoice. repeat sameFrames_step. Qed.

Lemma buildAgentView_unchanged agentId (s s' : Engine V) r :
  buildAgentView agentId s = (r, s') -> s' = s.
Proof.
  unfold buildAgentView, bind, get.
  destruct (firstStoryworld s), (firstWorldState s); now intros [= _ <-].
Qed.

Lemma observeAgent_sameFrames views agent :
  preserves (@sameFrames V) (observeAgent uuid now views agent).
Proof.
  unfold observeAgent.
  repeat first
    [ lazymatch goal with
      | |- preserves _ (buildAgentView _) =>
          intros s r s' Hview; apply buildAgentView_unchanged in Hview as ->;
          apply sameFrames_refl
      end
    | sameFrames_step ].
Qed.

Lemma collectAction_sameFrames handler views actions slot :
  preserves (@sameFrames V) (collectAction uuid now handler views actions slot).
Proof.
  unfold collectAction. repeat sameFrames_step.
Qed.

Lemma resolveAction_sameFrames entry :
  preserves (@sameFrames V) (resolveAction uuid now entry).
Proof.
  unfold resolveAction.
  repeat first
    [ lazymatch goal with
      | |- preserves _ (processChoice _ _ _ _) => apply processChoice_sameFrames
      end
    | sameFrames_step ].
Qed.

Lemma complete_sameFrames reason :
  preserves (@sameFrames V) (complete uuid now reason).
Proof. intros s r s' [= _ <-]. split; reflexivity. Qed.

Lemma takeSnapshot_sameFrames :
  preserves (@sameFrames V) (takeSnapshot uuid now).
Proof. intros s r s' [= _ <-]. split; reflexivity. Qed.

Lemma transition_advances (s s' : Engine V) r :
  transition s = (r, s') ->
  r = Returned tt /\
  currentFrame (simulation s') = currentFrame (simulation s) + 1 /\
  framesOf s' = (fun f => f + 1) <$> framesOf s.
Proof.
  intros [= <- <-]. split; [reflexivity|]. split; [reflexivity|].
  unfold framesOf. cbn. rewrite <- !map_fmap_compose. reflexivity.
Qed.

Lemma bind_inv {A B} (c : M V A) (k : A -> M V B) s r s' :
  bind c k s = (r, s') ->
  (exists a s1, c s = (Returned a, s1) /\ k a s1 = (r, s')) \/
  (exists msg, c s = (Thrown msg, s') /\ r = Thrown msg).
Proof.
  unfold bind. destruct (c s) as [[a|msg] s1].
  - intros Hk. left. now exists a, s1.
  - intros [= <- <-]. right. now exists msg.
Qed.

(** Every call of [executeFrame] either returns, with the current frame and
    the frame of every loaded world state one higher, or throws and leaves
    them as they were. *)
Lemma executeFrame_step handler (s s' : Engine V) r :
  executeFrame uuid now handler s = (r, s') ->
  (r = Returned tt /\
   currentFrame (simulation s') = currentFrame (simulation s) + 1 /\
   framesOf s' = (fun f => f + 1) <$> framesOf s) \/
  ((exists msg, r = Thrown msg) /\ sameFrames s s').
Proof.
  unfold executeFrame, bind at 1, get.
  destruct (sim_status (simulation s));
    try (intros [= <- <-]; right; split; [eauto | apply sameFrames_refl]).
  intros Hrun.
  apply bind_inv in Hrun as [(views & s1 & Hobs & Hrun) | (msg & Hobs & ->)];
    [|right; split; [eauto|];
      eapply (preserves_foldM _ sameFrames_refl sameFrames_trans);
      [intros; apply observeAgent_sameFrames | exact Hobs]].
  assert (H01 : sameFrames s s1).
  { eapply (preserves_foldM _ sameFrames_refl sameFrames_trans);
      [intros; apply observeAgent_sameFrames | exact Hobs]. }
  apply bind_inv in Hrun as [(actions & s2 & Hact & Hrun) | (msg & Hact & ->)];
    [|right; split; [eauto|]; eapply sameFrames_trans; [exact H01|];
      eapply (preserves_foldM _ sameFrames_refl sameFrames_trans);
      [intros; apply collectAction_sameFrames | exact Hact]].
  assert (H12 : sameFrames s1 s2).
  { eapply (preserves_foldM _ sameFrames_refl sameFrames_trans);
      [intros; apply collectAction_sameFrames | exact Hact]. }
  apply bind_inv in Hrun as [([] & s3 & Hres & Hrun) | (msg & Hres & ->)];
    [|right; split; [eauto|];
      eapply sameFrames_trans; [exact H01|]; eapply sameFrames_trans; [exact H12|];
      eapply (preserves_forEach _ sameFrames_refl sameFrames_trans);
      [intros; apply resolveAction_sameFrames | exact Hres]].
  assert (H23 : sameFrames s2 s3).
  { eapply (preserves_forEach _ sameFrames_refl sameFrames_trans);
      [intros; apply resolveAction_sameFrames | exact Hres]. }
  assert (H03 : sameFrames s s3)
    by (eapply sameFrames_trans; [exact H01|];
        eapply sameFrames_trans; [exact H12 | exact H23]).
  destruct H03 as [Hcur Hfr].
  apply bind_inv in Hrun as [([] & s4 & Htr & Hrun) | (msg & Htr & _)];
    [|apply transition_advances in Htr as [? _]; discriminate].
  apply transition_advances in Htr as (_ & Hcur4 & Hfr4).
  unfold bind at 1, get in Hrun.
  assert (Hend : exists s5, sameFrames s4 s5 /\
            (if (0 <? snapshotInterval (config s5))
                && (Z.rem (currentFrame (simulation s5)) (snapshotInterval (config s5)) =? 0)
             then _ <- takeSnapshot uuid now ;; ret tt
             else ret tt) s5 = (r, s')).
  { destruct (currentFrame (simulation s4) >=? maxFrames (config s4)).
    - apply bind_inv in Hrun as [([] & s5 & Hc & Hrun) | (msg & Hc & _)];
        [|discriminate Hc].
      exists s5. split; [eapply complete_sameFrames; exact Hc | exact Hrun].
    - exists s4. split; [apply sameFrames_refl | exact Hrun]. }
  destruct Hend as (s5 & [Hcur5 Hfr5] & Hsnap).
  assert (Hlast : r = Returned tt /\ sameFrames s5 s').
  { destruct (_ && _).
    - injection Hsnap as <- <-. split; [reflexivity | split; reflexivity].
    - injection Hsnap as <- <-. split; [reflexivity | apply sameFrames_refl]. }
  destruct Hlast as [-> [Hcur' Hfr']].
  left. split; [reflexivity|]. split; congruence.
Qed.

Lemma frames_shift_zero (m : gmap string Z) : (fun f => f + Z.of_nat 0) <$> m = m.
Proof.
  apply map_eq. intros i. rewrite lookup_fmap.
  destruct (m !! i); cbn; [f_equal; lia | reflexivity].
Qed.

Lemma frames_shift_succ (m : gmap string Z) (n : nat) :
  (fun f => f + Z.of_nat n) <$> ((fun f => f + 1) <$> m)
  = (fun f => f + Z.of_nat (S n)) <$> m.
Proof.
  apply map_eq. intros i. rewrite !lookup_fmap.
  destruct (m !! i); cbn; [f_equal; lia | reflexivity].
Qed.

(** C2.  Frame monotonicity.  When every call of a sequence of
    [executeFrame] calls returns, the current-frame values observed after
    the calls are [f + 1, f + 2, ..., f + n] for the initial value [f]: each
    call adds exactly one, so no value is repeated and none decreases; and
    the frame counter of every loaded world state has advanced by one per
    call.  A single call is the sequence of length one. *)
Theorem executeFrame_frame_monotonic (handlers : list (AgentActionHandler V))
    (s s' : Engine V) :
  forEach (executeFrame uuid now) handlers s = (Returned tt, s') ->
  frameValues uuid now handlers s
    = map (fun k => currentFrame (simulation s) + Z.of_nat k) (seq 1 (length handlers)) /\
  currentFrame (simulation s')
    = currentFrame (simulation s) + Z.of_nat (length handlers) /\
  framesOf s' = (fun f => f + Z.of_nat (length handlers)) <$> framesOf s.
Proof.
  revert s. induction handlers as [|h hs IH]; intros s; cbn [forEach frameValues length].
  - intros [= <-]. split; [reflexivity|]. split; [cbn; lia|].
    symmetry. apply frames_shift_zero.
  - intros Hrun.
    apply bind_inv in Hrun as [([] & s1 & Hh & Hrest) | (msg & _ & Habs)];
      [|discriminate Habs].
    rewrite Hh. cbn [snd].
    destruct (executeFrame_step _ _ _ _ Hh) as [(_ & Hcur & Hfr) | [[msg Habs] _]];
      [|discriminate Habs].
    destruct (IH _ Hrest) as (Hvals & Hcur' & Hfr').
    split; [|split].
    + cbn [seq map]. f_equal; [rewrite Hcur; lia|].
      rewrite Hvals, <- (seq_shift (length hs) 1), map_map.
      apply map_ext. intros k. rewrite Hcur. lia.
    + rewrite Hcur', Hcur. lia.
    + rewrite Hfr', Hfr. apply frames_shift_succ.
Qed.

(** ** Choice resolution *)

Lemma worldOnly_refl (s : Engine V) : worldOnly s s.
Proof. repeat split. Qed.

Lemma worldOnly_trans (s1 s2 s3 : Engine V) :
  worldOnly s1 s2 -> worldOnly s2 s3 -> worldOnly s1 s3.
Proof. intros (?&?&?&?) (?&?&?&?). repeat split; congruence. Qed.

Lemma emitEvent_run (s : Engine V) cat ty pl actor target :
  emitEvent uuid now cat ty pl actor target s
  = (Returned tt, emitted (eventAt uuid now s cat ty pl actor target) s).
Proof. reflexivity. Qed.

Lemma emitEvent_worldOnly cat ty (pl : list (string * PayloadValue V)) actor target :
  preserves (@worldOnly V) (emitEvent uuid now cat ty pl actor target).
Proof. intros s r s' [= _ <-]. repeat split. Qed.

Lemma put_then_emit_worldOnly (s : Engine V) (ws' : WorldState V)
    cat ty pl actor target r s' :
  (modify (putFirstWorldState ws') ;;; emitEvent uuid now cat ty pl actor target) s = (r, s') ->
  worldOnly s s'.
Proof.
  intros [= _ <-]. unfold putFirstWorldState.
  destruct (head (storyworldIds (simulation s))); repeat split.
Qed.

Lemma applyOne_worldOnly agentId mutation :
  preserves (@worldOnly V) (applyOne uuid now agentId mutation).
Proof.
  intros s r s'. unfold applyOne, bind at 1, get.
  destruct (firstWorldState s) as [ws|].
  - destruct (applyMutation ws mutation agentId) as [ws'|].
    + apply put_then_emit_worldOnly.
    + intros [= _ <-]. apply worldOnly_refl.
  - intros [= _ <-]. apply worldOnly_refl.
Qed.

Lemma completeSpool_worldOnly agentId sid :
  preserves (@worldOnly V) (completeSpool uuid now agentId sid).
Proof.
  intros s r s'. unfold completeSpool, bind at 1, get.
  destruct (firstWorldState s) as [ws|].
  - apply put_then_emit_worldOnly.
  - intros [= _ <-]. apply worldOnly_refl.
Qed.

Lemma advanceToEncounter_worldOnly agentId eid :
  preserves (@worldOnly V) (advanceToEncounter uuid now agentId eid).
Proof.
  intros s r s'. unfold advanceToEncounter, bind at 1, get.
  destruct (firstWorldState s) as [ws|].
  - apply put_then_emit_worldOnly.
  - intros [= _ <-]. apply worldOnly_refl.
Qed.

Lemma enterSpool_worldOnly agentId sid :
  preserves (@worldOnly V) (enterSpool uuid now agentId sid).
Proof.
  intros s r s'. unfold enterSpool, bind at 1, get.
  destruct (firstStoryworld s) as [sw|]; [|intros [= _ <-]; apply worldOnly_refl].
  destruct (firstWorldState s) as [ws|]; [|intros [= _ <-]; apply worldOnly_refl].
  destruct (find _ (spools sw)); [|intros [= _ <-]; apply worldOnly_refl].
  apply put_then_emit_worldOnly.
Qed.

Ltac worldOnly_step :=
  lazymatch goal with
  | |- preserves _ (applyOne _ _ _ _) => apply applyOne_worldOnly
  | |- preserves _ (emitEvent _ _ _ _ _ _ _) => apply emitEvent_worldOnly
  | |- preserves _ (completeSpool _ _ _ _) => apply completeSpool_worldOnly
  | |- preserves _ (advanceToEncounter _ _ _ _) => apply advanceToEncounter_worldOnly
  | |- preserves _ (enterSpool _ _ _ _) => apply enterSpool_worldOnly
  | |- _ => preserves_step worldOnly_refl worldOnly_trans
  end.

(** What [processChoice] does after the ledger entry is recorded. *)
Lemma consequences_worldOnly agentId (foundChoice : Choice V) (foundEncounter : Encounter V) :
  preserves (@worldOnly V)
    (forEach (applyOne uuid now agentId) (mutations foundChoice) ;;;
     emitEvent uuid now NARRATIVE "CHOICE_MADE"
       [("encounterId", PString (enc_id foundEncounter));
        ("choiceId", PString (choice_id foundChoice));
        ("choiceText", PString (text foundChoice))]
       (Some agentId) None ;;;
     match isTerminal foundChoice with
     | Some true => completeSpool uuid now agentId (enc_spoolId foundEncounter)
     | _ =>
         if truthy (nextEncounterId foundChoice) then
           advanceToEncounter uuid now agentId (orElse (nextEncounterId foundChoice) "")
         else if truthy (nextSpoolId foundChoice) then
           enterSpool uuid now agentId (orElse (nextSpoolId foundChoice) "")
         else ret tt
     end).
Proof. repeat worldOnly_step. Qed.

(** *** Finding a choice *)

Lemma findChoice_None (encs : list (Encounter V)) (choiceId : string) :
  findChoice encs choiceId = None <->
  (forall enc c, In enc encs -> In c (choices enc) -> choice_id c <> choiceId).
Proof.
  induction encs as [|enc0 encs IH]; cbn [findChoice].
  - split; [intros _ enc c [] | reflexivity].
  - destruct (find _ (choices enc0)) as [c0|] eqn:Hfind.
    + split; [discriminate|]. intros Hnone. exfalso.
      apply find_some in Hfind as [Hin Heq].
      apply String.eqb_eq in Heq.
      exact (Hnone enc0 c0 (or_introl eq_refl) Hin Heq).
    + rewrite IH. split.
      * intros Hrest enc c [<- | Hin] Hc; [|now apply (Hrest enc c)].
        intros Heq. apply String.eqb_eq in Heq.
        now rewrite (find_none _ _ Hfind c Hc) in Heq.
      * intros Hall enc c Hin. apply Hall. now right.
Qed.

Lemma findChoice_Some (encs : list (Encounter V)) (choiceId : string) ch enc :
  findChoice encs choiceId = Some (ch, enc) ->
  In enc encs /\
  find (fun c => String.eqb (choice_id c) choiceId) (choices enc) = Some ch.
Proof.
  induction encs as [|enc0 encs IH]; cbn [findChoice]; [discriminate|].
  destruct (find _ (choices enc0)) as [c0|] eqn:Hfind.
  - intros [= <- <-]. split; [now left | exact Hfind].
  - intros Hrest. destruct (IH Hrest) as [Hin Hch]. split; [now right | exact Hch].
Qed.

(** C4.  Invalid-choice atomicity.  With the storyworld of the simulation
    loaded, a choice id that occurs in no encounter makes [processChoice]
    return after appending one [SYSTEM] event [INVALID_CHOICE], carrying the
    choice id and the agent as actor; the world states (hence every variable
    state and every spool progress), the session ledgers and the simulation
    record are unchanged. *)
Theorem processChoice_invalid_choice (agentId choiceId : string) (s : Engine V)
    (sw : Storyworld V) (ws : WorldState V) :
  firstStoryworld s = Some sw ->
  firstWorldState s = Some ws ->
  (forall enc c, In enc (encounters sw) -> In c (choices enc) -> choice_id c <> choiceId) ->
  exists e s',
    processChoice uuid now agentId choiceId s = (Returned tt, s') /\
    events s' = events s ++ [e] /\
    category e = SYSTEM /\ eventType e = "INVALID_CHOICE" /\
    actorId e = Some agentId /\ payload e = [("choiceId", PString choiceId)] /\
    worldStates s' = worldStates s /\
    sessionData s' = sessionData s /\
    simulation s' = simulation s /\
    storyworlds s' = storyworlds s.
Proof.
  intros Hsw Hws Habsent. apply findChoice_None in Habsent.
  unfold processChoice, bind at 1, get. rewrite Hsw, Hws, Habsent, emitEvent_run.
  eexists _, _. split; [reflexivity|]. repeat split.
Qed.

(** *** The choice ledger *)

Lemma findIndex_find {A} (p : A -> bool) (xs : list A) (x : A) :
  find p xs = Some x ->
  exists i : nat,
    findIndex p xs = Z.of_nat i /\ nth_error xs i = Some x /\ (i < length xs)%nat.
Proof.
  induction xs as [|y xs IH]; cbn [find findIndex]; [discriminate|].
  destruct (p y).
  - intros [= <-]. exists 0%nat. cbn. repeat split. lia.
  - intros Hfind. destruct (IH Hfind) as (i & Hi & Hnth & Hlt).
    exists (S i). rewrite Hi.
    destruct (Z.ltb_spec (Z.of_nat i) 0); [lia|].
    cbn [nth_error length]. repeat split; [lia | exact Hnth | lia].
Qed.

Lemma js_index_nat {A} (xs : list A) (i : nat) :
  js_index xs (Z.of_nat i) = nth_error xs i.
Proof.
  unfold js_index. destruct (Z.ltb_spec (Z.of_nat i) 0); [lia|].
  now rewrite Nat2Z.id.
Qed.

Lemma ledgerEntry_complete (sw : Storyworld V) (choiceId : string) atFrame ch enc :
  findChoice (encounters sw) choiceId = Some (ch, enc) ->
  entryComplete sw choiceId (ledgerEntry atFrame enc ch choiceId).
Proof.
  intros Hfound. exists ch, enc. split; [exact Hfound|].
  apply findChoice_Some in Hfound as [_ Hfind].
  destruct (findIndex_find _ _ _ Hfind) as (i & Hi & Hnth & Hlt).
  apply find_some in Hfind as [_ Hid]. apply String.eqb_eq in Hid.
  cbn [ledgerEntry se_encounterId se_availableChoices choiceIndex se_choiceId].
  rewrite Hi, js_index_nat, length_map.
  repeat split; try lia; try assumption.
  rewrite nth_error_map, Hnth. cbn. now rewrite Hid.
Qed.

Lemma ledger_worldOnly (s s' : Engine V) (agent : string) :
  worldOnly s s' -> ledger s' agent = ledger s agent.
Proof. intros (_ & _ & Hsd & _). unfold ledger. now rewrite Hsd. Qed.

Lemma recordChoice_ledger (s : Engine V) (agentId agent : string) entry :
  exists s1,
    recordChoice agentId entry s = (Returned tt, s1) /\
    ledger s1 agent
    = ledger s agent ++
      (if String.eqb agent agentId
       then match sessionData s !! agentId with Some _ => [entry] | None => [] end
       else []).
Proof.
  eexists. split; [reflexivity|].
  unfold ledger.
  destruct (String.eqb_spec agent agentId) as [-> | Hne].
  - destruct (sessionData s !! agentId) as [sd|] eqn:Hsd; cbn.
    + now rewrite lookup_insert_eq.
    + now rewrite Hsd.
  - destruct (sessionData s !! agentId) as [sd|]; cbn.
    + rewrite lookup_insert_ne by congruence. now rewrite app_nil_r.
    + now rewrite app_nil_r.
Qed.

(** C5.  Choice-sequence completeness.  Whatever [processChoice] adds to a
    ledger it adds at the end of the ledger of the choosing agent, and every
    added entry is complete: its encounter is the one owning the chosen
    choice, its [availableChoices] is the full ordered list of choice ids
    that encounter declares (no gate is consulted), its [choiceIndex] is a
    valid index into that list, and the element there is the chosen id.
    This holds whether the call returns or throws. *)
Theorem processChoice_ledger_complete (agentId choiceId : string)
    (s s' : Engine V) (r : Completion unit) :
  processChoice uuid now agentId choiceId s = (r, s') ->
  forall agent, exists added,
    ledger s' agent = ledger s agent ++ added /\
    forall e, In e added ->
      agent = agentId /\
      exists sw, firstStoryworld s = Some sw /\ entryComplete sw choiceId e.
Proof.
  intros Hrun agent.
  unfold processChoice, bind at 1, get in Hrun.
  destruct (firstStoryworld s) as [sw|] eqn:Hsw;
    [|injection Hrun as _ <-; exists []; split; [now rewrite app_nil_r | intros e []]].
  destruct (firstWorldState s) as [ws|] eqn:Hws;
    [|injection Hrun as _ <-; exists []; split; [now rewrite app_nil_r | intros e []]].
  destruct (findChoice (encounters sw) choiceId) as [[ch enc]|] eqn:Hfound.
  - apply bind_inv in Hrun as [([] & s1 & Hrec & Hrest) | (msg & Hrec & _)].
    + destruct (recordChoice_ledger s agentId agent
                  (ledgerEntry (currentFrame (simulation s)) enc ch choiceId))
        as (s1' & Hrec' & Hledger).
      rewrite Hrec in Hrec'. injection Hrec' as <-.
      apply consequences_worldOnly in Hrest.
      rewrite (ledger_worldOnly _ _ agent Hrest), Hledger.
      eexists. split; [reflexivity|].
      intros e He.
      destruct (String.eqb_spec agent agentId) as [Hsame | _]; [|destruct He].
      destruct (sessionData s !! agentId); [|destruct He].
      destruct He as [<- | []].
      split; [exact Hsame|]. exists sw. split; [reflexivity|].
      now apply ledgerEntry_complete.
    + discriminate Hrec.
  - apply emitEvent_worldOnly in Hrun.
    rewrite (ledger_worldOnly _ _ agent Hrun).
    exists []. split; [now rewrite app_nil_r | intros e []].
Qed.

(** *** Exact runs of the steps of [processChoice] *)

Lemma firstWorldState_put (s : Engine V) (ws ws' : WorldState V) :
  firstWorldState s = Some ws ->
  firstWorldState (putFirstWorldState ws' s) = Some ws'.
Proof.
  unfold firstWorldState, putFirstWorldState.
  destruct (head (storyworldIds (simulation s))) as [swid|] eqn:Hhead; [|discriminate].
  intros _. cbn. rewrite Hhead. apply lookup_insert_eq.
Qed.

Lemma firstStoryworld_worldOnly (s s' : Engine V) :
  worldOnly s s' -> firstStoryworld s' = firstStoryworld s.
Proof. intros (Hsim & Hsws & _). unfold firstStoryworld. now rewrite Hsim, Hsws. Qed.

Lemma applyMutations_keeps (ms : list (VariableMutation V)) actor :
  forall ws ws', applyMutations ws ms actor = Some ws' ->
  frame ws' = frame ws /\ spoolProgress ws' = spoolProgress ws.
Proof.
  induction ms as [|m ms IH]; intros ws ws'; cbn [applyMutations].
  - intros [= <-]. now split.
  - destruct (applyMutation ws m actor) as [ws1|] eqn:Hm; [|discriminate].
    intros Hrest. apply applyMutation_frame in Hm as [Hf Hp].
    destruct (IH _ _ Hrest) as [Hf' Hp']. split; congruence.
Qed.

Lemma applyOne_run (s : Engine V) (ws : WorldState V) agentId mutation :
  firstWorldState s = Some ws ->
  applyOne uuid now agentId mutation s
  = match applyMutation ws mutation agentId with
    | Some ws' =>
        (Returned tt,
         emitted
           (eventAt uuid now (putFirstWorldState ws' s) STATE "VARIABLE_CHANGED"
              [("variableId", PString (mut_variableId mutation));
               ("operation", PString (operation mutation));
               ("value", PUnknown (mut_value mutation))]
              (Some agentId) None)
           (putFirstWorldState ws' s))
    | None => (Thrown "TypeError", s)
    end.
Proof.
  intros Hws. unfold applyOne, bind at 1, get. rewrite Hws.
  destruct (applyMutation ws mutation agentId); reflexivity.
Qed.

(** The mutation loop: it returns exactly when no mutation throws, and then
    the first world state is the one [applyMutations] computes. *)
Lemma forEach_applyOne_run agentId (ms : list (VariableMutation V)) :
  forall (s : Engine V) (ws : WorldState V),
  firstWorldState s = Some ws ->
  exists r s',
    forEach (applyOne uuid now agentId) ms s = (r, s') /\
    match applyMutations ws ms agentId with
    | Some ws2 => r = Returned tt /\ firstWorldState s' = Some ws2
    | None => exists msg, r = Thrown msg
    end.
Proof.
  induction ms as [|m ms IH]; intros s ws Hws; cbn [forEach applyMutations].
  - exists (Returned tt), s. now repeat split.
  - unfold bind at 1. rewrite (applyOne_run s ws agentId m Hws).
    destruct (applyMutation ws m agentId) as [ws1|].
    + apply (IH _ ws1). apply (firstWorldState_put s ws ws1 Hws).
    + eexists _, _. split; [reflexivity | eauto].
Qed.

Lemma spools_put_same (ws : WorldState V) (agentId : string) progress :
  getAgentSpools (setAgentSpools ws agentId progress) agentId = progress.
Proof. unfold getAgentSpools, setAgentSpools. cbn. now rewrite lookup_insert_eq. Qed.

Lemma spools_put_other (ws : WorldState V) (agentId other : string) progress :
  other <> agentId ->
  getAgentSpools (setAgentSpools ws agentId progress) other = getAgentSpools ws other.
Proof.
  intros Hne. unfold getAgentSpools, setAgentSpools. cbn.
  now rewrite lookup_insert_ne by congruence.
Qed.

Lemma completeSpool_run (s : Engine V) (ws : WorldState V) agentId sid :
  firstWorldState s = Some ws ->
  exists e,
    completeSpool uuid now agentId sid s
    = (Returned tt,
       emitted e
         (putFirstWorldState
            (setAgentSpools ws agentId
               (map (fun p => if String.eqb (spoolId p) sid
                              then markCompleted (currentFrame (simulation s)) p
                              else p)
                  (getAgentSpools ws agentId))) s)) /\
    eventType e = "SPOOL_COMPLETED".
Proof.
  intros Hws. unfold completeSpool, bind at 1, get. rewrite Hws.
  unfold bind, modify. rewrite emitEvent_run.
  eexists. split; reflexivity.
Qed.

Lemma advanceToEncounter_run (s : Engine V) (ws : WorldState V) agentId eid :
  firstWorldState s = Some ws ->
  exists e,
    advanceToEncounter uuid now agentId eid s
    = (Returned tt,
       emitted e
         (putFirstWorldState
            (setAgentSpools ws agentId
               (map (fun p => if isACTIVE (status p)
                              then withCurrentEncounter eid p else p)
                  (getAgentSpools ws agentId))) s)) /\
    category e = NARRATIVE /\ eventType e = "ENCOUNTER_STARTED" /\
    actorId e = Some agentId /\ payload e = [("encounterId", PString eid)].
Proof.
  intros Hws. unfold advanceToEncounter, bind at 1, get. rewrite Hws.
  unfold bind, modify. rewrite emitEvent_run.
  eexists. split; [reflexivity|]. repeat split.
Qed.

Lemma enterSpool_run (s : Engine V) (sw : Storyworld V) (ws : WorldState V)
    agentId sid spool :
  firstStoryworld s = Some sw -> firstWorldState s = Some ws ->
  find (fun sp => String.eqb (spool_id sp) sid) (spools sw) = Some spool ->
  exists e,
    enterSpool uuid now agentId sid s
    = (Returned tt,
       emitted e
         (putFirstWorldState
            (setAgentSpools ws agentId
               (getAgentSpools ws agentId ++
                [{| spoolId := sid; sp_agentId := agentId; status := ACTIVE;
                    currentEncounterId := Some (entryEncounterId spool);
                    enteredAtFrame := currentFrame (simulation s);
                    completedAtFrame := None; choiceHistory := [] |}])) s)) /\
    eventType e = "SPOOL_ENTERED".
Proof.
  intros Hsw Hws Hfind. unfold enterSpool, bind at 1, get. rewrite Hsw, Hws, Hfind.
  unfold bind, modify. rewrite emitEvent_run.
  eexists. split; reflexivity.
Qed.

(** [processChoice] for a choice that exists, as the sequence of its steps. *)
Lemma processChoice_found (s : Engine V) (sw : Storyworld V) (ws : WorldState V)
    agentId choiceId ch enc :
  firstStoryworld s = Some sw -> firstWorldState s = Some ws ->
  findChoice (encounters sw) choiceId = Some (ch, enc) ->
  processChoice uuid now agentId choiceId s
  = (recordChoice agentId
       (ledgerEntry (currentFrame (simulation s)) enc ch choiceId) ;;;
     forEach (applyOne uuid now agentId) (mutations ch) ;;;
     emitEvent uuid now NARRATIVE "CHOICE_MADE"
       [("encounterId", PString (enc_id enc));
        ("choiceId", PString (choice_id ch));
        ("choiceText", PString (text ch))]
       (Some agentId) None ;;;
     match isTerminal ch with
     | Some true => completeSpool uuid now agentId (enc_spoolId enc)
     | _ =>
         if truthy (nextEncounterId ch) then
           advanceToEncounter uuid now agentId (orElse (nextEncounterId ch) "")
         else if truthy (nextSpoolId ch) then
           enterSpool uuid now agentId (orElse (nextSpoolId ch) "")
         else ret tt
     end) s.
Proof.
  intros Hsw Hws Hfound. unfold processChoice, bind at 1, get.
  now rewrite Hsw, Hws, Hfound.
Qed.

(** The state in which the narrative transition of a found choice starts:
    the ledger entry is recorded, the mutations are applied, and the
    simulation record and the spool progress are as before. *)
Lemma processChoice_before_transition (s : Engine V) (ws ws2 : WorldState V)
    agentId (entry : SequenceEntry) (ms : list (VariableMutation V)) cat ty pl actor target :
  firstWorldState s = Some ws ->
  applyMutations ws ms agentId = Some ws2 ->
  forall (k : M V unit),
  exists s3,
    (recordChoice agentId entry ;;;
     forEach (applyOne uuid now agentId) ms ;;;
     emitEvent uuid now cat ty pl actor target ;;; k) s = k s3 /\
    firstWorldState s3 = Some ws2 /\
    simulation s3 = simulation s /\
    storyworlds s3 = storyworlds s /\
    (forall agent,
       ledger s3 agent
       = ledger s agent ++
         (if String.eqb agent agentId
          then match sessionData s !! agentId with Some _ => [entry] | None => [] end
          else [])).
Proof.
  intros Hws Hms k.
  destruct (recordChoice_ledger s agentId agentId entry) as (s1 & Hrec & _).
  assert (Hws1 : firstWorldState s1 = Some ws).
  { injection Hrec as <-. destruct (sessionData s !! agentId); exact Hws. }
  assert (Hsim1 : simulation s1 = simulation s /\ storyworlds s1 = storyworlds s).
  { injection Hrec as <-. destruct (sessionData s !! agentId); now split. }
  destruct (forEach_applyOne_run agentId ms s1 ws Hws1) as (r & s2 & Hloop & Hres).
  rewrite Hms in Hres. destruct Hres as [-> Hws2].
  assert (Honly : worldOnly s1 s2).
  { eapply (preserves_forEach _ worldOnly_refl worldOnly_trans);
      [intros; apply applyOne_worldOnly | exact Hloop]. }
  destruct Honly as (Hsim2 & Hsws2 & Hsd2 & Hcfg2).
  exists (emitted (eventAt uuid now s2 cat ty pl actor target) s2).
  split; [|split; [|split; [|split]]].
  - unfold bind at 1. rewrite Hrec. unfold bind at 1. rewrite Hloop.
    unfold bind at 1. rewrite emitEvent_run. reflexivity.
  - exact Hws2.
  - change (simulation s2 = simulation s). rewrite Hsim2. apply Hsim1.
  - change (storyworlds s2 = storyworlds s). rewrite Hsws2. apply Hsim1.
  - intros agent.
    destruct (recordChoice_ledger s agentId agent entry) as (s1' & Hrec' & Hledger).
    rewrite Hrec in Hrec'. injection Hrec' as <-.
    rewrite <- Hledger. apply (ledger_worldOnly s1 _ agent).
    repeat split; assumption.
Qed.

Lemma after_put_and_emit (s : Engine V) (ws ws' : WorldState V) (e : SimulationEvent V) :
  firstWorldState s = Some ws ->
  firstWorldState (emitted e (putFirstWorldState ws' s)) = Some ws' /\
  (forall agent, ledger (emitted e (putFirstWorldState ws' s)) agent = ledger s agent) /\
  events (emitted e (putFirstWorldState ws' s)) = events s ++ [e].
Proof.
  intros Hws. split; [exact (firstWorldState_put s ws ws' Hws)|].
  unfold putFirstWorldState. destruct (head (storyworldIds (simulation s))); now split.
Qed.

Lemma getAgentSpools_same_progress (ws ws2 : WorldState V) (agent : string) :
  spoolProgress ws2 = spoolProgress ws ->
  getAgentSpools ws2 agent = getAgentSpools ws agent.
Proof. intros Heq. unfold getAgentSpools. now rewrite Heq. Qed.

(** C9, as the code has it.  [processChoice] applies every existing choice
    whose mutations do not throw.  With the
    storyworld loaded, whenever the submitted id is the id of a choice of
    some encounter, and no mutation of that choice throws a JavaScript
    [TypeError], the call returns with the choice recorded at the end of the
    agent's ledger (when the agent has one), the variables as left by
    applying all mutations of the choice in order, and the agent's spool
    progress as left by the choice's narrative transition.  No hypothesis
    concerns the choice's gate, the agent's current encounter or the spools
    the agent has entered: none of them is consulted. *)
Theorem processChoice_applies_any_existing_choice (agentId choiceId : string)
    (s : Engine V) (sw : Storyworld V) (ws ws2 : WorldState V)
    (ch : Choice V) (enc : Encounter V) :
  firstStoryworld s = Some sw ->
  firstWorldState s = Some ws ->
  findChoice (encounters sw) choiceId = Some (ch, enc) ->
  applyMutations ws (mutations ch) agentId = Some ws2 ->
  exists s' ws',
    processChoice uuid now agentId choiceId s = (Returned tt, s') /\
    ledger s' agentId
    = ledger s agentId ++
      match sessionData s !! agentId with
      | Some _ => [ledgerEntry (currentFrame (simulation s)) enc ch choiceId]
      | None => []
      end /\
    firstWorldState s' = Some ws' /\
    ws_variables ws' = ws_variables ws2 /\
    getAgentSpools ws' agentId
    = transitionSpools sw (currentFrame (simulation s)) agentId enc ch
        (getAgentSpools ws agentId).
Proof.
  intros Hsw Hws Hfound Hms.
  rewrite (processChoice_found s sw ws agentId choiceId ch enc Hsw Hws Hfound).
  match goal with
  | |- context [bind (emitEvent _ _ ?cat ?ty ?pl ?actor ?target) (fun _ => ?k)] =>
      destruct (processChoice_before_transition s ws ws2 agentId
                  (ledgerEntry (currentFrame (simulation s)) enc ch choiceId)
                  (mutations ch) cat ty pl actor target Hws Hms k)
        as (s3 & -> & Hws3 & Hsim3 & Hsws3 & Hledger)
  end.
  specialize (Hledger agentId). rewrite String.eqb_refl in Hledger.
  assert (Hsw3 : firstStoryworld s3 = Some sw)
    by (unfold firstStoryworld; now rewrite Hsim3, Hsws3).
  destruct (applyMutations_keeps _ _ _ _ Hms) as [_ Hprog].
  pose proof (getAgentSpools_same_progress ws ws2 agentId Hprog) as Hspools.
  unfold transitionSpools.
  destruct (isTerminal ch) as [[|]|].
  1: { destruct (completeSpool_run s3 ws2 agentId (enc_spoolId enc) Hws3) as (e & -> & _).
       destruct (after_put_and_emit s3 ws2
                   (setAgentSpools ws2 agentId
                      (map (fun p => if String.eqb (spoolId p) (enc_spoolId enc)
                                     then markCompleted (currentFrame (simulation s3)) p
                                     else p) (getAgentSpools ws2 agentId))) e Hws3)
         as (Hfirst & Hled & _).
       eexists _, _. split; [reflexivity|].
       split; [now rewrite Hled|]. split; [exact Hfirst|]. split; [reflexivity|].
       now rewrite spools_put_same, Hspools, Hsim3. }
  all: destruct (truthy (nextEncounterId ch)).
  all: try (
    destruct (advanceToEncounter_run s3 ws2 agentId
                (orElse (nextEncounterId ch) "") Hws3) as (e & -> & _);
    destruct (after_put_and_emit s3 ws2
                (setAgentSpools ws2 agentId
                   (map (fun p => if isACTIVE (status p)
                                  then withCurrentEncounter (orElse (nextEncounterId ch) "") p
                                  else p) (getAgentSpools ws2 agentId))) e Hws3)
      as (Hfirst & Hled & _);
    eexists _, _; split; [reflexivity|];
    split; [now rewrite Hled|]; split; [exact Hfirst|]; split; [reflexivity|];
    now rewrite spools_put_same, Hspools).
  all: destruct (truthy (nextSpoolId ch)).
  all: try (eexists _, _; split; [reflexivity|];
            split; [exact Hledger|]; split; [exact Hws3|]; split; [reflexivity|];
            exact Hspools).
  all: destruct (find (fun sp => String.eqb (spool_id sp) (orElse (nextSpoolId ch) ""))
                   (spools sw)) as [spool|] eqn:Hfind.
  all: try (
    destruct (enterSpool_run s3 sw ws2 agentId (orElse (nextSpoolId ch) "") spool
                Hsw3 Hws3 Hfind) as (e & -> & _);
    destruct (after_put_and_emit s3 ws2
                (setAgentSpools ws2 agentId
                   (getAgentSpools ws2 agentId ++
                    [{| spoolId := orElse (nextSpoolId ch) ""; sp_agentId := agentId;
                        status := ACTIVE;
                        currentEncounterId := Some (entryEncounterId spool);
                        enteredAtFrame := currentFrame (simulation s3);
                        completedAtFrame := None; choiceHistory := [] |}])) e Hws3)
      as (Hfirst & Hled & _);
    eexists _, _; split; [reflexivity|];
    split; [now rewrite Hled|]; split; [exact Hfirst|]; split; [reflexivity|];
    now rewrite spools_put_same, Hspools, Hsim3).
  all: unfold enterSpool, bind at 1, get; rewrite Hsw3, Hws3, Hfind.
  all: eexists _, _; split; [reflexivity|];
       split; [exact Hledger|]; split; [exact Hws3|]; split; [reflexivity|];
       exact Hspools.
Qed.

Lemma processChoice_throws (s : Engine V) (sw : Storyworld V) (ws : WorldState V)
    agentId choiceId ch enc :
  firstStoryworld s = Some sw -> firstWorldState s = Some ws ->
  findChoice (encounters sw) choiceId = Some (ch, enc) ->
  applyMutations ws (mutations ch) agentId = None ->
  exists msg s', processChoice uuid now agentId choiceId s = (Thrown msg, s').
Proof.
  intros Hsw Hws Hfound Hms.
  rewrite (processChoice_found s sw ws agentId choiceId ch enc Hsw Hws Hfound).
  destruct (recordChoice_ledger s agentId agentId
              (ledgerEntry (currentFrame (simulation s)) enc ch choiceId))
    as (s1 & Hrec & _).
  assert (Hws1 : firstWorldState s1 = Some ws).
  { injection Hrec as <-. destruct (sessionData s !! agentId); exact Hws. }
  destruct (forEach_applyOne_run agentId (mutations ch) s1 ws Hws1)
    as (r & s2 & Hloop & Hres).
  rewrite Hms in Hres. destruct Hres as [msg ->].
  exists msg, s2.
  unfold bind at 1. rewrite Hrec. unfold bind at 1. now rewrite Hloop.
Qed.

(** C7, as the code has it.  When a resolved choice is not terminal and
    names a next-encounter id, every [ACTIVE] entry of the agent's progress
    list has its current-encounter id set to that id, the entries that are
    not [ACTIVE] and the progress lists of the other agents are unchanged,
    and the last event emitted is the agent's [ENCOUNTER_STARTED] for that
    id. *)
Theorem next_encounter_moves_every_active_entry (agentId choiceId : string)
    (s s' : Engine V) (sw : Storyworld V) (ws : WorldState V)
    (ch : Choice V) (enc : Encounter V) (encounterId : string) :
  firstStoryworld s = Some sw ->
  firstWorldState s = Some ws ->
  findChoice (encounters sw) choiceId = Some (ch, enc) ->
  isTerminal ch <> Some true ->
  nextEncounterId ch = Some encounterId ->
  encounterId <> "" ->
  processChoice uuid now agentId choiceId s = (Returned tt, s') ->
  exists ws' e earlier,
    firstWorldState s' = Some ws' /\
    getAgentSpools ws' agentId
    = advanceEveryActive encounterId (getAgentSpools ws agentId) /\
    (forall other, other <> agentId ->
       getAgentSpools ws' other = getAgentSpools ws other) /\
    events s' = earlier ++ [e] /\
    category e = NARRATIVE /\ eventType e = "ENCOUNTER_STARTED" /\
    actorId e = Some agentId /\ payload e = [("encounterId", PString encounterId)].
Proof.
  intros Hsw Hws Hfound Hterm Hnext Hne Hrun.
  destruct (applyMutations ws (mutations ch) agentId) as [ws2|] eqn:Hms.
  2: { destruct (processChoice_throws s sw ws agentId choiceId ch enc Hsw Hws Hfound Hms)
         as (msg & s2 & Hthrown).
       rewrite Hthrown in Hrun. discriminate Hrun. }
  rewrite (processChoice_found s sw ws agentId choiceId ch enc Hsw Hws Hfound) in Hrun.
  match type of Hrun with
  | context [bind (emitEvent _ _ ?cat ?ty ?pl ?actor ?target) (fun _ => ?k)] =>
      destruct (processChoice_before_transition s ws ws2 agentId
                  (ledgerEntry (currentFrame (simulation s)) enc ch choiceId)
                  (mutations ch) cat ty pl actor target Hws Hms k)
        as (s3 & Hk & Hws3 & _)
  end.
  rewrite Hk in Hrun. clear Hk.
  assert (Htruthy : truthy (nextEncounterId ch) = true).
  { rewrite Hnext. cbn. now destruct (String.eqb_spec encounterId ""). }
  rewrite Htruthy, Hnext in Hrun. cbn [orElse] in Hrun.
  assert (Hadv : advanceToEncounter uuid now agentId encounterId s3 = (Returned tt, s')).
  { destruct (isTerminal ch) as [[|]|]; [now contradict Hterm | exact Hrun | exact Hrun]. }
  destruct (advanceToEncounter_run s3 ws2 agentId encounterId Hws3)
    as (e & Hadv' & Hcat & Hty & Hactor & Hpl).
  rewrite Hadv' in Hadv. injection Hadv as <-.
  destruct (applyMutations_keeps _ _ _ _ Hms) as [_ Hprog].
  destruct (after_put_and_emit s3 ws2
              (setAgentSpools ws2 agentId
                 (map (fun p => if isACTIVE (status p)
                                then withCurrentEncounter encounterId p else p)
                    (getAgentSpools ws2 agentId))) e Hws3)
    as (Hfirst & _ & Hevents).
  eexists _, e, (events s3). split; [exact Hfirst|].
  split; [rewrite spools_put_same;
          now rewrite (getAgentSpools_same_progress ws ws2 agentId Hprog)|].
  split; [intros other Hother; rewrite spools_put_other by exact Hother;
          apply getAgentSpools_same_progress, Hprog|].
  split; [exact Hevents|]. now repeat split.
Qed.

(** ** Session export *)

Lemma outcomesFrom_uuidCalls (s : Engine V) (m n : nat) agentList :
  outcomesFrom uuid (set_uuidCalls m s) n agentList = outcomesFrom uuid s n agentList.
Proof.
  revert n. induction agentList as [|agent rest IH]; intros n; cbn [outcomesFrom].
  - reflexivity.
  - change (sessionData (set_uuidCalls m s)) with (sessionData s).
    destruct (sessionData s !! agent_id agent); [|apply IH].
    rewrite IH. reflexivity.
Qed.

Lemma outcomesFrom_shape (s : Engine V) (m n : nat) agentList :
  map withoutSessionId (outcomesFrom uuid s m agentList)
  = map withoutSessionId (outcomesFrom uuid s n agentList).
Proof.
  revert m n. induction agentList as [|agent rest IH]; intros m n; cbn [outcomesFrom].
  - reflexivity.
  - destruct (sessionData s !! agent_id agent); [|apply IH].
    cbn [map]. f_equal. apply IH.
Qed.

Lemma outcomesFrom_ids (s : Engine V) (n : nat) agentList :
  map sessionId (outcomesFrom uuid s n agentList)
  = map uuid (seq n (length (outcomesFrom uuid s n agentList))).
Proof.
  revert n. induction agentList as [|agent rest IH]; intros n; cbn [outcomesFrom].
  - reflexivity.
  - destruct (sessionData s !! agent_id agent); [|apply IH].
    cbn [map length seq sessionId]. f_equal. apply IH.
Qed.

Lemma outcomesFrom_length (s : Engine V) (m n : nat) agentList :
  length (outcomesFrom uuid s m agentList) = length (outcomesFrom uuid s n agentList).
Proof.
  rewrite <- (length_map withoutSessionId), (outcomesFrom_shape s m n).
  apply length_map.
Qed.

Lemma set_uuidCalls_same (s : Engine V) : set_uuidCalls (uuidCalls s) s = s.
Proof. now destruct s. Qed.

(** The loop of [exportSessionOutcomes], started with [acc] collected. *)
Lemma export_loop (s : Engine V) agentList :
  forall (n : nat) (acc : list (SessionOutcome V)),
  foldM
    (fun (outcomes : list (SessionOutcome V)) agent =>
       s <- get ;;
       match sessionData s !! agent_id agent with
       | None => ret outcomes
       | Some sd =>
           let worldState := firstWorldState s in
           let agentSpools :=
             match worldState with
             | Some ws => getAgentSpools ws (agent_id agent)
             | None => []
             end in
           sid <- freshUuid uuid ;;
           ret (app outcomes
                [{| sessionId := sid;
                    so_agentId := agent_id agent;
                    so_simulationId := sim_id (simulation s);
                    so_storyworldId := head (storyworldIds (simulation s));
                    so_startFrame := startFrame sd;
                    endFrame := currentFrame (simulation s);
                    totalChoices := Z.of_nat (length (sd_choices sd));
                    spoolsEntered := map spoolId agentSpools;
                    spoolsCompleted :=
                      map spoolId
                        (List.filter (fun p => isCOMPLETED (status p)) agentSpools);
                    endingsReached := [];
                    finalVariableState :=
                      match worldState with
                      | Some ws => getAllVariables ws
                      | None => []
                      end;
                    choiceSequence := sd_choices sd |}])
       end)
    agentList acc (set_uuidCalls n s)
  = (Returned (acc ++ outcomesFrom uuid s n agentList),
     set_uuidCalls (n + length (outcomesFrom uuid s n agentList)) s).
Proof.
  induction agentList as [|agent rest IH]; intros n acc; cbn [foldM outcomesFrom].
  - cbn. now rewrite app_nil_r, Nat.add_0_r.
  - unfold bind at 1, bind at 1, get.
    change (sessionData (set_uuidCalls n s)) with (sessionData s).
    destruct (sessionData s !! agent_id agent) as [sd|].
    + unfold bind at 1, freshUuid, ret at 1.
      change (tick_uuid (set_uuidCalls n s)) with (set_uuidCalls (S n) s).
      rewrite IH. cbn [length]. rewrite <- app_assoc, Nat.add_succ_r. reflexivity.
    + unfold ret at 1. apply IH.
Qed.

Lemma exportSessionOutcomes_run (s : Engine V) :
  exportSessionOutcomes uuid s
  = (Returned (outcomesFrom uuid s (uuidCalls s) (agents (simulation s))),
     set_uuidCalls
       (uuidCalls s + length (outcomesFrom uuid s (uuidCalls s) (agents (simulation s)))) s).
Proof.
  unfold exportSessionOutcomes, bind at 1, get.
  pose proof (export_loop s (agents (simulation s)) (uuidCalls s) []) as Hloop.
  rewrite set_uuidCalls_same in Hloop. exact Hloop.
Qed.

Lemma outcomesFrom_first_id (s : Engine V) (n : nat) agentList :
  outcomesFrom uuid s n agentList <> [] ->
  option_map sessionId (head (outcomesFrom uuid s n agentList)) = Some (uuid n).
Proof.
  induction agentList as [|agent rest IH]; cbn [outcomesFrom].
  - intros Hne. now contradict Hne.
  - destruct (sessionData s !! agent_id agent); [reflexivity | exact IH].
Qed.

(** C6, as the code has it.  Two calls of [exportSessionOutcomes] with
    nothing in between both return; the two lists have the same length and
    agree outcome by outcome in every field except [sessionId]; each
    [sessionId] is a fresh [uuid()], the first call using the next ids of
    the generator and the second the ids after those; and the calls change
    nothing in the engine but the number of ids drawn.  So the two lists
    are both empty or both not, and when they are not empty they differ as
    soon as the first id of the second call differs from the first id of
    the first, which holds for a generator that does not repeat an id. *)
Theorem export_twice_differs_in_session_ids_only (s : Engine V) :
  exists out1 out2 : list (SessionOutcome V),
    let s1 := set_uuidCalls (uuidCalls s + length out1) s in
    exportSessionOutcomes uuid s = (Returned out1, s1) /\
    exportSessionOutcomes uuid s1
    = (Returned out2, set_uuidCalls (uuidCalls s + length out1 + length out2) s) /\
    length out1 = length out2 /\
    map withoutSessionId out1 = map withoutSessionId out2 /\
    map sessionId out1 = map uuid (seq (uuidCalls s) (length out1)) /\
    map sessionId out2 = map uuid (seq (uuidCalls s + length out1) (length out2)) /\
    (out1 = [] <-> out2 = []) /\
    (out1 <> [] ->
     uuid (uuidCalls s) <> uuid (uuidCalls s + length out1) ->
     out1 <> out2).
Proof.
  set (k := length (outcomesFrom uuid s (uuidCalls s) (agents (simulation s)))).
  exists (outcomesFrom uuid s (uuidCalls s) (agents (simulation s))),
         (outcomesFrom uuid s (uuidCalls s + k) (agents (simulation s))).
  cbn zeta. fold k.
  pose proof (outcomesFrom_length s (uuidCalls s) (uuidCalls s + k)
                (agents (simulation s))) as Hlen.
  split; [apply exportSessionOutcomes_run|].
  split.
  { rewrite exportSessionOutcomes_run.
    change (uuidCalls (set_uuidCalls (uuidCalls s + k) s)) with (uuidCalls s + k)%nat.
    change (simulation (set_uuidCalls (uuidCalls s + k) s)) with (simulation s).
    rewrite outcomesFrom_uuidCalls. reflexivity. }
  split; [exact Hlen|].
  split; [apply outcomesFrom_shape|].
  split; [apply outcomesFrom_ids|].
  split; [apply outcomesFrom_ids|].
  split.
  - split; intros Hnil; apply length_zero_iff_nil;
      [rewrite <- Hlen | rewrite Hlen]; now rewrite Hnil.
  - intros Hne Hfresh Heq.
    pose proof (outcomesFrom_first_id s (uuidCalls s) _ Hne) as Hfirst.
    rewrite Heq in Hne, Hfirst.
    rewrite (outcomesFrom_first_id s (uuidCalls s + k) _ Hne) in Hfirst.
    injection Hfirst as Hfirst. now apply Hfresh.
Qed.

(** ** Agent views *)

Lemma getVisibleVariables_scope (sw : Storyworld V) (agentId : string)
    (ws : WorldState V) (v : VariableState V) :
  In v (getVisibleVariables sw agentId ws) ->
  In v (getAllVariables ws) /\
  exists varDef,
    find (fun vd => String.eqb (var_id vd) (variableId v)) (variables sw) = Some varDef /\
    (var_scope varDef = "GLOBAL" \/ var_scope varDef = "AGENT").
Proof.
  unfold getVisibleVariables. intros Hin.
  apply filter_In in Hin as [Hall Hkeep]. split; [exact Hall|].
  destruct (find _ (variables sw)) as [varDef|]; [|discriminate].
  exists varDef. split; [reflexivity|].
  apply orb_true_iff in Hkeep as [Hg | Ha]; [left | right]; now apply String.eqb_eq.
Qed.

Lemma slice_last_In {A} (n : nat) (xs : list A) (x : A) :
  In x (slice_last n xs) -> In x xs.
Proof.
  unfold slice_last. intros Hin.
  rewrite <- (firstn_skipn (length xs - n) xs). apply in_or_app. now right.
Qed.

Lemma falsy_cases (o : option string) :
  negb (truthy o) = true <-> o = None \/ o = Some "".
Proof.
  destruct o as [t|]; cbn.
  - rewrite negb_involutive. split.
    + intros Heq. apply String.eqb_eq in Heq. right. now subst.
    + intros [Hnone | [= ->]]; [discriminate | reflexivity].
  - split; [now left | reflexivity].
Qed.

Lemma opt_is_true (o : option string) (t : string) : opt_is o t = true <-> o = Some t.
Proof.
  destruct o as [u|]; cbn.
  - rewrite String.eqb_eq. split; [now intros -> | now intros [= ->]].
  - split; discriminate.
Qed.

Lemma ownOrGlobal_cases (agentId : string) (e : NarrativeEvent) :
  ownOrGlobal agentId e = true <->
  ne_agentId e = Some agentId \/ ne_agentId e = None \/ ne_agentId e = Some "".
Proof.
  unfold ownOrGlobal. now rewrite orb_true_iff, opt_is_true, falsy_cases.
Qed.

Lemma actedOrSystem_cases (agentId : string) (e : SimulationEvent V) :
  actedOrSystem agentId e = true <->
  actorId e = Some agentId \/ actorId e = None \/ actorId e = Some "".
Proof.
  unfold actedOrSystem. now rewrite orb_true_iff, opt_is_true, falsy_cases.
Qed.

Lemma buildRecentHistory_sources (agentId : string) (evs : list NarrativeEvent)
    (h : HistoryEntry) :
  In h (buildRecentHistory agentId evs) ->
  exists e, In e evs /\ h = historyEntry e /\ ownOrGlobal agentId e = true.
Proof.
  unfold buildRecentHistory. intros Hin.
  apply in_map_iff in Hin as (e & <- & He).
  apply slice_last_In, filter_In in He as [He Hown].
  now exists e.
Qed.

(** What the view of agent [agentId] is made of.  The visible variables
    are variable states of the world whose first declaration has scope
    [GLOBAL] or [AGENT]; the active spools are the agent's own progress
    list; and every entry of the recent history is made of an event of the
    log whose actor is the agent, or absent, or the empty string. *)
Lemma buildAgentView_sources (agentId : string) (s s' : Engine V) (view : AgentView V) :
  buildAgentView agentId s = (Returned view, s') ->
  exists sw ws,
    firstStoryworld s = Some sw /\ firstWorldState s = Some ws /\
    (forall v, In v (visibleVariables view) ->
       In v (getAllVariables ws) /\
       exists varDef,
         find (fun vd => String.eqb (var_id vd) (variableId v)) (variables sw)
         = Some varDef /\
         (var_scope varDef = "GLOBAL" \/ var_scope varDef = "AGENT")) /\
    activeSpools view = getAgentSpools ws agentId /\
    (forall h, In h (recentHistory view) ->
       exists e,
         In e (events s) /\ h = historyEntry (asNarrativeEvent e) /\
         (actorId e = Some agentId \/ actorId e = None \/ actorId e = Some "")).
Proof.
  unfold buildAgentView, bind, get.
  destruct (firstStoryworld s) as [sw|]; [|discriminate].
  destruct (firstWorldState s) as [ws|]; [|discriminate].
  intros [= <- _]. exists sw, ws. split; [reflexivity|]. split; [reflexivity|].
  cbn [buildView visibleVariables activeSpools recentHistory].
  split; [intros v; apply getVisibleVariables_scope|].
  split; [reflexivity|].
  intros h Hh.
  apply buildRecentHistory_sources in Hh as (ne & Hne & -> & _).
  apply in_map_iff in Hne as (e & <- & He).
  apply slice_last_In, filter_In in He as [He Hacted].
  exists e. split; [exact He|]. split; [reflexivity|].
  now apply actedOrSystem_cases.
Qed.

(** The current encounter does not depend on the status of the entries. *)
Lemma getCurrentEncounter_status (sw : Storyworld V) (agentId : string)
    (f : SpoolProgress -> SpoolProgress) (progress : list SpoolProgress) :
  (forall p, currentEncounterId (f p) = currentEncounterId p) ->
  getCurrentEncounter sw agentId (map f progress)
  = getCurrentEncounter sw agentId progress.
Proof.
  intros Hf. induction progress as [|p rest IH]; cbn [map getCurrentEncounter].
  - reflexivity.
  - rewrite Hf, IH. reflexivity.
Qed.

(** *** Progress entries stay with their agent *)

Lemma ownedStep_refl (s : Engine V) : ownedStep s s.
Proof. now intros H. Qed.

Lemma ownedStep_trans (s1 s2 s3 : Engine V) :
  ownedStep s1 s2 -> ownedStep s2 s3 -> ownedStep s1 s3.
Proof. unfold ownedStep. auto. Qed.

Lemma ownedStep_same_worlds (s s' : Engine V) :
  worldStates s' = worldStates s -> ownedStep s s'.
Proof. intros Heq Hown swid ws agent p. rewrite Heq. apply Hown. Qed.

Lemma firstWorldState_lookup (s : Engine V) (ws : WorldState V) :
  firstWorldState s = Some ws ->
  exists swid, head (storyworldIds (simulation s)) = Some swid /\
               worldStates s !! swid = Some ws.
Proof.
  unfold firstWorldState.
  destruct (head (storyworldIds (simulation s))) as [swid|]; [|discriminate].
  intros Hws. now exists swid.
Qed.

Lemma progressOwned_put (s : Engine V) (ws' : WorldState V) :
  (forall agent p, In p (getAgentSpools ws' agent) -> sp_agentId p = agent) ->
  ownedStep s (putFirstWorldState ws' s).
Proof.
  intros Hnew Hown swid ws agent p. unfold putFirstWorldState.
  destruct (head (storyworldIds (simulation s))) as [first|]; [|apply Hown].
  cbn. destruct (decide (first = swid)) as [-> | Hne].
  - rewrite lookup_insert_eq. intros [= <-]. apply Hnew.
  - rewrite lookup_insert_ne by exact Hne. apply Hown.
Qed.

Lemma put_then_emit_owned (s : Engine V) (ws' : WorldState V)
    cat ty pl actor target r s' :
  (forall agent p, In p (getAgentSpools ws' agent) -> sp_agentId p = agent) ->
  (modify (putFirstWorldState ws') ;;; emitEvent uuid now cat ty pl actor target) s = (r, s') ->
  ownedStep s s'.
Proof.
  intros Hnew [= _ <-]. intros Hown.
  apply (progressOwned_put s ws' Hnew Hown).
Qed.

Lemma owned_first (s : Engine V) (ws : WorldState V) :
  progressOwned s -> firstWorldState s = Some ws ->
  forall agent p, In p (getAgentSpools ws agent) -> sp_agentId p = agent.
Proof.
  intros Hown Hws agent p.
  apply firstWorldState_lookup in Hws as (swid & _ & Hws). now apply (Hown swid).
Qed.

Lemma owned_after_update (ws : WorldState V) (agentId : string) progress :
  (forall agent p, In p (getAgentSpools ws agent) -> sp_agentId p = agent) ->
  (forall p, In p progress -> sp_agentId p = agentId) ->
  forall agent p,
    In p (getAgentSpools (setAgentSpools ws agentId progress) agent) ->
    sp_agentId p = agent.
Proof.
  intros Hold Hnew agent p.
  destruct (String.eqb_spec agent agentId) as [-> | Hne].
  - rewrite spools_put_same. apply Hnew.
  - rewrite spools_put_other by exact Hne. apply Hold.
Qed.

Lemma emitEvent_owned cat ty (pl : list (string * PayloadValue V)) actor target :
  preserves (@ownedStep V) (emitEvent uuid now cat ty pl actor target).
Proof. intros s r s' [= _ <-]. now apply ownedStep_same_worlds. Qed.

Lemma applyOne_owned agentId mutation :
  preserves (@ownedStep V) (applyOne uuid now agentId mutation).
Proof.
  intros s r s' Hrun Hown. revert Hrun. unfold applyOne, bind at 1, get.
  destruct (firstWorldState s) as [ws|] eqn:Hws; [|now intros [= _ <-]].
  destruct (applyMutation ws mutation agentId) as [ws'|] eqn:Hmut; [|now intros [= _ <-]].
  intros Hrun. refine (put_then_emit_owned s ws' _ _ _ _ _ _ _ _ Hrun Hown).
  intros agent p.
  apply applyMutation_frame in Hmut as [_ Hprog].
  rewrite (getAgentSpools_same_progress ws ws' agent Hprog).
  now apply (owned_first s ws).
Qed.

Lemma completeSpool_owned agentId sid :
  preserves (@ownedStep V) (completeSpool uuid now agentId sid).
Proof.
  intros s r s' Hrun Hown. revert Hrun. unfold completeSpool, bind at 1, get.
  destruct (firstWorldState s) as [ws|] eqn:Hws; [|now intros [= _ <-]].
  intros Hrun. refine (put_then_emit_owned s _ _ _ _ _ _ _ _ _ Hrun Hown).
  apply owned_after_update; [now apply (owned_first s ws)|].
  intros p Hp. apply in_map_iff in Hp as (q & <- & Hq).
  destruct (String.eqb (spoolId q) sid); exact (owned_first s ws Hown Hws agentId q Hq).
Qed.

Lemma advanceToEncounter_owned agentId eid :
  preserves (@ownedStep V) (advanceToEncounter uuid now agentId eid).
Proof.
  intros s r s' Hrun Hown. revert Hrun. unfold advanceToEncounter, bind at 1, get.
  destruct (firstWorldState s) as [ws|] eqn:Hws; [|now intros [= _ <-]].
  intros Hrun. refine (put_then_emit_owned s _ _ _ _ _ _ _ _ _ Hrun Hown).
  apply owned_after_update; [now apply (owned_first s ws)|].
  intros p Hp. apply in_map_iff in Hp as (q & <- & Hq).
  destruct (isACTIVE (status q)); exact (owned_first s ws Hown Hws agentId q Hq).
Qed.

Lemma enterSpool_owned agentId sid :
  preserves (@ownedStep V) (enterSpool uuid now agentId sid).
Proof.
  intros s r s' Hrun Hown. revert Hrun. unfold enterSpool, bind at 1, get.
  destruct (firstStoryworld s) as [sw|]; [|now intros [= _ <-]].
  destruct (firstWorldState s) as [ws|] eqn:Hws; [|now intros [= _ <-]].
  destruct (find _ (spools sw)) as [spool|]; [|now intros [= _ <-]].
  intros Hrun. refine (put_then_emit_owned s _ _ _ _ _ _ _ _ _ Hrun Hown).
  apply owned_after_update; [now apply (owned_first s ws)|].
  intros p Hp. apply in_app_or in Hp as [Hp | [<- | []]]; [|reflexivity].
  now apply (owned_first s ws Hown Hws).
Qed.

Lemma recordChoice_owned agentId entry :
  preserves (@ownedStep V) (recordChoice agentId entry).
Proof.
  intros s r s' [= _ <-]. apply ownedStep_same_worlds.
  now destruct (sessionData s !! agentId).
Qed.

Ltac owned_step :=
  lazymatch goal with
  | |- preserves _ (recordChoice _ _) => apply recordChoice_owned
  | |- preserves _ (applyOne _ _ _ _) => apply applyOne_owned
  | |- preserves _ (emitEvent _ _ _ _ _ _ _) => apply emitEvent_owned
  | |- preserves _ (completeSpool _ _ _ _) => apply completeSpool_owned
  | |- preserves _ (advanceToEncounter _ _ _ _) => apply advanceToEncounter_owned
  | |- preserves _ (enterSpool _ _ _ _) => apply enterSpool_owned
  | |- preserves _ (buildAgentView _) =>
      intros ? ? ? Hview; apply buildAgentView_unchanged in Hview as ->;
      apply ownedStep_refl
  | |- preserves _ (modify _) =>
      intros ? ? ? [= _ <-]; apply ownedStep_same_worlds; reflexivity
  | |- preserves _ (freshUuid _) =>
      intros ? ? ? [= _ <-]; apply ownedStep_same_worlds; reflexivity
  | |- preserves _ (newDate _) =>
      intros ? ? ? [= _ <-]; apply ownedStep_same_worlds; reflexivity
  | |- _ => preserves_step ownedStep_refl ownedStep_trans
  end.

Lemma processChoice_owned agentId choiceId :
  preserves (@ownedStep V) (processChoice uuid now agentId choiceId).
Proof. unfold processChoice. repeat owned_step. Qed.

Lemma transition_owned : preserves (@ownedStep V) transition.
Proof.
  intros s r s' [= _ <-] Hown swid ws agent p. cbn.
  rewrite lookup_fmap.
  destruct (worldStates s !! swid) as [ws0|] eqn:Hws0; [|discriminate].
  intros [= <-]. now apply (Hown swid ws0).
Qed.

Lemma executeFrame_owned handler :
  preserves (@ownedStep V) (executeFrame uuid now handler).
Proof.
  unfold executeFrame, observeAgent, collectAction, resolveAction,
    complete, takeSnapshot.
  repeat first
    [ lazymatch goal with
      | |- preserves _ (processChoice _ _ _ _) => apply processChoice_owned
      | |- preserves _ transition => apply transition_owned
      end
    | owned_step ].
Qed.

Lemma publicCall_owned (s s' : Engine V) :
  publicCall uuid now s s' -> ownedStep s s'.
Proof.
  intros [sw | name swIds agentSpecs expId | | handler | reason | ].
  - (* loadStoryworld *)
    intros Hown swid ws agent p. cbn.
    destruct (decide (sw_id sw = swid)) as [-> | Hne].
    + rewrite lookup_insert_eq. intros [= <-]. intros [].
    + rewrite lookup_insert_ne by exact Hne. apply Hown.
  - (* createSimulation *)
    assert (Hc : preserves (@ownedStep V)
                   (createSimulation uuid now name swIds agentSpecs expId))
      by (unfold createSimulation; repeat owned_step).
    eapply Hc. apply surjective_pairing.
  - (* start *)
    assert (Hc : preserves (@ownedStep V) (start uuid now))
      by (unfold start; repeat owned_step).
    eapply Hc. apply surjective_pairing.
  - eapply executeFrame_owned. apply surjective_pairing.
  - assert (Hc : preserves (@ownedStep V) (complete uuid now reason))
      by (unfold complete; repeat owned_step).
    eapply Hc. apply surjective_pairing.
  - rewrite exportSessionOutcomes_run. now apply ownedStep_same_worlds.
Qed.

(** In every reachable state, each progress entry is stored under the agent
    it names: an agent's progress list holds no entry of another agent. *)
Lemma reachable_progressOwned (s : Engine V) :
  reachable uuid now s -> progressOwned s.
Proof.
  induction 1 as [cfg | s s' _ IH Hcall].
  - intros swid ws agent p. cbn. now rewrite lookup_empty.
  - exact (publicCall_owned s s' Hcall IH).
Qed.

(** Isolation between agents with non-empty ids.  In a reachable state,
    the view built for agent [A] holds no progress entry of another agent
    [B], every entry of its recent history is made of an event whose actor
    is not [B], provided the id of [B] is not the empty string, and none of
    its variable states belongs to a variable declared (first) with scope
    [DYADIC] or [LOCAL]. *)
Lemma agent_view_isolation (A B : string) (s s' : Engine V) (view : AgentView V) :
  reachable uuid now s ->
  buildAgentView A s = (Returned view, s') ->
  B <> A -> B <> "" ->
  (forall p, In p (activeSpools view) -> sp_agentId p <> B) /\
  (forall h, In h (recentHistory view) ->
     exists e, In e (events s) /\ h = historyEntry (asNarrativeEvent e) /\
               actorId e <> Some B) /\
  (forall v, In v (visibleVariables view) ->
     forall sw varDef,
       firstStoryworld s = Some sw ->
       find (fun vd => String.eqb (var_id vd) (variableId v)) (variables sw)
       = Some varDef ->
       var_scope varDef <> "DYADIC" /\ var_scope varDef <> "LOCAL").
Proof.
  intros Hreach Hview HBA HB.
  apply reachable_progressOwned in Hreach.
  destruct (buildAgentView_sources A s s' view Hview)
    as (sw & ws & Hsw & Hws & Hvars & Hspools & Hhist).
  split; [|split].
  - intros p Hp. rewrite Hspools in Hp.
    rewrite (owned_first s ws Hreach Hws A p Hp). congruence.
  - intros h Hh. destruct (Hhist h Hh) as (e & He & -> & Hactor).
    exists e. split; [exact He|]. split; [reflexivity|].
    destruct Hactor as [-> | [-> | ->]]; congruence.
  - intros v Hv sw' varDef Hsw' Hfind.
    rewrite Hsw in Hsw'. injection Hsw' as <-.
    destruct (Hvars v Hv) as (_ & varDef' & Hfind' & Hscope).
    rewrite Hfind in Hfind'. injection Hfind' as <-.
    destruct Hscope as [-> | ->]; split; discriminate.
Qed.

(** ** The world state *)

(** *** Insertion-ordered maps *)

Lemma JSMap_get_set_same {A} (k : string) (v : A) (m : JSMap.t A) :
  JSMap.get k (JSMap.set k v m) = Some v.
Proof.
  unfold JSMap.get. induction m as [|[k' v'] m IH]; cbn.
  - now rewrite String.eqb_refl.
  - destruct (String.eqb_spec k' k) as [-> | Hne]; cbn.
    + now rewrite String.eqb_refl.
    + destruct (String.eqb_spec k' k); [contradiction | exact IH].
Qed.

Lemma JSMap_get_set_other {A} (k k0 : string) (v : A) (m : JSMap.t A) :
  k0 <> k -> JSMap.get k0 (JSMap.set k v m) = JSMap.get k0 m.
Proof.
  intros Hne. unfold JSMap.get. induction m as [|[k' v'] m IH]; cbn.
  - destruct (String.eqb_spec k k0); [congruence | reflexivity].
  - destruct (String.eqb_spec k' k) as [-> | Hne']; cbn.
    + destruct (String.eqb_spec k k0); [congruence | reflexivity].
    + destruct (String.eqb_spec k' k0); [reflexivity | exact IH].
Qed.

Lemma JSMap_get_None {A} (k : string) (m : JSMap.t A) :
  JSMap.get k m = None <-> ~ In k (map fst m).
Proof.
  unfold JSMap.get. induction m as [|[k' v'] m IH]; cbn.
  - tauto.
  - destruct (String.eqb_spec k' k) as [-> | Hne]; cbn.
    + split; [discriminate | intros H; contradict H; now left].
    + rewrite IH. tauto.
Qed.

Lemma JSMap_get_In {A} (k : string) (v : A) (m : JSMap.t A) :
  JSMap.get k m = Some v -> In (k, v) m.
Proof.
  unfold JSMap.get. induction m as [|[k' v'] m IH]; cbn; [discriminate|].
  destruct (String.eqb_spec k' k) as [-> | Hne]; cbn.
  - intros [= ->]. now left.
  - intros H. right. now apply IH.
Qed.

Lemma JSMap_keys_set_present {A} (k : string) (v : A) (m : JSMap.t A) :
  In k (map fst m) -> map fst (JSMap.set k v m) = map fst m.
Proof.
  induction m as [|[k' v'] m IH]; cbn; [intros []|].
  destruct (String.eqb_spec k' k) as [-> | Hne]; cbn; [reflexivity|].
  intros [Heq | Hin]; [contradiction|]. now rewrite IH.
Qed.

Lemma JSMap_keys_set_absent {A} (k : string) (v : A) (m : JSMap.t A) :
  ~ In k (map fst m) -> map fst (JSMap.set k v m) = map fst m ++ [k].
Proof.
  induction m as [|[k' v'] m IH]; cbn; [reflexivity|].
  intros Hnot. destruct (String.eqb_spec k' k) as [-> | Hne]; cbn.
  - contradict Hnot. now left.
  - rewrite IH; [reflexivity | tauto].
Qed.

Lemma JSMap_In_set {A} (k k0 : string) (v v0 : A) (m : JSMap.t A) :
  In (k0, v0) (JSMap.set k v m) -> (k0 = k /\ v0 = v) \/ In (k0, v0) m.
Proof.
  induction m as [|[k' v'] m IH]; cbn.
  - intros [[= <- <-] | []]. now left.
  - destruct (String.eqb_spec k' k) as [-> | Hne]; cbn.
    + intros [[= <- <-] | Hin]; [now left | right; now right].
    + intros [Heq | Hin]; [right; now left|].
      destruct (IH Hin) as [Hnew | Hold]; [now left | right; now right].
Qed.

Lemma JSMap_keys_In_set {A} (k k0 : string) (v : A) (m : JSMap.t A) :
  In k0 (map fst (JSMap.set k v m)) <-> k0 = k \/ In k0 (map fst m).
Proof.
  destruct (in_dec string_dec k (map fst m)) as [Hin | Hnot].
  - rewrite JSMap_keys_set_present by exact Hin.
    split; [tauto | intros [-> | H]; assumption].
  - rewrite JSMap_keys_set_absent by exact Hnot.
    rewrite in_app_iff. cbn. split; intros H; intuition (subst; auto).
Qed.

Lemma NoDup_snoc {A} (l : list A) (x : A) :
  List.NoDup l -> ~ In x l -> List.NoDup (l ++ [x]).
Proof.
  induction 1 as [|y l Hy Hnd IH]; cbn; intros Hnot.
  - repeat constructor. intros [].
  - constructor.
    + rewrite in_app_iff. cbn. intros [Hin | [-> | []]]; [contradiction | tauto].
    + apply IH. tauto.
Qed.

Lemma JSMap_NoDup_set {A} (k : string) (v : A) (m : JSMap.t A) :
  List.NoDup (map fst m) -> List.NoDup (map fst (JSMap.set k v m)).
Proof.
  intros Hnd. destruct (in_dec string_dec k (map fst m)) as [Hin | Hnot].
  - now rewrite JSMap_keys_set_present.
  - rewrite JSMap_keys_set_absent by exact Hnot. now apply NoDup_snoc.
Qed.

(** *** Initialisation *)

Lemma fold_variables_spec (vars : list (VariableDef V)) :
  let m := fold_left
    (fun m variable =>
       JSMap.set (var_id variable)
         {| variableId := var_id variable; value := var_defaultValue variable;
            lastModifiedFrame := 0; modifiedBy := None |} m)
    vars ([] : JSMap.t (VariableState V)) in
  List.NoDup (map fst m) /\
  (forall id, In id (map fst m) <-> In id (map var_id vars)) /\
  (forall k v, In (k, v) m -> variableId v = k /\ lastModifiedFrame v = 0) /\
  (forall id,
     JSMap.get id m
     = option_map initialState
         (find (fun vd => String.eqb (var_id vd) id) (rev vars))).
Proof.
  induction vars as [|x vars IH] using rev_ind; cbn zeta.
  - cbn. repeat split; try tauto; constructor.
  - rewrite fold_left_app. cbn [fold_left].
    cbn zeta in IH. destruct IH as (Hnd & Hkeys & Hkeyed & Hget).
    split; [now apply JSMap_NoDup_set|]. split; [|split].
    + intros id. rewrite JSMap_keys_In_set, Hkeys, map_app, in_app_iff. cbn.
      intuition (subst; auto).
    + intros k v Hin. apply JSMap_In_set in Hin as [[-> ->] | Hold];
        [now split | now apply Hkeyed].
    + intros id. rewrite rev_app_distr. cbn [rev app find].
      destruct (String.eqb_spec (var_id x) id) as [<- | Hne].
      * apply JSMap_get_set_same.
      * rewrite JSMap_get_set_other by congruence. apply Hget.
Qed.

(** X1.  A new world state has exactly one variable state per declared
    variable id: the ids of its states are the declared ids without
    repetition, a lookup succeeds exactly for a declared id, and it yields
    the default value of the last declaration of that id, stamped with frame
    0 and no modifier.  No agent has progress and the frame counter is 0. *)
Theorem newWorldState_one_state_per_variable (sw : Storyworld V) :
  let ws := newWorldState sw in
  List.NoDup (map variableId (getAllVariables ws)) /\
  (forall id, In id (map variableId (getAllVariables ws)) <->
              In id (map var_id (variables sw))) /\
  (forall id,
     getVariable ws id
     = option_map initialState
         (find (fun vd => String.eqb (var_id vd) id) (rev (variables sw)))) /\
  (forall agentId, getAgentSpools ws agentId = []) /\
  getCurrentFrame ws = 0.
Proof.
  cbn zeta.
  destruct (fold_variables_spec (variables sw)) as (Hnd & Hkeys & Hkeyed & Hget).
  assert (Hids : map variableId (getAllVariables (newWorldState sw))
                 = map fst (initializeVariables sw)).
  { unfold getAllVariables, JSMap.values. cbn [newWorldState ws_variables].
    rewrite map_map. apply map_ext_in. intros [k v] Hin.
    now destruct (Hkeyed k v Hin). }
  rewrite Hids. split; [exact Hnd|]. split; [exact Hkeys|]. split; [exact Hget|].
  split; [|reflexivity].
  intros agentId. unfold getAgentSpools. cbn. now rewrite lookup_empty.
Qed.

(** *** Mutations *)

(** X2.  A mutation that does not throw touches at most the variable it
    names.  The ids of the variable states and their order, every other
    variable state, the frame counter and the spool progress are unchanged.
    When the named variable has no state the world state is unchanged;
    otherwise its state holds the new value, the current frame of the world
    state as [lastModifiedFrame] and the acting agent as [modifiedBy]. *)
Theorem applyMutation_touches_one_variable (ws ws' : WorldState V)
    (mutation : VariableMutation V) (actorId : string) :
  applyMutation ws mutation actorId = Some ws' ->
  variableIds ws' = variableIds ws /\
  (forall other, other <> mut_variableId mutation ->
     getVariable ws' other = getVariable ws other) /\
  frame ws' = frame ws /\ spoolProgress ws' = spoolProgress ws /\
  ws_storyworld ws' = ws_storyworld ws /\
  match getVariable ws (mut_variableId mutation) with
  | None => ws' = ws
  | Some current =>
      exists newValue,
        mutatedValue (operation mutation) (value current) (mut_value mutation)
        = Some newValue /\
        getVariable ws' (mut_variableId mutation)
        = Some {| variableId := mut_variableId mutation;
                  value := newValue;
                  lastModifiedFrame := frame ws;
                  modifiedBy := Some actorId |}
  end.
Proof.
  unfold applyMutation.
  destruct (getVariable ws (mut_variableId mutation)) as [current|] eqn:Hget.
  - destruct (mutatedValue _ _ _) as [newValue|]; [|discriminate].
    intros [= <-]. unfold variableIds, getVariable. cbn [setVariable ws_variables].
    split; [|split; [|repeat split]].
    + apply JSMap_keys_set_present.
      destruct (in_dec string_dec (mut_variableId mutation) (map fst (ws_variables ws)))
        as [Hin | Hnot]; [exact Hin|].
      apply JSMap_get_None in Hnot. unfold getVariable in Hget. congruence.
    + intros other Hne. now apply JSMap_get_set_other.
    + exists newValue. split; [reflexivity | apply JSMap_get_set_same].
  - intros [= <-]. repeat split.
Qed.

(** *** Invariants of the world states of an engine *)

Section WorldInvariant.
Variable P : WorldState V -> Prop.
Hypothesis P_new : forall sw, P (newWorldState sw).
Hypothesis P_mutation :
  forall ws mutation actorId ws',
    P ws -> applyMutation ws mutation actorId = Some ws' -> P ws'.
Hypothesis P_frame : forall ws, P ws -> P (advanceFrame ws).
Hypothesis P_complete :
  forall ws agentId sid atFrame,
    P ws ->
    P (setAgentSpools ws agentId
         (map (fun p => if String.eqb (spoolId p) sid
                        then markCompleted atFrame p else p)
            (getAgentSpools ws agentId))).
Hypothesis P_advance :
  forall ws agentId encounterId,
    P ws ->
    P (setAgentSpools ws agentId
         (map (fun p => if isACTIVE (status p)
                        then withCurrentEncounter encounterId p else p)
            (getAgentSpools ws agentId))).
Hypothesis P_enter :
  forall ws agentId sid entry atFrame,
    P ws ->
    P (setAgentSpools ws agentId
         (getAgentSpools ws agentId ++
          [{| spoolId := sid; sp_agentId := agentId; status := ACTIVE;
              currentEncounterId := Some entry;
              enteredAtFrame := atFrame;
              completedAtFrame := None; choiceHistory := [] |}])).

Lemma keepsWorlds_refl (s : Engine V) : keepsWorlds P s s.
Proof. now intros H. Qed.

Lemma keepsWorlds_trans (s1 s2 s3 : Engine V) :
  keepsWorlds P s1 s2 -> keepsWorlds P s2 s3 -> keepsWorlds P s1 s3.
Proof. unfold keepsWorlds. auto. Qed.

Lemma keepsWorlds_same (s s' : Engine V) :
  worldStates s' = worldStates s -> keepsWorlds P s s'.
Proof. intros Heq Hall swid ws. rewrite Heq. apply Hall. Qed.

Lemma worldsSatisfy_first (s : Engine V) (ws : WorldState V) :
  worldsSatisfy P s -> firstWorldState s = Some ws -> P ws.
Proof.
  intros Hall Hws. apply firstWorldState_lookup in Hws as (swid & _ & Hws).
  exact (Hall swid ws Hws).
Qed.

Lemma put_then_emit_keeps (s : Engine V) (ws' : WorldState V)
    cat ty pl actor target r s' :
  P ws' ->
  (modify (putFirstWorldState ws') ;;; emitEvent uuid now cat ty pl actor target) s = (r, s') ->
  keepsWorlds P s s'.
Proof.
  intros Hnew [= _ <-] Hall swid ws. unfold putFirstWorldState.
  destruct (head (storyworldIds (simulation s))) as [first|]; [|apply Hall].
  cbn. destruct (decide (first = swid)) as [-> | Hne].
  - rewrite lookup_insert_eq. now intros [= <-].
  - rewrite lookup_insert_ne by exact Hne. apply Hall.
Qed.

Lemma applyOne_keeps agentId mutation :
  preserves (keepsWorlds P) (applyOne uuid now agentId mutation).
Proof.
  intros s r s' Hrun Hall. revert Hrun. unfold applyOne, bind at 1, get.
  destruct (firstWorldState s) as [ws|] eqn:Hws; [|now intros [= _ <-]].
  destruct (applyMutation ws mutation agentId) as [ws'|] eqn:Hmut; [|now intros [= _ <-]].
  intros Hrun. refine (put_then_emit_keeps s ws' _ _ _ _ _ _ _ _ Hrun Hall).
  exact (P_mutation ws mutation agentId ws' (worldsSatisfy_first s ws Hall Hws) Hmut).
Qed.

Lemma completeSpool_keeps agentId sid :
  preserves (keepsWorlds P) (completeSpool uuid now agentId sid).
Proof.
  intros s r s' Hrun Hall. revert Hrun. unfold completeSpool, bind at 1, get.
  destruct (firstWorldState s) as [ws|] eqn:Hws; [|now intros [= _ <-]].
  intros Hrun. refine (put_then_emit_keeps s _ _ _ _ _ _ _ _ _ Hrun Hall).
  apply P_complete. exact (worldsSatisfy_first s ws Hall Hws).
Qed.

Lemma advanceToEncounter_keeps agentId eid :
  preserves (keepsWorlds P) (advanceToEncounter uuid now agentId eid).
Proof.
  intros s r s' Hrun Hall. revert Hrun. unfold advanceToEncounter, bind at 1, get.
  destruct (firstWorldState s) as [ws|] eqn:Hws; [|now intros [= _ <-]].
  intros Hrun. refine (put_then_emit_keeps s _ _ _ _ _ _ _ _ _ Hrun Hall).
  apply P_advance. exact (worldsSatisfy_first s ws Hall Hws).
Qed.

Lemma enterSpool_keeps agentId sid :
  preserves (keepsWorlds P) (enterSpool uuid now agentId sid).
Proof.
  intros s r s' Hrun Hall. revert Hrun. unfold enterSpool, bind at 1, get.
  destruct (firstStoryworld s) as [sw|]; [|now intros [= _ <-]].
  destruct (firstWorldState s) as [ws|] eqn:Hws; [|now intros [= _ <-]].
  destruct (find _ (spools sw)) as [spool|]; [|now intros [= _ <-]].
  intros Hrun. refine (put_then_emit_keeps s _ _ _ _ _ _ _ _ _ Hrun Hall).
  apply P_enter. exact (worldsSatisfy_first s ws Hall Hws).
Qed.

Ltac keeps_step :=
  lazymatch goal with
  | |- preserves _ (applyOne _ _ _ _) => apply applyOne_keeps
  | |- preserves _ (completeSpool _ _ _ _) => apply completeSpool_keeps
  | |- preserves _ (advanceToEncounter _ _ _ _) => apply advanceToEncounter_keeps
  | |- preserves _ (enterSpool _ _ _ _) => apply enterSpool_keeps
  | |- preserves _ (emitEvent _ _ _ _ _ _ _) =>
      intros ? ? ? [= _ <-]; apply keepsWorlds_same; reflexivity
  | |- preserves _ (recordChoice _ _) =>
      let s := fresh "s" in
      intros s ? ? [= _ <-]; apply keepsWorlds_same;
      destruct (sessionData s !! _); reflexivity
  | |- preserves _ (buildAgentView _) =>
      intros ? ? ? Hview; apply buildAgentView_unchanged in Hview as ->;
      apply keepsWorlds_refl
  | |- preserves _ (modify _) =>
      intros ? ? ? [= _ <-]; apply keepsWorlds_same; reflexivity
  | |- preserves _ (freshUuid _) =>
      intros ? ? ? [= _ <-]; apply keepsWorlds_same; reflexivity
  | |- preserves _ (newDate _) =>
      intros ? ? ? [= _ <-]; apply keepsWorlds_same; reflexivity
  | |- _ => preserves_step keepsWorlds_refl keepsWorlds_trans
  end.

Lemma processChoice_keeps agentId choiceId :
  preserves (keepsWorlds P) (processChoice uuid now agentId choiceId).
Proof. unfold processChoice. repeat keeps_step. Qed.

Lemma transition_keeps : preserves (keepsWorlds P) transition.
Proof.
  intros s r s' [= _ <-] Hall swid ws. cbn. rewrite lookup_fmap.
  destruct (worldStates s !! swid) as [ws0|] eqn:Hws0; [|discriminate].
  intros [= <-]. apply P_frame. exact (Hall swid ws0 Hws0).
Qed.

Lemma executeFrame_keeps handler :
  preserves (keepsWorlds P) (executeFrame uuid now handler).
Proof.
  unfold executeFrame, observeAgent, collectAction, resolveAction,
    complete, takeSnapshot.
  repeat first
    [ lazymatch goal with
      | |- preserves _ (processChoice _ _ _ _) => apply processChoice_keeps
      | |- preserves _ transition => apply transition_keeps
      end
    | keeps_step ].
Qed.

Lemma publicCall_keeps (s s' : Engine V) :
  publicCall uuid now s s' -> keepsWorlds P s s'.
Proof.
  intros [sw | name swIds agentSpecs expId | | handler | reason | ].
  - intros Hall swid ws. cbn.
    destruct (decide (sw_id sw = swid)) as [-> | Hne].
    + rewrite lookup_insert_eq. intros [= <-]. apply P_new.
    + rewrite lookup_insert_ne by exact Hne. apply Hall.
  - assert (Hc : preserves (keepsWorlds P)
                   (createSimulation uuid now name swIds agentSpecs expId))
      by (unfold createSimulation; repeat keeps_step).
    eapply Hc. apply surjective_pairing.
  - assert (Hc : preserves (keepsWorlds P) (start uuid now))
      by (unfold start; repeat keeps_step).
    eapply Hc. apply surjective_pairing.
  - eapply executeFrame_keeps. apply surjective_pairing.
  - assert (Hc : preserves (keepsWorlds P) (complete uuid now reason))
      by (unfold complete; repeat keeps_step).
    eapply Hc. apply surjective_pairing.
  - rewrite exportSessionOutcomes_run. now apply keepsWorlds_same.
Qed.

(** A property of world states that holds of a new world state and is kept
    by the writes the engine makes holds of every world state of every
    reachable engine state. *)
Lemma reachable_worldsSatisfy (s : Engine V) :
  reachable uuid now s -> worldsSatisfy P s.
Proof.
  induction 1 as [cfg | s s' _ IH Hcall].
  - intros swid ws. cbn. now rewrite lookup_empty.
  - exact (publicCall_keeps s s' Hcall IH).
Qed.

End WorldInvariant.

Lemma wellKeyed_new (sw : Storyworld V) : wellKeyed (newWorldState sw).
Proof.
  destruct (fold_variables_spec (variables sw)) as (Hnd & Hkeys & Hkeyed & _).
  split; [cbn; lia|]. split; [exact Hnd|]. split; [|exact Hkeys].
  intros k v Hin. destruct (Hkeyed k v Hin) as [Hk Hf].
  split; [exact Hk|]. rewrite Hf. cbn. lia.
Qed.

Lemma wellKeyed_same_variables (ws ws' : WorldState V) :
  ws_variables ws' = ws_variables ws -> frame ws' = frame ws ->
  ws_storyworld ws' = ws_storyworld ws -> wellKeyed ws -> wellKeyed ws'.
Proof.
  unfold wellKeyed, variableIds. intros -> -> ->. tauto.
Qed.

Lemma wellKeyed_mutation (ws ws' : WorldState V) mutation actorId :
  wellKeyed ws -> applyMutation ws mutation actorId = Some ws' -> wellKeyed ws'.
Proof.
  intros (Hframe & Hnd & Hkeyed & Hdecl). unfold applyMutation.
  destruct (getVariable ws (mut_variableId mutation)) as [current|] eqn:Hget;
    [|intros [= <-]; exact (conj Hframe (conj Hnd (conj Hkeyed Hdecl)))].
  destruct (mutatedValue _ _ _) as [newValue|]; [|discriminate].
  intros [= <-]. unfold wellKeyed, variableIds. cbn [setVariable ws_variables frame ws_storyworld].
  assert (Hin : In (mut_variableId mutation) (map fst (ws_variables ws))).
  { destruct (in_dec string_dec (mut_variableId mutation) (map fst (ws_variables ws)))
      as [Hin | Hnot]; [exact Hin|].
    apply JSMap_get_None in Hnot. unfold getVariable in Hget. congruence. }
  rewrite JSMap_keys_set_present by exact Hin.
  split; [exact Hframe|]. split; [exact Hnd|]. split; [|exact Hdecl].
  intros k v Hkv. apply JSMap_In_set in Hkv as [[-> ->] | Hold].
  - cbn. split; [reflexivity | lia].
  - now apply Hkeyed.
Qed.

Lemma wellKeyed_frame (ws : WorldState V) : wellKeyed ws -> wellKeyed (advanceFrame ws).
Proof.
  intros (Hframe & Hnd & Hkeyed & Hdecl). unfold wellKeyed, variableIds. cbn.
  split; [lia|]. split; [exact Hnd|]. split; [|exact Hdecl].
  intros k v Hkv. destruct (Hkeyed k v Hkv) as [Hk Hf]. split; [exact Hk | lia].
Qed.

(** X3.  In every reachable state each loaded world state has exactly one
    variable state per variable id declared by its storyworld: the ids of
    the states have no repetition and are the declared ids, each state is
    stored under its own id, and its [lastModifiedFrame] lies between 0 and
    the frame counter of the world state.  Mutations never create or remove
    a variable state. *)
Theorem reachable_variables_wellKeyed (s : Engine V) :
  reachable uuid now s -> worldsSatisfy wellKeyed s.
Proof.
  apply reachable_worldsSatisfy.
  - apply wellKeyed_new.
  - intros ws mutation actorId ws'. apply wellKeyed_mutation.
  - apply wellKeyed_frame.
  - intros ws agentId sid atFrame. now apply wellKeyed_same_variables.
  - intros ws agentId encounterId. now apply wellKeyed_same_variables.
  - intros ws agentId sid entry atFrame. now apply wellKeyed_same_variables.
Qed.

Lemma engineMade_after_update (ws : WorldState V) (agentId : string) progress :
  progressEngineMade ws ->
  (forall p, In p progress -> engineMade p) ->
  progressEngineMade (setAgentSpools ws agentId progress).
Proof.
  intros Hold Hnew agent p.
  destruct (String.eqb_spec agent agentId) as [-> | Hne].
  - rewrite spools_put_same. apply Hnew.
  - rewrite spools_put_other by exact Hne. apply Hold.
Qed.

(** X4.  In every reachable state every progress entry has the shape the
    engine gives it: its status is [ACTIVE] or [COMPLETED] (the statuses
    [AVAILABLE], [SUSPENDED] and [ABANDONED] never occur), its completion
    frame is set exactly when it is [COMPLETED], it has a current encounter
    id, which completion does not clear, and its [choiceHistory] is empty:
    the engine never writes it. *)
Theorem reachable_progress_engineMade (s : Engine V) :
  reachable uuid now s -> worldsSatisfy progressEngineMade s.
Proof.
  apply reachable_worldsSatisfy.
  - intros sw agentId p. unfold getAgentSpools. cbn. rewrite lookup_empty. intros [].
  - intros ws mutation actorId ws' Hold Hmut agentId p.
    apply applyMutation_frame in Hmut as [_ Hprog].
    rewrite (getAgentSpools_same_progress ws ws' agentId Hprog). apply Hold.
  - intros ws Hold. exact Hold.
  - intros ws agentId sid atFrame Hold.
    apply engineMade_after_update; [exact Hold|].
    intros p Hp. apply in_map_iff in Hp as (q & <- & Hq).
    destruct (Hold agentId q Hq) as (Hst & Hcur & Hhist).
    destruct (String.eqb (spoolId q) sid); [|now repeat split].
    split; [right; split; [reflexivity | discriminate] | now split].
  - intros ws agentId encounterId Hold.
    apply engineMade_after_update; [exact Hold|].
    intros p Hp. apply in_map_iff in Hp as (q & <- & Hq).
    destruct (Hold agentId q Hq) as (Hst & Hcur & Hhist).
    destruct (isACTIVE (status q)); [|now repeat split].
    split; [exact Hst|]. split; [discriminate | exact Hhist].
  - intros ws agentId sid entry atFrame Hold.
    apply engineMade_after_update; [exact Hold|].
    intros p Hp. apply in_app_or in Hp as [Hp | [<- | []]]; [now apply (Hold agentId)|].
    split; [left; now split|]. split; [discriminate | reflexivity].
Qed.

(** ** More on gates *)

Lemma evaluateCondition_reads (ws1 ws2 : WorldState V) (a1 a2 : option string) :
  forall c,
    (forall id, In id (mentionedVariables c) -> readValue ws1 id = readValue ws2 id) ->
    evaluateCondition c ws1 a1 = evaluateCondition c ws2 a2.
Proof.
  induction c as [op var val ch IH] using GateCondition_children_ind.
  intros Hsame.
  assert (Hvar :
    (if truthy var then
       match var with
       | Some id => match getVariable ws1 id with
                    | Some varState => value varState | None => js_undefined end
       | None => js_undefined
       end
     else js_undefined)
    = (if truthy var then
         match var with
         | Some id => match getVariable ws2 id with
                      | Some varState => value varState | None => js_undefined end
         | None => js_undefined
         end
       else js_undefined)).
  { destruct (truthy var) eqn:Htruthy; [|reflexivity].
    destruct var as [id|]; [|reflexivity].
    specialize (Hsame id). cbn [mentionedVariables gc_variableId] in Hsame.
    rewrite Htruthy in Hsame. cbn in Hsame.
    specialize (Hsame (or_introl eq_refl)). unfold readValue in Hsame.
    destruct (getVariable ws1 id), (getVariable ws2 id); cbn in Hsame; congruence. }
  assert (Hchildren : forall cs c', ch = Some cs -> In c' cs ->
            evaluateCondition c' ws1 a1 = evaluateCondition c' ws2 a2).
  { intros cs c' -> Hin.
    specialize (IH cs eq_refl). rewrite List.Forall_forall in IH.
    apply (IH c' Hin). intros id Hid. apply Hsame.
    cbn [mentionedVariables children]. apply in_or_app. right.
    apply in_flat_map. now exists c'. }
  cbn [evaluateCondition operator gc_variableId gc_value children].
  rewrite Hvar.
  repeat match goal with
         | |- (if ?b then _ else _) = (if ?b then _ else _) =>
             destruct b; [try reflexivity|]
         end; try reflexivity.
  - destruct ch as [cs|]; [|reflexivity].
    specialize (Hchildren cs). clear -Hchildren.
    induction cs as [|c cs IHcs]; [reflexivity|]. cbn [forallb].
    rewrite (Hchildren c eq_refl (or_introl eq_refl)), IHcs; [reflexivity|].
    intros c' _ Hin. apply (Hchildren c' eq_refl). now right.
  - destruct ch as [cs|]; [|reflexivity].
    specialize (Hchildren cs). clear -Hchildren.
    induction cs as [|c cs IHcs]; [reflexivity|]. cbn [existsb].
    rewrite (Hchildren c eq_refl (or_introl eq_refl)), IHcs; [reflexivity|].
    intros c' _ Hin. apply (Hchildren c' eq_refl). now right.
  - destruct ch as [[|c0 cs]|]; try reflexivity.
    now rewrite (Hchildren _ c0 eq_refl (or_introl eq_refl)).
Qed.

(** X5.  A gate condition reads the world state only through the values of
    the variables it names: in two world states that give those variables
    the same value (or both none) it evaluates to the same boolean,
    whatever the frame counters, the spool progress, the modification stamps
    and the agents are. *)
Theorem condition_reads_only_its_variables (c : GateCondition V)
    (ws1 ws2 : WorldState V) (a1 a2 : option string) :
  (forall id, In id (mentionedVariables c) -> readValue ws1 id = readValue ws2 id) ->
  evaluateCondition c ws1 a1 = evaluateCondition c ws2 a2.
Proof. apply evaluateCondition_reads. Qed.

(** X6.  What cannot change the verdict of a gate: advancing the frame,
    replacing an agent's spool progress, and a mutation of a variable that
    the gate's condition does not name. *)
Theorem gate_verdict_stable (sw : Storyworld V) (gateId : string)
    (ws : WorldState V) (agentId : option string) :
  evaluate sw gateId (advanceFrame ws) agentId = evaluate sw gateId ws agentId /\
  (forall agent progress,
     evaluate sw gateId (setAgentSpools ws agent progress) agentId
     = evaluate sw gateId ws agentId) /\
  (forall mutation actorId ws' gate,
     find (fun g => String.eqb (gate_id g) gateId) (gates sw) = Some gate ->
     ~ In (mut_variableId mutation) (mentionedVariables (condition gate)) ->
     applyMutation ws mutation actorId = Some ws' ->
     evaluate sw gateId ws' agentId = evaluate sw gateId ws agentId).
Proof.
  unfold evaluate. split; [|split].
  - destruct (find _ (gates sw)); [|reflexivity]. now apply evaluateCondition_reads.
  - intros agent progress.
    destruct (find _ (gates sw)); [|reflexivity]. now apply evaluateCondition_reads.
  - intros mutation actorId ws' gate -> Hnot Hmut.
    apply evaluateCondition_reads. intros id Hid. unfold readValue.
    unfold applyMutation in Hmut.
    destruct (getVariable ws (mut_variableId mutation)); [|now injection Hmut as <-].
    destruct (mutatedValue _ _ _); [|discriminate]. injection Hmut as <-.
    unfold getVariable. cbn [setVariable ws_variables].
    rewrite JSMap_get_set_other; [reflexivity|]. intros ->. contradiction.
Qed.


Lemma evaluate_undeclared (sw : Storyworld V) (gateId : string)
    (ws : WorldState V) (agentId : option string) :
  (forall g, In g (gates sw) -> gate_id g <> gateId) ->
  evaluate sw gateId ws agentId = true.
Proof.
  intros Hnone. unfold evaluate.
  destruct (find _ (gates sw)) as [g|] eqn:Hfind; [|reflexivity].
  apply find_some in Hfind as [Hin Heq]. apply String.eqb_eq in Heq.
  now destruct (Hnone g Hin).
Qed.

(** X7.  A gate id that the storyworld does not declare is open: it
    evaluates to [true] in every world state, so a choice gated by it is
    among the available choices of its encounter, and a spool gated by it is
    offered to every agent that has no progress entry for that spool. *)
Theorem undeclared_gate_is_open (sw : Storyworld V) (gid : string)
    (ws : WorldState V) :
  (forall g, In g (gates sw) -> gate_id g <> gid) ->
  (forall agentId, evaluate sw gid ws agentId = true) /\
  (forall encounter choice agentId,
     In choice (choices encounter) -> gateId choice = Some gid ->
     In choice (getAvailableChoices sw encounter ws agentId)) /\
  (forall spool agentId,
     In spool (spools sw) -> entryGateId spool = Some gid ->
     ~ In (spool_id spool) (map spoolId (getAgentSpools ws agentId)) ->
     In {| ss_spoolId := spool_id spool; ss_spoolName := spool_name spool;
           ss_description := spool_description spool |}
        (getAvailableSpools sw agentId ws)).
Proof.
  intros Hnone. split; [|split].
  - intros agentId. now apply evaluate_undeclared.
  - intros encounter choice agentId Hin Hgate. unfold getAvailableChoices.
    apply filter_In. split; [exact Hin|]. rewrite Hgate.
    destruct (negb (truthy (Some gid))); [reflexivity|].
    now apply evaluate_undeclared.
  - intros spool agentId Hin Hgate Hnew. unfold getAvailableSpools.
    apply in_map_iff. exists spool. split; [reflexivity|].
    apply filter_In. split; [exact Hin|].
    destruct (existsb _ _) eqn:Hex.
    + apply existsb_exists in Hex as (x & Hx & Heq).
      apply String.eqb_eq in Heq. subst x. contradiction.
    + rewrite Hgate, evaluate_undeclared by exact Hnone.
      now rewrite andb_false_r.
Qed.

(** ** More on agent views *)

Lemma slice_last_length {A} (n : nat) (xs : list A) :
  length (slice_last n xs) = Nat.min n (length xs).
Proof. unfold slice_last. rewrite length_skipn. lia. Qed.

Lemma getCurrentEncounter_source (sw : Storyworld V) (agentId : string)
    (progress : list SpoolProgress) (enc : Encounter V) :
  getCurrentEncounter sw agentId progress = Some enc ->
  In enc (encounters sw) /\
  exists p, In p progress /\ currentEncounterId p = Some (enc_id enc) /\
            enc_id enc <> "".
Proof.
  induction progress as [|p rest IH]; cbn [getCurrentEncounter]; [discriminate|].
  assert (Hrest : getCurrentEncounter sw agentId rest = Some enc ->
                  In enc (encounters sw) /\
                  exists q, In q (p :: rest) /\ currentEncounterId q = Some (enc_id enc) /\
                            enc_id enc <> "").
  { intros H. destruct (IH H) as (Hin & q & Hq & Hcur & Hne).
    split; [exact Hin|]. exists q. split; [now right | now split]. }
  destruct (currentEncounterId p) as [eid|] eqn:Hcur; [|exact Hrest].
  destruct (truthy (Some eid)) eqn:Htruthy; [|exact Hrest].
  destruct (find _ (encounters sw)) as [found|] eqn:Hfind; [|exact Hrest].
  intros [= <-]. apply find_some in Hfind as [Hin Heq].
  apply String.eqb_eq in Heq. subst eid.
  split; [exact Hin|]. exists p. split; [now left|]. split; [exact Hcur|].
  cbn in Htruthy. intros Hempty. rewrite Hempty in Htruthy. discriminate.
Qed.

(** X8.  The encounter and the choices of a view fit together.  A view
    without current encounter offers no choice.  Otherwise the current
    encounter is an encounter the storyworld declares, its non-empty id is
    the current-encounter id of an entry of the agent's own progress list,
    and every offered choice is a choice of that encounter, in declaration
    order. *)
Theorem view_encounter_and_choices (sw : Storyworld V) (agentId simulationId : string)
    (ws : WorldState V) (recentEvents : list NarrativeEvent) :
  let view := buildView sw agentId simulationId ws recentEvents in
  match currentEncounter view with
  | None => availableChoices view = []
  | Some enc =>
      In enc (encounters sw) /\
      (exists p, In p (getAgentSpools ws agentId) /\
                 currentEncounterId p = Some (enc_id enc) /\ enc_id enc <> "") /\
      availableChoices view
      = List.filter
          (fun c => negb (truthy (gateId c))
                    || evaluate sw (orElse (gateId c) "") ws (Some agentId))
          (choices enc) /\
      (forall c, In c (availableChoices view) -> In c (choices enc))
  end.
Proof.
  cbn zeta. cbn [buildView currentEncounter availableChoices].
  destruct (getCurrentEncounter sw agentId (getAgentSpools ws agentId)) as [enc|] eqn:Hcur;
    [|reflexivity].
  destruct (getCurrentEncounter_source sw agentId _ enc Hcur) as (Hin & Hp).
  split; [exact Hin|]. split; [exact Hp|]. split.
  - unfold getAvailableChoices. apply filter_ext. intros c.
    destruct (gateId c) as [g|]; [|reflexivity].
    cbn [orElse]. now destruct (negb (truthy (Some g))).
  - intros c Hc. unfold getAvailableChoices in Hc. now apply filter_In in Hc.
Qed.

(** X9.  A view never offers a spool the agent already has a progress
    entry for, whatever the status of the entry, so a completed spool is not
    offered again; every offered spool is declared by the storyworld, and
    its entry gate, when it has one, evaluates to [true]. *)
Theorem view_offers_only_new_spools (sw : Storyworld V) (agentId simulationId : string)
    (ws : WorldState V) (recentEvents : list NarrativeEvent) :
  let view := buildView sw agentId simulationId ws recentEvents in
  forall offered, In offered (availableSpools view) ->
    (forall p, In p (activeSpools view) -> spoolId p <> ss_spoolId offered) /\
    exists spool,
      In spool (spools sw) /\ ss_spoolId offered = spool_id spool /\
      ss_spoolName offered = spool_name spool /\
      (truthy (entryGateId spool) = true ->
       evaluate sw (orElse (entryGateId spool) "") ws (Some agentId) = true).
Proof.
  cbn zeta. cbn [buildView availableSpools activeSpools].
  intros offered Hin. unfold getAvailableSpools in Hin.
  apply in_map_iff in Hin as (spool & <- & Hspool).
  apply filter_In in Hspool as [Hdecl Hkeep]. cbn [ss_spoolId ss_spoolName].
  destruct (existsb _ _) eqn:Hex; [discriminate|].
  split.
  - intros p Hp Heq.
    assert (Hyes : existsb (String.eqb (spool_id spool))
                     (map spoolId (getAgentSpools ws agentId)) = true).
    { apply existsb_exists. exists (spoolId p).
      split; [now apply in_map | now apply String.eqb_eq]. }
    congruence.
  - exists spool. repeat split; [exact Hdecl|].
    intros Htruthy. destruct (entryGateId spool) as [g|]; [|discriminate].
    rewrite Htruthy in Hkeep. cbn [orElse].
    now destruct (evaluate sw g ws (Some agentId)).
Qed.

(** X10.  The recent history of a view has at most ten entries: as many as
    there are events of the agent itself or without agent id among the
    events given, up to ten, made of the last of those events in their
    order. *)
Theorem recentHistory_at_most_ten (agentId : string) (events : list NarrativeEvent) :
  let own := List.filter (ownOrGlobal agentId) events in
  length (buildRecentHistory agentId events) = Nat.min 10 (length own) /\
  (length (buildRecentHistory agentId events) <= 10)%nat /\
  exists earlier,
    map historyEntry own = earlier ++ buildRecentHistory agentId events.
Proof.
  cbn zeta. unfold buildRecentHistory.
  rewrite length_map, slice_last_length. split; [reflexivity|]. split; [lia|].
  exists (map historyEntry
            (firstn (length (List.filter (ownOrGlobal agentId) events) - 10)
               (List.filter (ownOrGlobal agentId) events))).
  unfold slice_last.
  change (map (fun e => {| he_frame := ne_frame e; he_event := ne_eventType e;
                           he_summary := summarizeEvent e |}))
    with (map historyEntry).
  now rewrite <- map_app, firstn_skipn.
Qed.

Lemma evaluate_same_variables (sw : Storyworld V) (gid : string)
    (ws1 ws2 : WorldState V) (a : option string) :
  ws_variables ws1 = ws_variables ws2 ->
  evaluate sw gid ws1 a = evaluate sw gid ws2 a.
Proof.
  intros Hvars. unfold evaluate.
  destruct (find _ (gates sw)); [|reflexivity].
  apply evaluateCondition_reads. intros id _. unfold readValue, getVariable.
  now rewrite Hvars.
Qed.

(** X11.  A view depends on the world state only through the variable
    states, the frame counter and the progress list of the agent it is built
    for: in two world states that agree on these three, whatever the
    progress of the other agents, the views of the agent are equal. *)
Theorem view_ignores_other_agents_progress (sw : Storyworld V)
    (agentId simulationId : string) (ws1 ws2 : WorldState V)
    (recentEvents : list NarrativeEvent) :
  ws_variables ws1 = ws_variables ws2 ->
  frame ws1 = frame ws2 ->
  getAgentSpools ws1 agentId = getAgentSpools ws2 agentId ->
  buildView sw agentId simulationId ws1 recentEvents
  = buildView sw agentId simulationId ws2 recentEvents.
Proof.
  intros Hvars Hframe Hspools. unfold buildView.
  assert (Hvis : getVisibleVariables sw agentId ws1 = getVisibleVariables sw agentId ws2)
    by (unfold getVisibleVariables, getAllVariables; now rewrite Hvars).
  assert (Havail : getAvailableSpools sw agentId ws1 = getAvailableSpools sw agentId ws2).
  { unfold getAvailableSpools. rewrite Hspools. f_equal. apply filter_ext.
    intros spool. destruct (existsb _ _); [reflexivity|].
    destruct (entryGateId spool) as [g|]; [|reflexivity].
    now rewrite (evaluate_same_variables sw g ws1 ws2 (Some agentId) Hvars). }
  rewrite Hvis, Havail, Hspools. unfold getCurrentFrame. rewrite Hframe.
  destruct (getCurrentEncounter sw agentId (getAgentSpools ws2 agentId)) as [enc|];
    [|reflexivity].
  assert (Hch : getAvailableChoices sw enc ws1 agentId = getAvailableChoices sw enc ws2 agentId).
  { unfold getAvailableChoices. apply filter_ext. intros c.
    destruct (gateId c) as [g|]; [|reflexivity].
    destruct (negb (truthy (Some g))); [reflexivity|].
    now apply evaluate_same_variables. }
  now rewrite Hch.
Qed.

(** ** The life cycle of a simulation *)

(** Decompose a [preserves] goal down to the primitive state updates and
    solve those with [leaf]. *)
Ltac preserves_leaves Hrefl Htrans leaf :=
  unfold executeFrame, observeAgent, collectAction, resolveAction, transition,
    processChoice, recordChoice, applyOne, completeSpool, advanceToEncounter,
    enterSpool, complete, takeSnapshot, createSimulation, start, loadStoryworld,
    buildAgentView, emitEvent;
  repeat lazymatch goal with
    | |- preserves _ (modify _) => intros ? ? ? [= _ <-]; leaf
    | |- preserves _ (freshUuid _) => intros ? ? ? [= _ <-]; leaf
    | |- preserves _ (newDate _) => intros ? ? ? [= _ <-]; leaf
    | |- _ => preserves_step Hrefl Htrans
    end.

Lemma simFixed_refl (s : Engine V) : simFixed s s.
Proof. now split. Qed.

Lemma simFixed_trans (s1 s2 s3 : Engine V) :
  simFixed s1 s2 -> simFixed s2 s3 -> simFixed s1 s3.
Proof. intros [? ?] [? ?]. split; congruence. Qed.

Ltac simFixed_leaf :=
  unfold putFirstWorldState;
  repeat match goal with
         | |- context [match ?x with _ => _ end] => destruct x
         end;
  split; reflexivity.

Lemma processChoice_simFixed agentId choiceId :
  preserves (@simFixed V) (processChoice uuid now agentId choiceId).
Proof. preserves_leaves simFixed_refl simFixed_trans simFixed_leaf. Qed.





(** X13.  [start] works once.  When it returns, the simulation was
    [INITIALIZING] and is now [RUNNING], with the start time set, the
    current frame, the agents and the world states as before and one
    [SIMULATION_STARTED] event logged; a second [start] throws
    [Cannot start simulation in RUNNING status] and changes nothing. *)
Theorem start_works_once (s s1 : Engine V) :
  start uuid now s = (Returned tt, s1) ->
  sim_status (simulation s) = INITIALIZING /\
  sim_status (simulation s1) = RUNNING /\
  startedAt (simulation s1) = Some (now (clockReads s)) /\
  currentFrame (simulation s1) = currentFrame (simulation s) /\
  agents (simulation s1) = agents (simulation s) /\
  worldStates s1 = worldStates s /\
  (exists e, events s1 = events s ++ [e] /\ eventType e = "SIMULATION_STARTED" /\
             category e = SYSTEM /\ actorId e = None) /\
  start uuid now s1 = (Thrown "Cannot start simulation in RUNNING status", s1).
Proof.
  unfold start at 1, bind at 1, get.
  destruct (sim_status (simulation s)) eqn:Hstatus; try discriminate.
  intros [= <-]. split; [reflexivity|]. repeat split.
  eexists. repeat split.
Qed.

Lemma observe_without_storyworld (agentList : list AgentSlot) (s : Engine V) views :
  (firstStoryworld s = None \/ firstWorldState s = None) ->
  foldM (observeAgent uuid now) agentList views s
  = if existsb isActive agentList
    then (Thrown "Storyworld not loaded", s)
    else (Returned views, s).
Proof.
  intros Hmissing. induction agentList as [|agent rest IH]; cbn [foldM existsb].
  - reflexivity.
  - unfold bind at 1, observeAgent at 1.
    destruct (isActive agent); cbn [negb orb].
    + unfold bind at 1, buildAgentView, bind at 1, get.
      destruct Hmissing as [-> | Hws]; [reflexivity|].
      rewrite Hws. now destruct (firstStoryworld s).
    + exact IH.
Qed.

(** X14.  Frames without a loaded storyworld.  When the first storyworld
    id of a running simulation is missing or not loaded, a frame with an
    active agent throws [Storyworld not loaded] before anything is logged or
    changed, and a frame without active agent returns with the current frame
    advanced by one and no change to session data. *)
Theorem executeFrame_without_storyworld handler (s : Engine V) :
  sim_status (simulation s) = RUNNING ->
  (firstStoryworld s = None \/ firstWorldState s = None) ->
  if existsb isActive (agents (simulation s))
  then executeFrame uuid now handler s = (Thrown "Storyworld not loaded", s)
  else exists s',
         executeFrame uuid now handler s = (Returned tt, s') /\
         currentFrame (simulation s') = currentFrame (simulation s) + 1 /\
         sessionData s' = sessionData s.
Proof.
  intros Hstatus Hmissing.
  destruct (existsb isActive (agents (simulation s))) eqn:Hactive.
  { unfold executeFrame, bind at 1, get. rewrite Hstatus.
    unfold bind at 1. now rewrite (observe_without_storyworld _ s [] Hmissing), Hactive. }
  unfold executeFrame, bind at 1, get. rewrite Hstatus.
  unfold bind at 1. rewrite (observe_without_storyworld _ s [] Hmissing), Hactive.
  assert (Hcollect : forall slots (actions : JSMap.t AgentAction),
            (forall slot, In slot slots -> isActive (snd slot) = false) ->
            foldM (collectAction uuid now handler []) slots actions s
            = (Returned actions, s)).
  { induction slots as [|[i agent] slots IH]; intros actions Hin; [reflexivity|].
    cbn [foldM]. unfold bind at 1, collectAction at 1.
    pose proof (Hin (i, agent) (or_introl eq_refl)) as Hi. cbn in Hi.
    rewrite Hi. cbn [negb].
    apply IH. intros slot Hslot. apply Hin. now right. }
  unfold bind at 1. rewrite Hcollect.
  2: { intros [i agent] Hin. apply in_combine_r in Hin. cbn.
       destruct (isActive agent) eqn:Hact; [|reflexivity].
       assert (existsb isActive (agents (simulation s)) = true)
         by (apply existsb_exists; now exists agent).
       congruence. }
  cbn [forEach]. unfold bind at 1, ret at 1, bind at 1, transition, bind at 1,
    modify at 1, bind at 1, modify at 1, bind at 1, get, bind at 1.
  match goal with
  | |- context [if ?b then complete _ _ _ else _] => destruct b
  end.
  - unfold complete, bind at 1, modify at 1, bind at 1, newDate at 1, bind at 1,
      modify at 1. rewrite emitEvent_run. unfold bind at 1, get.
    match goal with
    | |- context [if ?b then _ else ret tt] => destruct b
    end; eexists; (split; [reflexivity|]); split; reflexivity.
  - unfold ret at 1, bind at 1, get.
    match goal with
    | |- context [if ?b then _ else ret tt] => destruct b
    end; eexists; (split; [reflexivity|]); split; reflexivity.
Qed.

(** ** Isolation between agents at resolution *)

Lemma entryEvolves_refl (p : SpoolProgress) : entryEvolves p p.
Proof. now repeat split. Qed.

Lemma entryEvolves_trans (p q r : SpoolProgress) :
  entryEvolves p q -> entryEvolves q r -> entryEvolves p r.
Proof.
  intros (?&?&?&?) (?&?&?&?). repeat split; try congruence. auto.
Qed.

Lemma Forall2_evolves_refl (l : list SpoolProgress) : Forall2 entryEvolves l l.
Proof. induction l; constructor; [apply entryEvolves_refl | assumption]. Qed.

Lemma Forall2_evolves_trans (l1 l2 l3 : list SpoolProgress) :
  Forall2 entryEvolves l1 l2 -> Forall2 entryEvolves l2 l3 ->
  Forall2 entryEvolves l1 l3.
Proof.
  intros H12. revert l3. induction H12 as [|p q l1 l2 Hpq _ IH]; intros l3 H23.
  - inversion H23. constructor.
  - inversion H23 as [|q' r l2' l3' Hqr Hrest]; subst. constructor.
    + eapply entryEvolves_trans; eassumption.
    + now apply IH.
Qed.

Lemma Forall2_evolves_app_l (l1 l2 l : list SpoolProgress) :
  Forall2 entryEvolves (l1 ++ l2) l ->
  exists k1 k2, l = k1 ++ k2 /\ Forall2 entryEvolves l1 k1 /\
                Forall2 entryEvolves l2 k2.
Proof.
  revert l. induction l1 as [|p l1 IH]; intros l H.
  - exists [], l. repeat split; [constructor | exact H].
  - inversion H as [|p' q l' k Hpq Hrest]; subst.
    destruct (IH k Hrest) as (k1 & k2 & -> & H1 & H2).
    exists (q :: k1), k2. repeat split; [now constructor | exact H2].
Qed.

Lemma Forall2_evolves_map (f : SpoolProgress -> SpoolProgress) (l : list SpoolProgress) :
  (forall p, entryEvolves p (f p)) -> Forall2 entryEvolves l (map f l).
Proof. intros Hf. induction l; constructor; [apply Hf | assumption]. Qed.

Lemma progressGrows_refl (l : list SpoolProgress) : progressGrows l l.
Proof. exists l, []. split; [now rewrite app_nil_r | apply Forall2_evolves_refl]. Qed.

Lemma progressGrows_trans (l1 l2 l3 : list SpoolProgress) :
  progressGrows l1 l2 -> progressGrows l2 l3 -> progressGrows l1 l3.
Proof.
  intros (k1 & e1 & -> & H1) (k2 & e2 & -> & H2).
  apply Forall2_evolves_app_l in H2 as (k1' & e1' & -> & Hk & He).
  exists k1', (e1' ++ e2). split; [now rewrite app_assoc|].
  eapply Forall2_evolves_trans; eassumption.
Qed.

Lemma choiceWorld_refl (b : string) (ws : WorldState V) : choiceWorld b ws ws.
Proof. repeat split. apply progressGrows_refl. Qed.

Lemma choiceWorld_trans (b : string) (ws1 ws2 ws3 : WorldState V) :
  choiceWorld b ws1 ws2 -> choiceWorld b ws2 ws3 -> choiceWorld b ws1 ws3.
Proof.
  intros (Hf & Hsw & Hids & Hother & Hgrow) (Hf' & Hsw' & Hids' & Hother' & Hgrow').
  repeat split; try congruence.
  - intros agent Hne. now rewrite Hother', Hother.
  - eapply progressGrows_trans; eassumption.
Qed.

Lemma choiceStep_refl (b : string) (s : Engine V) : choiceStep b s s.
Proof.
  repeat split.
  - exists []. split; [now rewrite app_nil_r | constructor].
  - exists []. now rewrite app_nil_r.
  - intros swid. destruct (worldStates s !! swid) as [ws|]; [|reflexivity].
    exists ws. split; [reflexivity | apply choiceWorld_refl].
Qed.

Lemma choiceStep_trans (b : string) (s1 s2 s3 : Engine V) :
  choiceStep b s1 s2 -> choiceStep b s2 s3 -> choiceStep b s1 s3.
Proof.
  intros (Hsim & Hsws & Hcfg & (ev & Hev & Hact) & Hsd & (le & Hle) & Hws)
         (Hsim' & Hsws' & Hcfg' & (ev' & Hev' & Hact') & Hsd' & (le' & Hle') & Hws').
  repeat split; try congruence.
  - exists (ev ++ ev'). split; [now rewrite Hev', Hev, app_assoc|].
    apply Forall_app. now split.
  - intros agent Hne. now rewrite Hsd', Hsd.
  - exists (le ++ le'). now rewrite Hle', Hle, app_assoc.
  - intros swid. specialize (Hws swid). specialize (Hws' swid).
    destruct (worldStates s1 !! swid) as [ws1|].
    + destruct Hws as (ws2 & Hws2 & H12). rewrite Hws2 in Hws'.
      destruct Hws' as (ws3 & Hws3 & H23).
      exists ws3. split; [exact Hws3 | eapply choiceWorld_trans; eassumption].
    + now rewrite Hws in Hws'.
Qed.

Lemma ledger_emitted (s : Engine V) (e : SimulationEvent V) (agent : string) :
  ledger (emitted e s) agent = ledger s agent.
Proof. reflexivity. Qed.

Lemma emitEvent_choiceStep (b : string) cat ty (pl : list (string * PayloadValue V)) :
  preserves (choiceStep b) (emitEvent uuid now cat ty pl (Some b) None).
Proof.
  intros s r s' Hrun. rewrite emitEvent_run in Hrun. injection Hrun as _ <-.
  repeat split.
  - eexists. split; [reflexivity|]. now repeat constructor.
  - exists []. now rewrite app_nil_r.
  - intros swid. cbn. destruct (worldStates s !! swid) as [ws|]; [|reflexivity].
    exists ws. split; [reflexivity | apply choiceWorld_refl].
Qed.

Lemma put_then_emit_choiceStep (b : string) (s : Engine V) (ws ws' : WorldState V)
    cat ty pl r s' :
  firstWorldState s = Some ws -> choiceWorld b ws ws' ->
  (modify (putFirstWorldState ws') ;;; emitEvent uuid now cat ty pl (Some b) None) s
  = (r, s') ->
  choiceStep b s s'.
Proof.
  intros Hws Hrel Hrun.
  unfold bind, modify in Hrun. rewrite emitEvent_run in Hrun. injection Hrun as _ <-.
  apply firstWorldState_lookup in Hws as (first & Hhead & Hws).
  unfold putFirstWorldState. rewrite Hhead.
  repeat split.
  - eexists. split; [reflexivity|]. now repeat constructor.
  - exists []. now rewrite app_nil_r.
  - intros swid. cbn. destruct (decide (first = swid)) as [<- | Hne].
    + rewrite Hws, lookup_insert_eq. now exists ws'.
    + rewrite lookup_insert_ne by exact Hne.
      destruct (worldStates s !! swid) as [ws0|]; [|reflexivity].
      exists ws0. split; [reflexivity | apply choiceWorld_refl].
Qed.

Lemma applyMutation_ids (ws ws' : WorldState V) mutation actorId :
  applyMutation ws mutation actorId = Some ws' ->
  variableIds ws' = variableIds ws /\ ws_storyworld ws' = ws_storyworld ws.
Proof.
  unfold applyMutation.
  destruct (getVariable ws (mut_variableId mutation)) as [current|] eqn:Hget;
    [|now intros [= <-]].
  destruct (mutatedValue _ _ _); [|discriminate]. intros [= <-].
  split; [|reflexivity]. unfold variableIds. cbn.
  apply JSMap_keys_set_present.
  destruct (in_dec string_dec (mut_variableId mutation) (map fst (ws_variables ws)))
    as [Hin | Hnot]; [exact Hin|].
  apply JSMap_get_None in Hnot. unfold getVariable in Hget. congruence.
Qed.

Lemma choiceWorld_update (b : string) (ws : WorldState V) progress :
  progressGrows (getAgentSpools ws b) progress ->
  choiceWorld b ws (setAgentSpools ws b progress).
Proof.
  intros Hgrow. repeat split.
  - intros agent Hne. now apply spools_put_other.
  - now rewrite spools_put_same.
Qed.

Lemma applyOne_choiceStep (b : string) mutation :
  preserves (choiceStep b) (applyOne uuid now b mutation).
Proof.
  intros s r s'. unfold applyOne, bind at 1, get.
  destruct (firstWorldState s) as [ws|] eqn:Hws;
    [|intros [= _ <-]; apply choiceStep_refl].
  destruct (applyMutation ws mutation b) as [ws'|] eqn:Hmut;
    [|intros [= _ <-]; apply choiceStep_refl].
  apply put_then_emit_choiceStep with (ws := ws); [exact Hws|].
  destruct (applyMutation_ids _ _ _ _ Hmut) as [Hids Hsw].
  apply applyMutation_frame in Hmut as [Hf Hprog].
  repeat split; try assumption.
  - intros agent _. now apply getAgentSpools_same_progress.
  - rewrite (getAgentSpools_same_progress ws ws' b Hprog). apply progressGrows_refl.
Qed.

Lemma completeSpool_choiceStep (b sid : string) :
  preserves (choiceStep b) (completeSpool (V := V) uuid now b sid).
Proof.
  intros s r s'. unfold completeSpool, bind at 1, get.
  destruct (firstWorldState s) as [ws|] eqn:Hws;
    [|intros [= _ <-]; apply choiceStep_refl].
  apply put_then_emit_choiceStep with (ws := ws); [exact Hws|].
  apply choiceWorld_update.
  eexists _, []. split; [now rewrite app_nil_r|].
  apply Forall2_evolves_map. intros p.
  destruct (String.eqb (spoolId p) sid); now repeat split.
Qed.

Lemma advanceToEncounter_choiceStep (b eid : string) :
  preserves (choiceStep b) (advanceToEncounter (V := V) uuid now b eid).
Proof.
  intros s r s'. unfold advanceToEncounter, bind at 1, get.
  destruct (firstWorldState s) as [ws|] eqn:Hws;
    [|intros [= _ <-]; apply choiceStep_refl].
  apply put_then_emit_choiceStep with (ws := ws); [exact Hws|].
  apply choiceWorld_update.
  eexists _, []. split; [now rewrite app_nil_r|].
  apply Forall2_evolves_map. intros p.
  destruct (isACTIVE (status p)); now repeat split.
Qed.

Lemma enterSpool_choiceStep (b sid : string) :
  preserves (choiceStep b) (enterSpool (V := V) uuid now b sid).
Proof.
  intros s r s'. unfold enterSpool, bind at 1, get.
  destruct (firstStoryworld s) as [sw|]; [|intros [= _ <-]; apply choiceStep_refl].
  destruct (firstWorldState s) as [ws|] eqn:Hws;
    [|intros [= _ <-]; apply choiceStep_refl].
  destruct (find _ (spools sw)) as [spool|]; [|intros [= _ <-]; apply choiceStep_refl].
  apply put_then_emit_choiceStep with (ws := ws); [exact Hws|].
  apply choiceWorld_update.
  eexists _, _. split; [reflexivity | apply Forall2_evolves_refl].
Qed.

Lemma recordChoice_choiceStep (b : string) entry :
  preserves (choiceStep b) (recordChoice (V := V) b entry).
Proof.
  intros s r s' Hrun.
  destruct (recordChoice_ledger s b b entry) as (s1 & Hrec & Hledger).
  rewrite Hrec in Hrun. injection Hrun as _ <-.
  assert (Hrest : simulation s1 = simulation s /\ storyworlds s1 = storyworlds s /\
                  config s1 = config s /\ events s1 = events s /\
                  worldStates s1 = worldStates s /\
                  forall agent, agent <> b ->
                    sessionData s1 !! agent = sessionData s !! agent).
  { unfold recordChoice, modify in Hrec. injection Hrec as Hs1. clear Hledger.
    subst s1. destruct (sessionData s !! b); repeat split.
    intros agent Hne. cbn. now rewrite lookup_insert_ne by congruence. }
  destruct Hrest as (Hsim & Hsws & Hcfg & Hev & Hws & Hsd).
  repeat split; try assumption.
  - exists []. split; [now rewrite app_nil_r | constructor].
  - eexists. exact Hledger.
  - intros swid. rewrite Hws. destruct (worldStates s !! swid) as [ws|]; [|reflexivity].
    exists ws. split; [reflexivity | apply choiceWorld_refl].
Qed.

Ltac choiceStep_step b :=
  lazymatch goal with
  | |- preserves _ (recordChoice _ _) => apply recordChoice_choiceStep
  | |- preserves _ (applyOne _ _ _ _) => apply applyOne_choiceStep
  | |- preserves _ (emitEvent _ _ _ _ _ _ _) => apply emitEvent_choiceStep
  | |- preserves _ (completeSpool _ _ _ _) => apply completeSpool_choiceStep
  | |- preserves _ (advanceToEncounter _ _ _ _) => apply advanceToEncounter_choiceStep
  | |- preserves _ (enterSpool _ _ _ _) => apply enterSpool_choiceStep
  | |- _ => preserves_step (choiceStep_refl b) (choiceStep_trans b)
  end.

Lemma processChoice_choiceStep (b choiceId : string) :
  preserves (choiceStep b) (processChoice (V := V) uuid now b choiceId).
Proof. unfold processChoice. repeat choiceStep_step b. Qed.

(** X15.  Resolving a choice of agent [b] touches only [b] and the shared
    variables.  Whether [processChoice] returns or throws: the simulation
    record, the storyworlds and the configuration are unchanged; every event
    it logs has [b] as actor; the session data of every other agent is
    unchanged and the ledger of [b] keeps its entries; in every world state
    the frame counter, the ids of the variable states and the progress lists
    of the other agents are unchanged; and the progress list of [b] keeps
    its entries in order, each with its spool, agent and entry frame, a
    completed entry staying completed, with new entries only at the end. *)
Theorem processChoice_touches_only_its_agent (b choiceId : string)
    (s s' : Engine V) (r : Completion unit) :
  processChoice uuid now b choiceId s = (r, s') -> choiceStep b s s'.
Proof. apply processChoice_choiceStep. Qed.

(** ** What a frame can touch *)

Section FrameRule.
Variable R : Engine V -> Engine V -> Prop.
Hypothesis R_refl : forall s, R s s.
Hypothesis R_trans : forall s1 s2 s3, R s1 s2 -> R s2 s3 -> R s1 s3.

Lemma preserves_forEach_In {A} (f : A -> M V unit) (xs : list A) :
  (forall x, In x xs -> preserves R (f x)) -> preserves R (forEach f xs).
Proof.
  induction xs as [|x xs IH]; intros Hf; cbn [forEach].
  - now apply preserves_ret.
  - apply (preserves_bind _ R_trans); [apply Hf; now left|].
    intros _. apply IH. intros y Hy. apply Hf. now right.
Qed.

Lemma preserves_foldM_In {A B} (f : B -> A -> M V B) (xs : list A) (b : B) :
  (forall b x, In x xs -> preserves R (f b x)) -> preserves R (foldM f xs b).
Proof.
  revert b. induction xs as [|x xs IH]; intros b Hf; cbn [foldM].
  - now apply preserves_ret.
  - apply (preserves_bind _ R_trans); [apply Hf; now left|].
    intros b'. apply IH. intros b0 y Hy. apply Hf. now right.
Qed.

(** Where the collected actions come from: each is the answer of the
    callback for an active agent of the list. *)
Lemma collected_actions_source handler (agentViews : JSMap.t (AgentView V)) :
  forall (slots : list (nat * AgentSlot)) (acc actions : JSMap.t AgentAction) s s',
  foldM (collectAction uuid now handler agentViews) slots acc s = (Returned actions, s') ->
  forall k action, In (k, action) actions ->
    In (k, action) acc \/
    exists i agent view,
      In (i, agent) slots /\ isActive agent = true /\ agent_id agent = k /\
      handler i k view = Resolved (Some action).
Proof.
  induction slots as [|[i agent] slots IH]; intros acc actions s s'; cbn [foldM].
  - intros [= <- _] k action Hin. now left.
  - intros Hrun k action Hin.
    apply bind_inv in Hrun as [(acc1 & s1 & Hone & Hrest) | (msg & _ & Habs)];
      [|discriminate Habs].
    destruct (IH acc1 actions s1 s' Hrest k action Hin) as [Hacc1 | Hlater].
    2: { destruct Hlater as (j & agent' & view & Hslot & Hrest').
         right. exists j, agent', view. split; [now right | exact Hrest']. }
    unfold collectAction in Hone.
    destruct (isActive agent) eqn:Hactive; cbn [negb] in Hone;
      [|injection Hone as <- _; now left].
    destruct (JSMap.get (agent_id agent) agentViews) as [view|];
      [|injection Hone as <- _; now left].
    destruct (handler i (agent_id agent) view) as [[act|]|err] eqn:Hh.
    + injection Hone as <- _.
      apply JSMap_In_set in Hacc1 as [[-> ->] | Hold]; [|now left].
      right. exists i, agent, view. repeat split; [now left | assumption..].
    + injection Hone as <- _. now left.
    + apply bind_inv in Hone as [([] & s2 & _ & Hret) | (msg & _ & Habs)];
        [|discriminate Habs].
      injection Hret as <- _. now left.
Qed.

(** A relation kept by each stage of a frame is kept by the frame, whether
    it returns or throws.  The stages are taken at the agents of the
    simulation, and the resolution at the actions the callback gave for its
    active agents. *)
Lemma executeFrame_preserves handler (s s' : Engine V) (r : Completion unit) :
  executeFrame uuid now handler s = (r, s') ->
  (forall agent views, In agent (agents (simulation s)) ->
     preserves R (observeAgent uuid now views agent)) ->
  (forall i agent views actions, In agent (agents (simulation s)) ->
     preserves R (collectAction uuid now handler views actions (i, agent))) ->
  (forall i agent view action,
     In agent (agents (simulation s)) -> isActive agent = true ->
     handler i (agent_id agent) view = Resolved (Some action) ->
     preserves R (resolveAction uuid now (agent_id agent, action))) ->
  preserves R transition ->
  (forall reason, preserves R (complete uuid now reason)) ->
  preserves R (takeSnapshot uuid now) ->
  R s s'.
Proof.
  intros Hrun Hobserve Hcollect Hresolve Htransition Hcomplete Hsnapshot.
  unfold executeFrame, bind at 1, get in Hrun.
  destruct (sim_status (simulation s));
    try (injection Hrun as _ <-; apply R_refl).
  assert (Hobs : forall views, preserves R
            (foldM (observeAgent uuid now) (agents (simulation s)) views)).
  { intros views. apply preserves_foldM_In. intros b x Hx. now apply Hobserve. }
  assert (Hcol : forall views acc, preserves R
            (foldM (collectAction uuid now handler views)
               (combine (seq 0 (length (agents (simulation s)))) (agents (simulation s)))
               acc)).
  { intros views acc. apply preserves_foldM_In. intros b [i agent] Hx.
    apply Hcollect. now apply in_combine_r in Hx. }
  apply bind_inv in Hrun as [(views & s1 & H1 & Hrun) | (msg & H1 & _)];
    [|eapply Hobs; exact H1].
  apply bind_inv in Hrun as [(actions & s2 & H2 & Hrun) | (msg & H2 & _)];
    [|eapply R_trans; [eapply Hobs; exact H1 | eapply Hcol; exact H2]].
  assert (H02 : R s s2)
    by (eapply R_trans; [eapply Hobs; exact H1 | eapply Hcol; exact H2]).
  assert (Hres : preserves R (forEach (resolveAction uuid now) actions)).
  { apply preserves_forEach_In. intros [k action] Hin.
    destruct (collected_actions_source handler views _ _ _ _ _ H2 k action Hin)
      as [[] | (i & agent & view & Hslot & Hactive & <- & Hh)].
    apply in_combine_r in Hslot. now apply (Hresolve i agent view). }
  apply bind_inv in Hrun as [([] & s3 & H3 & Hrun) | (msg & H3 & _)];
    [|eapply R_trans; [exact H02 | eapply Hres; exact H3]].
  assert (H03 : R s s3) by (eapply R_trans; [exact H02 | eapply Hres; exact H3]).
  eapply R_trans; [exact H03|].
  assert (Htail : preserves R
    (transition ;;;
     s1 <- get ;;
     (if currentFrame (simulation s1) >=? maxFrames (config s1)
      then complete uuid now (Some "Max frames reached") else ret tt) ;;;
     s2 <- get ;;
     (if (0 <? snapshotInterval (config s2))
         && (Z.rem (currentFrame (simulation s2)) (snapshotInterval (config s2)) =? 0)
      then _ <- takeSnapshot uuid now ;; ret tt else ret tt))).
  { repeat lazymatch goal with
    | |- preserves _ transition => exact Htransition
    | |- preserves _ (complete _ _ _) => apply Hcomplete
    | |- preserves _ (takeSnapshot _ _) => exact Hsnapshot
    | |- _ => preserves_step R_refl R_trans
    end. }
  eapply Htail. exact Hrun.
Qed.

End FrameRule.

(** ** Agents a frame does not touch *)

Lemma untouched_refl (a : string) (s : Engine V) : untouched a s s.
Proof.
  repeat split.
  - intros swid. destruct (worldStates s !! swid) as [ws|]; [|reflexivity].
    now exists ws.
  - exists []. split; [now rewrite app_nil_r | constructor].
Qed.

Lemma untouched_trans (a : string) (s1 s2 s3 : Engine V) :
  untouched a s1 s2 -> untouched a s2 s3 -> untouched a s1 s3.
Proof.
  intros (Hws & Hsd & (ev & Hev & Hact)) (Hws' & Hsd' & (ev' & Hev' & Hact')).
  repeat split.
  - intros swid. specialize (Hws swid). specialize (Hws' swid).
    destruct (worldStates s1 !! swid) as [ws1|].
    + destruct Hws as (ws2 & Hws2 & H12). rewrite Hws2 in Hws'.
      destruct Hws' as (ws3 & Hws3 & H23).
      exists ws3. split; [exact Hws3 | congruence].
    + now rewrite Hws in Hws'.
  - congruence.
  - exists (ev ++ ev'). split; [now rewrite Hev', Hev, app_assoc|].
    apply Forall_app. now split.
Qed.

Lemma choiceStep_untouched (a b : string) (s s' : Engine V) :
  a <> b -> choiceStep b s s' -> untouched a s s'.
Proof.
  intros Hne (_ & _ & _ & (ev & Hev & Hact) & Hsd & _ & Hws).
  repeat split.
  - intros swid. specialize (Hws swid).
    destruct (worldStates s !! swid) as [ws|]; [|exact Hws].
    destruct Hws as (ws' & Hws' & _ & _ & _ & Hother & _).
    exists ws'. split; [exact Hws' | now apply Hother].
  - now apply Hsd.
  - exists ev. split; [exact Hev|].
    eapply List.Forall_impl; [|exact Hact]. intros e He. cbn in He. congruence.
Qed.

Lemma emitEvent_untouched (a : string) cat ty (pl : list (string * PayloadValue V))
    actor target :
  actor <> Some a ->
  preserves (untouched a) (emitEvent uuid now cat ty pl actor target).
Proof.
  intros Hactor s r s' Hrun. rewrite emitEvent_run in Hrun. injection Hrun as _ <-.
  repeat split.
  - intros swid. cbn. destruct (worldStates s !! swid) as [ws|]; [|reflexivity].
    now exists ws.
  - eexists. split; [reflexivity|]. now repeat constructor.
Qed.

Lemma transition_untouched (a : string) : preserves (@untouched V a) transition.
Proof.
  intros s r s' [= _ <-]. repeat split.
  - intros swid. cbn. rewrite lookup_fmap.
    destruct (worldStates s !! swid) as [ws|]; [|reflexivity].
    now exists (advanceFrame ws).
  - exists []. split; [cbn; now rewrite app_nil_r | constructor].
Qed.

Lemma complete_untouched (a : string) reason :
  preserves (@untouched V a) (complete uuid now reason).
Proof.
  intros s r s' [= _ <-]. repeat split.
  - intros swid. cbn. destruct (worldStates s !! swid) as [ws|]; [|reflexivity].
    now exists ws.
  - eexists. split; [reflexivity|]. now repeat constructor.
Qed.

Lemma takeSnapshot_untouched (a : string) :
  preserves (@untouched V a) (takeSnapshot uuid now).
Proof.
  intros s r s' [= _ <-]. repeat split.
  - intros swid. cbn. destruct (worldStates s !! swid) as [ws|]; [|reflexivity].
    now exists ws.
  - exists []. split; [cbn; now rewrite app_nil_r | constructor].
Qed.

Ltac untouched_step a :=
  lazymatch goal with
  | |- preserves _ (buildAgentView _) =>
      intros ? ? ? Hview; apply buildAgentView_unchanged in Hview as ->;
      apply untouched_refl
  | |- preserves _ (emitEvent _ _ _ _ _ _ _) =>
      apply emitEvent_untouched; congruence
  | |- preserves _ (processChoice _ _ _ _) =>
      intros ? ? ? Hchoice; apply processChoice_choiceStep in Hchoice;
      apply choiceStep_untouched with (2 := Hchoice); congruence
  | |- _ => preserves_step (untouched_refl a) (untouched_trans a)
  end.

(** X16.  A frame leaves alone every agent that has no active slot in the
    simulation.  Whether [executeFrame] returns or throws, for an id [a]
    that no active agent of the simulation carries: the progress lists of
    [a] in every world state and the session data of [a] are unchanged, and
    no event the frame logs has [a] as its actor. *)
Theorem executeFrame_leaves_idle_agents_alone (handler : AgentActionHandler V)
    (a : string) (s s' : Engine V) (r : Completion unit) :
  (forall agent, In agent (agents (simulation s)) ->
     isActive agent = true -> agent_id agent <> a) ->
  executeFrame uuid now handler s = (r, s') ->
  untouched a s s'.
Proof.
  intros Hidle Hrun.
  apply (executeFrame_preserves (untouched a) (untouched_refl a) (untouched_trans a)
           handler s s' r Hrun).
  - intros agent views Hin. unfold observeAgent.
    destruct (isActive agent) eqn:Hactive; cbn [negb];
      [|apply preserves_ret, untouched_refl].
    pose proof (Hidle agent Hin Hactive) as Hne.
    repeat untouched_step a.
  - intros i agent views actions Hin. unfold collectAction.
    destruct (isActive agent) eqn:Hactive; cbn [negb];
      [|apply preserves_ret, untouched_refl].
    pose proof (Hidle agent Hin Hactive) as Hne.
    repeat untouched_step a.
  - intros i agent view action Hin Hactive _.
    pose proof (Hidle agent Hin Hactive) as Hne.
    unfold resolveAction. repeat untouched_step a.
  - apply transition_untouched.
  - intros reason. apply complete_untouched.
  - apply takeSnapshot_untouched.
Qed.

(** ** Frames without choices *)

Lemma narrativeFixed_refl (s : Engine V) : narrativeFixed s s.
Proof.
  split; [reflexivity|]. intros swid.
  destruct (worldStates s !! swid) as [ws|]; [|reflexivity]. now exists ws.
Qed.

Lemma narrativeFixed_trans (s1 s2 s3 : Engine V) :
  narrativeFixed s1 s2 -> narrativeFixed s2 s3 -> narrativeFixed s1 s3.
Proof.
  intros [Hsd Hws] [Hsd' Hws']. split; [congruence|].
  intros swid. specialize (Hws swid). specialize (Hws' swid).
  destruct (worldStates s1 !! swid) as [ws1|].
  - destruct Hws as (ws2 & Hws2 & Hv & Hp). rewrite Hws2 in Hws'.
    destruct Hws' as (ws3 & Hws3 & Hv' & Hp').
    exists ws3. repeat split; congruence.
  - now rewrite Hws in Hws'.
Qed.

Ltac narrativeFixed_leaf :=
  split; [reflexivity|];
  let swid := fresh "swid" in
  intros swid; cbn; rewrite ?lookup_fmap;
  lazymatch goal with
  | |- context [worldStates ?s !! swid] =>
      destruct (worldStates s !! swid); cbn; [eexists; repeat split | reflexivity]
  end.

Lemma emitEvent_narrativeFixed cat ty (pl : list (string * PayloadValue V)) actor target :
  preserves (@narrativeFixed V) (emitEvent uuid now cat ty pl actor target).
Proof. intros s r s' [= _ <-]. narrativeFixed_leaf. Qed.

Ltac narrativeFixed_step :=
  lazymatch goal with
  | |- preserves _ (buildAgentView _) =>
      intros ? ? ? Hview; apply buildAgentView_unchanged in Hview as ->;
      apply narrativeFixed_refl
  | |- preserves _ (emitEvent _ _ _ _ _ _ _) => apply emitEvent_narrativeFixed
  | |- _ => preserves_step narrativeFixed_refl narrativeFixed_trans
  end.

(** X17.  A frame in which no agent submits a choice leaves the narrative
    state as it was.  When every action the callback gives for an active
    agent of the simulation has no choice id (absent or empty), then,
    whether [executeFrame] returns or throws, the session data is unchanged
    and every world state keeps its variable states and its spool progress:
    observation, messages, callback failures, the frame transition, the
    completion at the frame limit and the snapshot write none of them. *)
Theorem frame_without_choices_keeps_narrative (handler : AgentActionHandler V)
    (s s' : Engine V) (r : Completion unit) :
  (forall i agent view action,
     In agent (agents (simulation s)) -> isActive agent = true ->
     handler i (agent_id agent) view = Resolved (Some action) ->
     truthy (act_choiceId action) = false) ->
  executeFrame uuid now handler s = (r, s') ->
  narrativeFixed s s'.
Proof.
  intros Hquiet Hrun.
  apply (executeFrame_preserves (@narrativeFixed V) narrativeFixed_refl
           narrativeFixed_trans handler s s' r Hrun).
  - intros agent views _. unfold observeAgent. repeat narrativeFixed_step.
  - intros i agent views actions _. unfold collectAction. repeat narrativeFixed_step.
  - intros i agent view action Hin Hactive Hh.
    unfold resolveAction. rewrite (Hquiet i agent view action Hin Hactive Hh).
    repeat narrativeFixed_step.
  - intros s0 r0 s0' [= _ <-]. narrativeFixed_leaf.
  - intros reason s0 r0 s0' [= _ <-]. narrativeFixed_leaf.
  - intros s0 r0 s0' [= _ <-]. narrativeFixed_leaf.
Qed.

(** ** The event log *)

Lemma drawnBetween_le (lo hi : nat) (ks : list nat) :
  drawnBetween lo hi ks -> (lo <= hi)%nat.
Proof.
  revert lo. induction ks as [|k ks IH]; intros lo; cbn [drawnBetween].
  - trivial.
  - intros [Hlo Hrest]. apply IH in Hrest. lia.
Qed.

Lemma drawnBetween_app (a b c : nat) (ks ks' : list nat) :
  drawnBetween a b ks -> drawnBetween b c ks' -> drawnBetween a c (ks ++ ks').
Proof.
  revert a. induction ks as [|k ks IH]; intros a; cbn [drawnBetween app].
  - intros Hab. destruct ks' as [|k' ks']; cbn [drawnBetween].
    + lia.
    + intros [Hb Hrest]. split; [lia | exact Hrest].
  - intros [Ha Hrest] Hks'. split; [exact Ha | now apply IH].
Qed.

Lemma drawnBetween_bounds (lo hi : nat) (ks : list nat) :
  drawnBetween lo hi ks -> forall k, In k ks -> (lo <= k < hi)%nat.
Proof.
  revert lo. induction ks as [|k0 ks IH]; intros lo; cbn [drawnBetween].
  - intros _ k [].
  - intros [Hlo Hrest] k [<- | Hin].
    + apply drawnBetween_le in Hrest. lia.
    + specialize (IH _ Hrest k Hin). lia.
Qed.

Lemma drawnBetween_NoDup (lo hi : nat) (ks : list nat) :
  drawnBetween lo hi ks -> List.NoDup ks.
Proof.
  revert lo. induction ks as [|k ks IH]; intros lo; cbn [drawnBetween].
  - intros _. constructor.
  - intros [_ Hrest]. constructor; [|exact (IH _ Hrest)].
    intros Hin. pose proof (drawnBetween_bounds _ _ _ Hrest k Hin). lia.
Qed.

Lemma logStep_refl (s : Engine V) : logStep uuid s s.
Proof. exists [], []. cbn. rewrite app_nil_r. repeat split. lia. Qed.

Lemma logStep_trans (s1 s2 s3 : Engine V) :
  logStep uuid s1 s2 -> logStep uuid s2 s3 -> logStep uuid s1 s3.
Proof.
  intros (ev & ks & Hev & Hids & Hks) (ev' & ks' & Hev' & Hids' & Hks').
  exists (ev ++ ev'), (ks ++ ks').
  split; [now rewrite Hev', Hev, app_assoc|].
  split; [now rewrite !map_app, Hids, Hids'|].
  eapply drawnBetween_app; eassumption.
Qed.

Lemma emitEvent_logStep cat ty (pl : list (string * PayloadValue V)) actor target :
  preserves (logStep uuid) (emitEvent uuid now cat ty pl actor target).
Proof.
  intros s r s' Hrun. rewrite emitEvent_run in Hrun. injection Hrun as _ <-.
  eexists [_], [uuidCalls s]. cbn. repeat split; lia.
Qed.

Ltac logStep_leaf :=
  unfold putFirstWorldState;
  repeat match goal with
         | |- context [match ?x with _ => _ end] => destruct x
         end;
  exists [], []; cbn; rewrite app_nil_r; repeat split; lia.

(** Decompose a [preserves] goal down to the events emitted and the other
    primitive state updates. *)
Ltac preserves_events Hrefl Htrans emit leaf :=
  unfold executeFrame, observeAgent, collectAction, resolveAction, transition,
    processChoice, recordChoice, applyOne, completeSpool, advanceToEncounter,
    enterSpool, complete, takeSnapshot, createSimulation, start, loadStoryworld,
    buildAgentView;
  repeat lazymatch goal with
    | |- preserves _ (emitEvent _ _ _ _ _ _ _) => apply emit
    | |- preserves _ (modify _) => intros ? ? ? [= _ <-]; leaf
    | |- preserves _ (freshUuid _) => intros ? ? ? [= _ <-]; leaf
    | |- preserves _ (newDate _) => intros ? ? ? [= _ <-]; leaf
    | |- _ => preserves_step Hrefl Htrans
    end.

Lemma publicCall_logStep (s s' : Engine V) :
  publicCall uuid now s s' -> logStep uuid s s'.
Proof.
  intros [sw | name swIds agentSpecs expId | | handler | reason | ].
  - assert (Hc : preserves (logStep uuid) (loadStoryworld (V := V) sw))
      by preserves_events logStep_refl logStep_trans emitEvent_logStep logStep_leaf.
    eapply Hc. apply surjective_pairing.
  - assert (Hc : preserves (logStep uuid)
                   (createSimulation uuid now name swIds agentSpecs expId))
      by preserves_events logStep_refl logStep_trans emitEvent_logStep logStep_leaf.
    eapply Hc. apply surjective_pairing.
  - assert (Hc : preserves (logStep uuid) (start (V := V) uuid now))
      by preserves_events logStep_refl logStep_trans emitEvent_logStep logStep_leaf.
    eapply Hc. apply surjective_pairing.
  - assert (Hc : preserves (logStep uuid) (executeFrame uuid now handler))
      by preserves_events logStep_refl logStep_trans emitEvent_logStep logStep_leaf.
    eapply Hc. apply surjective_pairing.
  - assert (Hc : preserves (logStep uuid) (complete (V := V) uuid now reason))
      by preserves_events logStep_refl logStep_trans emitEvent_logStep logStep_leaf.
    eapply Hc. apply surjective_pairing.
  - rewrite exportSessionOutcomes_run. exists [], []. cbn.
    rewrite app_nil_r. repeat split. lia.
Qed.

(** X18.  The event log is append-only, and event ids are never reused.
    In every state reached by calls of the public methods, the ids of the
    logged events are, in log order, ids the generator gave at increasing
    positions of its sequence, all before its next call: so no two events
    share the position of their id, and a call of a public method, returning
    or throwing, keeps the log it found as a prefix of the log it leaves. *)
Theorem reachable_log_append_only (s : Engine V) :
  reachable uuid now s ->
  (exists ks,
     map ev_id (events s) = map uuid ks /\
     drawnBetween 0 (uuidCalls s) ks /\ List.NoDup ks) /\
  (forall s', publicCall uuid now s s' ->
     exists added, events s' = events s ++ added).
Proof.
  intros Hreach. split.
  - assert (Hks : exists ks, map ev_id (events s) = map uuid ks /\
                             drawnBetween 0 (uuidCalls s) ks).
    { induction Hreach as [cfg | s s' _ IH Hcall].
      - exists []. cbn. split; [reflexivity | lia].
      - destruct IH as (ks & Hids & Hks).
        destruct (publicCall_logStep s s' Hcall) as (ev & ks' & Hev & Hids' & Hks').
        exists (ks ++ ks'). split; [now rewrite Hev, !map_app, Hids, Hids'|].
        eapply drawnBetween_app; eassumption. }
    destruct Hks as (ks & Hids & Hks). exists ks.
    split; [exact Hids|]. split; [exact Hks | exact (drawnBetween_NoDup _ _ _ Hks)].
  - intros s' Hcall.
    destruct (publicCall_logStep s s' Hcall) as (ev & _ & Hev & _).
    now exists ev.
Qed.

(** ** Sessions *)

Lemma forEach_fresh_sessions (agentList : list AgentSlot) :
  forall s : Engine V,
  forEach
    (fun agent =>
       modify (fun s : Engine V =>
         set_sessionData
           (<[agent_id agent := {| startFrame := 0; sd_choices := [] |}]> (sessionData s)) s))
    agentList s
  = (Returned tt,
     set_sessionData
       (fold_left (fun m agent => <[agent_id agent := emptySession]> m) agentList
          (sessionData s)) s).
Proof.
  induction agentList as [|agent rest IH]; intros s; cbn [forEach fold_left].
  - now destruct s.
  - unfold bind at 1, modify at 1. rewrite IH. reflexivity.
Qed.

Lemma lookup_fresh_sessions (agentList : list AgentSlot) (a : string) :
  forall m : gmap string SessionData,
  fold_left (fun m agent => <[agent_id agent := emptySession]> m) agentList m !! a
  = if existsb (String.eqb a) (map agent_id agentList)
    then Some emptySession else m !! a.
Proof.
  induction agentList as [|agent rest IH]; intros m; cbn [fold_left map existsb].
  - reflexivity.
  - rewrite IH. destruct (String.eqb_spec a (agent_id agent)) as [-> | Hne]; cbn [orb].
    + rewrite lookup_insert_eq. now destruct (existsb _ _).
    + rewrite lookup_insert_ne by congruence. reflexivity.
Qed.

Lemma createSimulation_resets_sessions (name : string)
    (swIds : list string) (agentSpecs : list AgentSpec) (expId : option string)
    (s : Engine V) :
  exists sim s',
    createSimulation uuid now name swIds agentSpecs expId s = (Returned sim, s') /\
    map agent_id (agents (simulation s')) = map spec_id agentSpecs /\
    (forall a,
       sessionData s' !! a
       = if existsb (String.eqb a) (map spec_id agentSpecs)
         then Some emptySession else sessionData s !! a).
Proof.
  unfold createSimulation, bind at 1, freshUuid.
  unfold bind at 1, modify at 1. unfold bind at 1.
  rewrite forEach_fresh_sessions.
  unfold bind at 1. rewrite emitEvent_run. unfold bind, get, ret.
  eexists _, _. split; [reflexivity|].
  cbn -[existsb String.eqb fold_left emptySession]. split.
  - rewrite map_map. reflexivity.
  - intros a. rewrite lookup_fresh_sessions, map_map. reflexivity.
Qed.

(** X19.  [createSimulation] always returns, and it resets the simulation
    record and the ledgers of the listed agents but nothing else.  The
    record returned is the new simulation record: a fresh id, the given
    name, storyworld ids and experiment id, status [INITIALIZING], frame 0,
    and one slot per given agent, in order, stamped with the simulation id
    and joined at frame 0.  The storyworld ids are not checked against the
    loaded storyworlds.  World states, storyworlds and configuration are as
    before: variables and spool progress of an earlier simulation carry
    over.  Each listed agent has empty session data, the session data of
    every other agent is as before, and one event, [SIMULATION_CREATED] of
    the new simulation, is added to the log. *)
Theorem createSimulation_resets_record_and_ledgers (name : string)
    (swIds : list string) (agentSpecs : list AgentSpec) (expId : option string)
    (s : Engine V) :
  exists sim s' e,
    createSimulation uuid now name swIds agentSpecs expId s = (Returned sim, s') /\
    simulation s' = sim /\
    sim_id sim = uuid (uuidCalls s) /\ sim_name sim = name /\
    storyworldIds sim = swIds /\ experimentId sim = expId /\
    sim_status sim = INITIALIZING /\ currentFrame sim = 0 /\
    startedAt sim = None /\ completedAt sim = None /\
    map agent_id (agents sim) = map spec_id agentSpecs /\
    map isActive (agents sim) = map spec_isActive agentSpecs /\
    Forall (fun agent => agent_simulationId agent = sim_id sim /\
                         joinedAtFrame agent = 0) (agents sim) /\
    worldStates s' = worldStates s /\ storyworlds s' = storyworlds s /\
    config s' = config s /\
    (forall a,
       sessionData s' !! a
       = if existsb (String.eqb a) (map spec_id agentSpecs)
         then Some emptySession else sessionData s !! a) /\
    events s' = events s ++ [e] /\
    category e = SYSTEM /\ eventType e = "SIMULATION_CREATED" /\
    ev_simulationId e = sim_id sim /\ ev_frame e = 0 /\ actorId e = None.
Proof.
  unfold createSimulation, bind at 1, freshUuid.
  unfold bind at 1, modify at 1. unfold bind at 1.
  rewrite forEach_fresh_sessions.
  unfold bind at 1. rewrite emitEvent_run. unfold bind, get, ret.
  eexists _, _, _. split; [reflexivity|].
  cbn -[existsb String.eqb fold_left emptySession].
  repeat lazymatch goal with |- _ /\ _ => split end; try reflexivity.
  - rewrite map_map. reflexivity.
  - rewrite map_map. reflexivity.
  - apply List.Forall_forall. intros agent Hin. apply in_map_iff in Hin as (spec & <- & _).
    now split.
  - intros a. rewrite lookup_fresh_sessions, map_map. reflexivity.
Qed.

Lemma sessionsKept_refl (s : Engine V) : sessionsKept s s.
Proof. now split. Qed.

Lemma sessionsKept_trans (s1 s2 s3 : Engine V) :
  sessionsKept s1 s2 -> sessionsKept s2 s3 -> sessionsKept s1 s3.
Proof. intros [Ha Hs] [Ha' Hs']. split; [congruence | auto]. Qed.

Ltac sessionsKept_leaf :=
  unfold putFirstWorldState;
  repeat match goal with
         | |- context [match ?x with _ => _ end] => destruct x
         end;
  (split; [reflexivity|]);
  let a := fresh "a" in
  let Ha := fresh "Ha" in
  intros a Ha; cbn;
  lazymatch goal with
  | |- is_Some (<[?k := _]> _ !! _) =>
      destruct (decide (k = a)) as [-> | ?];
      [rewrite lookup_insert_eq; eauto | rewrite lookup_insert_ne by assumption; exact Ha]
  | |- _ => exact Ha
  end.

Lemma agentsHaveSessions_kept (s s' : Engine V) :
  sessionsKept s s' -> agentsHaveSessions s -> agentsHaveSessions s'.
Proof.
  intros [Hagents Hkept] Hhave agent Hin. rewrite Hagents in Hin. auto.
Qed.

Lemma publicCall_agentsHaveSessions (s s' : Engine V) :
  publicCall uuid now s s' -> agentsHaveSessions s -> agentsHaveSessions s'.
Proof.
  intros [sw | name swIds agentSpecs expId | | handler | reason | ].
  - apply agentsHaveSessions_kept. now split.
  - intros _ agent Hin.
    destruct (createSimulation_resets_sessions name swIds agentSpecs expId s)
      as (sim & s1 & Hrun & Hagents & Hsessions).
    rewrite Hrun in Hin |- *. cbn [snd] in Hin |- *.
    rewrite Hsessions.
    assert (Hex : existsb (String.eqb (agent_id agent)) (map spec_id agentSpecs) = true).
    { rewrite <- Hagents. apply existsb_exists. exists (agent_id agent).
      split; [now apply in_map | apply String.eqb_refl]. }
    rewrite Hex. eauto.
  - apply agentsHaveSessions_kept.
    assert (Hc : preserves (@sessionsKept V) (start uuid now))
      by preserves_leaves sessionsKept_refl sessionsKept_trans sessionsKept_leaf.
    eapply Hc. apply surjective_pairing.
  - apply agentsHaveSessions_kept.
    assert (Hc : preserves (@sessionsKept V) (executeFrame uuid now handler))
      by preserves_leaves sessionsKept_refl sessionsKept_trans sessionsKept_leaf.
    eapply Hc. apply surjective_pairing.
  - apply agentsHaveSessions_kept.
    assert (Hc : preserves (@sessionsKept V) (complete uuid now reason))
      by preserves_leaves sessionsKept_refl sessionsKept_trans sessionsKept_leaf.
    eapply Hc. apply surjective_pairing.
  - rewrite exportSessionOutcomes_run. apply agentsHaveSessions_kept. now split.
Qed.

Lemma reachable_agentsHaveSessions (s : Engine V) :
  reachable uuid now s -> agentsHaveSessions s.
Proof.
  induction 1 as [cfg | s s' _ IH Hcall].
  - intros agent [].
  - exact (publicCall_agentsHaveSessions s s' Hcall IH).
Qed.

Lemma outcomesFrom_every_agent (s : Engine V) (agentList : list AgentSlot) :
  (forall agent, In agent agentList -> is_Some (sessionData s !! agent_id agent)) ->
  forall n,
    map so_agentId (outcomesFrom uuid s n agentList) = map agent_id agentList /\
    Forall (fun o =>
              choiceSequence o = ledger s (so_agentId o) /\
              totalChoices o = Z.of_nat (length (choiceSequence o)) /\
              spoolsEntered o = map spoolId (spoolsOf s (so_agentId o)) /\
              incl (spoolsCompleted o) (spoolsEntered o) /\
              endingsReached o = [])
      (outcomesFrom uuid s n agentList).
Proof.
  induction agentList as [|agent rest IH]; intros Hhave n; cbn [outcomesFrom map].
  - split; [reflexivity | constructor].
  - destruct (Hhave agent (or_introl eq_refl)) as [sd Hsd].
    destruct (IH (fun a Ha => Hhave a (or_intror Ha)) (S n)) as [Hids Hall].
    unfold ledger, spoolsOf. rewrite Hsd. cbn [map so_agentId].
    split; [now rewrite Hids|].
    constructor; [|exact Hall].
    cbn. rewrite Hsd. repeat split.
    intros sid Hin. apply in_map_iff in Hin as (p & <- & Hp).
    apply in_map. now apply filter_In in Hp as [Hp _].
Qed.

(** X20.  In every state reached by calls of the public methods,
    [exportSessionOutcomes] returns exactly one outcome per agent slot of
    the simulation, in the order of the slots, each with a fresh session
    id, and it changes nothing in the engine but the number of ids drawn.
    Each outcome carries the agent's whole ledger as its choice sequence
    and the length of that ledger as its number of choices; the spools it
    lists as completed are among those it lists as entered; and the endings
    it lists are always empty. *)
Theorem export_one_outcome_per_agent (s : Engine V) :
  reachable uuid now s ->
  exists outcomes,
    exportSessionOutcomes uuid s
    = (Returned outcomes,
       set_uuidCalls (uuidCalls s + length (agents (simulation s))) s) /\
    map so_agentId outcomes = map agent_id (agents (simulation s)) /\
    map sessionId outcomes
    = map uuid (seq (uuidCalls s) (length (agents (simulation s)))) /\
    Forall (fun o =>
              choiceSequence o = ledger s (so_agentId o) /\
              totalChoices o = Z.of_nat (length (choiceSequence o)) /\
              spoolsEntered o = map spoolId (spoolsOf s (so_agentId o)) /\
              incl (spoolsCompleted o) (spoolsEntered o) /\
              endingsReached o = [])
      outcomes.
Proof.
  intros Hreach. apply reachable_agentsHaveSessions in Hreach.
  destruct (outcomesFrom_every_agent s (agents (simulation s)) Hreach (uuidCalls s))
    as [Hids Hall].
  assert (Hlen : length (outcomesFrom uuid s (uuidCalls s) (agents (simulation s)))
                 = length (agents (simulation s))).
  { rewrite <- (length_map so_agentId), Hids. apply length_map. }
  exists (outcomesFrom uuid s (uuidCalls s) (agents (simulation s))).
  split; [rewrite exportSessionOutcomes_run; now rewrite Hlen|].
  split; [exact Hids|].
  split; [rewrite outcomesFrom_ids; now rewrite Hlen | exact Hall].
Qed.

(** ** The events of a resolved choice *)

Lemma traced_nil (a : string) (s s' : Engine V) :
  simulation s' = simulation s -> storyworlds s' = storyworlds s ->
  events s' = events s -> traced a [] s s'.
Proof.
  intros Hsim Hsws Hev. split; [exact Hsim|]. split; [exact Hsws|].
  exists []. rewrite app_nil_r. now repeat split.
Qed.

Lemma traced_app (a : string) tr1 tr2 (s1 s2 s3 : Engine V) :
  traced a tr1 s1 s2 -> traced a tr2 s2 s3 -> traced a (tr1 ++ tr2) s1 s3.
Proof.
  intros (Hsim & Hsws & ev & Hev & Hsaid & Hall)
         (Hsim' & Hsws' & ev' & Hev' & Hsaid' & Hall').
  split; [congruence|]. split; [congruence|].
  exists (ev ++ ev'). split; [now rewrite Hev', Hev, app_assoc|].
  split; [now rewrite map_app, Hsaid, Hsaid'|].
  apply Forall_app. split; [exact Hall|].
  rewrite Hsim in Hall'. exact Hall'.
Qed.

Lemma traced_put_emit (a : string) (ws' : WorldState V) cat ty pl (s : Engine V) :
  traced a [(cat, ty, pl)] s
    (emitted (eventAt uuid now (putFirstWorldState ws' s) cat ty pl (Some a) None)
       (putFirstWorldState ws' s)).
Proof.
  unfold putFirstWorldState.
  destruct (head (storyworldIds (simulation s)));
    (split; [reflexivity|]; split; [reflexivity|];
     eexists [_]; split; [reflexivity|]; split; [reflexivity|];
     now repeat constructor).
Qed.

Lemma traced_emit (a : string) cat ty pl (s : Engine V) :
  traced a [(cat, ty, pl)] s (emitted (eventAt uuid now s cat ty pl (Some a) None) s).
Proof.
  split; [reflexivity|]. split; [reflexivity|].
  eexists [_]. split; [reflexivity|]. split; [reflexivity|]. now repeat constructor.
Qed.

Lemma forEach_applyOne_traced agentId (ms : list (VariableMutation V)) :
  forall (s : Engine V) (ws ws2 : WorldState V),
  firstWorldState s = Some ws ->
  applyMutations ws ms agentId = Some ws2 ->
  exists s',
    forEach (applyOne uuid now agentId) ms s = (Returned tt, s') /\
    firstWorldState s' = Some ws2 /\
    traced agentId
      (map (fun mutation =>
              (STATE, "VARIABLE_CHANGED",
               [("variableId", PString (mut_variableId mutation));
                ("operation", PString (operation mutation));
                ("value", PUnknown (mut_value mutation))])) ms)
      s s'.
Proof.
  induction ms as [|m ms IH]; intros s ws ws2 Hws; cbn [forEach applyMutations map].
  - intros [= <-]. exists s. split; [reflexivity|]. split; [exact Hws|].
    now apply traced_nil.
  - destruct (applyMutation ws m agentId) as [ws1|] eqn:Hm; [|discriminate].
    intros Hrest. unfold bind at 1. rewrite (applyOne_run s ws agentId m Hws), Hm.
    match goal with
    | |- context [forEach _ ms ?s1] =>
        destruct (IH s1 ws1 ws2 (firstWorldState_put s ws ws1 Hws) Hrest)
          as (s' & Hloop & Hws' & Htr)
    end.
    exists s'. split; [exact Hloop|]. split; [exact Hws'|].
    eapply (traced_app agentId [_] _ s _ s'); [apply traced_put_emit | exact Htr].
Qed.

(** X21.  The events of a resolved choice.  When the submitted id is the
    id of a choice of the loaded storyworld and no mutation of the choice
    throws, [processChoice] returns and appends to the log, in this order:
    one [VARIABLE_CHANGED] per mutation of the choice, in the order of the
    mutations, also for a mutation whose variable does not exist;
    [CHOICE_MADE]; and the event of the narrative transition:
    [SPOOL_COMPLETED] for a terminal choice, also when the agent has no
    entry of that spool, else [ENCOUNTER_STARTED] for a next encounter, else
    [SPOOL_ENTERED] for a next spool that the storyworld declares, and
    nothing otherwise.  Every one of these events has the agent as actor, no
    target, and the id and the frame of the simulation. *)
Theorem processChoice_event_trace (agentId choiceId : string)
    (s : Engine V) (sw : Storyworld V) (ws ws2 : WorldState V)
    (ch : Choice V) (enc : Encounter V) :
  firstStoryworld s = Some sw ->
  firstWorldState s = Some ws ->
  findChoice (encounters sw) choiceId = Some (ch, enc) ->
  applyMutations ws (mutations ch) agentId = Some ws2 ->
  exists s' added,
    processChoice uuid now agentId choiceId s = (Returned tt, s') /\
    events s' = events s ++ added /\
    map said added = choiceTrace sw enc ch /\
    Forall (fun e => actorId e = Some agentId /\ targetId e = None /\
                     ev_simulationId e = sim_id (simulation s) /\
                     ev_frame e = currentFrame (simulation s)) added.
Proof.
  intros Hsw Hws Hfound Hms.
  rewrite (processChoice_found s sw ws agentId choiceId ch enc Hsw Hws Hfound).
  destruct (recordChoice_ledger s agentId agentId
              (ledgerEntry (currentFrame (simulation s)) enc ch choiceId))
    as (s1 & Hrec & _).
  assert (H1 : firstWorldState s1 = Some ws /\ traced agentId [] s s1).
  { injection Hrec as <-.
    destruct (sessionData s !! agentId); (split; [exact Hws | now apply traced_nil]). }
  destruct H1 as [Hws1 Htr1].
  destruct (forEach_applyOne_traced agentId (mutations ch) s1 ws ws2 Hws1 Hms)
    as (s2 & Hloop & Hws2 & Htr2).
  unfold bind at 1. rewrite Hrec. unfold bind at 1. rewrite Hloop.
  unfold bind at 1. rewrite emitEvent_run.
  match goal with
  | |- context [emitted ?e s2] =>
      pose proof (traced_emit agentId NARRATIVE "CHOICE_MADE"
                    [("encounterId", PString (enc_id enc));
                     ("choiceId", PString (choice_id ch));
                     ("choiceText", PString (text ch))] s2) as Htr3;
      remember (emitted e s2) as s3 eqn:Hs3
  end.
  assert (Hws3 : firstWorldState s3 = Some ws2) by (subst s3; exact Hws2).
  assert (Htr03 : traced agentId
                    (map (fun mutation =>
                            (STATE, "VARIABLE_CHANGED",
                             [("variableId", PString (mut_variableId mutation));
                              ("operation", PString (operation mutation));
                              ("value", PUnknown (mut_value mutation))]))
                       (mutations ch) ++
                     [(NARRATIVE, "CHOICE_MADE",
                       [("encounterId", PString (enc_id enc));
                        ("choiceId", PString (choice_id ch));
                        ("choiceText", PString (text ch))])]) s s3).
  { apply (traced_app agentId _ _ s s2 s3); [|exact Htr3].
    apply (traced_app agentId [] _ s s1 s2 Htr1 Htr2). }
  assert (Hsw3 : firstStoryworld s3 = Some sw).
  { destruct Htr03 as (Hsim & Hsws & _). unfold firstStoryworld.
    rewrite Hsim, Hsws. exact Hsw. }
  clear Hs3 Htr3 Htr2 Htr1 Hloop Hrec.
  assert (Hlast : exists s' last,
            match isTerminal ch with
            | Some true => completeSpool uuid now agentId (enc_spoolId enc)
            | _ =>
                if truthy (nextEncounterId ch) then
                  advanceToEncounter uuid now agentId (orElse (nextEncounterId ch) "")
                else if truthy (nextSpoolId ch) then
                  enterSpool uuid now agentId (orElse (nextSpoolId ch) "")
                else ret tt
            end s3 = (Returned tt, s') /\
            traced agentId last s3 s' /\
            choiceTrace sw enc ch
            = (map (fun mutation =>
                      (STATE, "VARIABLE_CHANGED",
                       [("variableId", PString (mut_variableId mutation));
                        ("operation", PString (operation mutation));
                        ("value", PUnknown (mut_value mutation))]))
                 (mutations ch) ++
               [(NARRATIVE, "CHOICE_MADE",
                 [("encounterId", PString (enc_id enc));
                  ("choiceId", PString (choice_id ch));
                  ("choiceText", PString (text ch))])]) ++ last).
  { unfold choiceTrace.
    assert (Hcomplete : exists s',
              completeSpool uuid now agentId (enc_spoolId enc) s3 = (Returned tt, s') /\
              traced agentId
                [(NARRATIVE, "SPOOL_COMPLETED", [("spoolId", PString (enc_spoolId enc))])]
                s3 s').
    { unfold completeSpool, bind at 1, get. rewrite Hws3.
      unfold bind, modify. rewrite emitEvent_run.
      eexists. split; [reflexivity | apply traced_put_emit]. }
    assert (Hother : exists s' last,
              (if truthy (nextEncounterId ch) then
                 advanceToEncounter uuid now agentId (orElse (nextEncounterId ch) "")
               else if truthy (nextSpoolId ch) then
                 enterSpool uuid now agentId (orElse (nextSpoolId ch) "")
               else ret tt) s3 = (Returned tt, s') /\
              traced agentId last s3 s' /\
              (if truthy (nextEncounterId ch) then
                 [(NARRATIVE, "ENCOUNTER_STARTED",
                   [("encounterId", PString (orElse (nextEncounterId ch) ""))])]
               else if truthy (nextSpoolId ch) then
                 match find (fun sp => String.eqb (spool_id sp)
                                         (orElse (nextSpoolId ch) ""))
                         (spools sw) with
                 | Some _ =>
                     [(NARRATIVE, "SPOOL_ENTERED",
                       [("spoolId", PString (orElse (nextSpoolId ch) ""))])]
                 | None => []
                 end
               else []) = last).
    { destruct (truthy (nextEncounterId ch)).
      - unfold advanceToEncounter, bind at 1, get. rewrite Hws3.
        unfold bind, modify. rewrite emitEvent_run.
        eexists _, _. split; [reflexivity|]. split; [apply traced_put_emit | reflexivity].
      - destruct (truthy (nextSpoolId ch)).
        + unfold enterSpool, bind at 1, get. rewrite Hsw3, Hws3.
          destruct (find _ (spools sw)) as [spool|].
          * unfold bind, modify. rewrite emitEvent_run.
            eexists _, _. split; [reflexivity|].
            split; [apply traced_put_emit | reflexivity].
          * eexists _, _. split; [reflexivity|].
            split; [now apply traced_nil | reflexivity].
        + eexists _, _. split; [reflexivity|].
          split; [now apply traced_nil | reflexivity]. }
    destruct (isTerminal ch) as [[|]|].
    - destruct Hcomplete as (s' & Hrun & Htr). eexists s', _.
      split; [exact Hrun|]. split; [exact Htr|]. now rewrite <- app_assoc.
    - destruct Hother as (s' & last & Hrun & Htr & <-). eexists s', _.
      split; [exact Hrun|]. split; [exact Htr|]. now rewrite <- app_assoc.
    - destruct Hother as (s' & last & Hrun & Htr & <-). eexists s', _.
      split; [exact Hrun|]. split; [exact Htr|]. now rewrite <- app_assoc. }
  destruct Hlast as (s' & last & Hrun & Htr & ->).
  destruct (traced_app agentId _ _ s s3 s' Htr03 Htr) as (_ & _ & added & Hev & Hsaid & Hall).
  exists s', added. split; [exact Hrun|]. split; [exact Hev|]. split; [exact Hsaid | exact Hall].
Qed.

(** ** The history of an engine-built view *)

Lemma slice_last_map {A B} (f : A -> B) (n : nat) (xs : list A) :
  slice_last n (map f xs) = map f (slice_last n xs).
Proof. unfold slice_last. now rewrite length_map, skipn_map. Qed.

Lemma slice_last_twice {A} (m n : nat) (xs : list A) :
  (m <= n)%nat -> slice_last m (slice_last n xs) = slice_last m xs.
Proof.
  intros Hmn. unfold slice_last. rewrite length_skipn, skipn_skipn.
  f_equal. lia.
Qed.

Lemma filter_ownOrGlobal_engine (agentId : string) (evs : list (SimulationEvent V)) :
  List.filter (ownOrGlobal agentId) (map asNarrativeEvent evs) = map asNarrativeEvent evs.
Proof.
  induction evs as [|e evs IH]; [reflexivity|].
  cbn [map List.filter]. unfold ownOrGlobal at 1. cbn [asNarrativeEvent ne_agentId].
  replace (opt_is None agentId || negb (truthy None)) with true
    by (now rewrite orb_true_r).
  now rewrite IH.
Qed.

(** X22.  The recent history of a view the engine builds.  Building a view
    changes nothing in the engine.  The history of the view is made of the
    last ten logged events that have the agent as actor or no actor (an
    absent or empty actor id), in log order: the second filter of the view
    builder lets every such event pass, and of the twenty events the engine
    hands over only the last ten are kept.  The summary of an entry never
    names an encounter, a spool or a variable: where the template prints
    one, it prints [undefined], because the logged events carry these ids in
    their payload only. *)
Theorem engine_view_history (agentId : string) (s s' : Engine V) (view : AgentView V) :
  buildAgentView agentId s = (Returned view, s') ->
  s' = s /\
  recentHistory view
  = map (fun e => historyEntry (asNarrativeEvent e))
      (slice_last 10 (List.filter (actedOrSystem agentId) (events s))) /\
  (length (recentHistory view) <= 10)%nat /\
  (forall h, In h (recentHistory view) ->
     he_summary h
     = if String.eqb (he_event h) "CHOICE_MADE" then "Made choice in undefined"
       else if String.eqb (he_event h) "SPOOL_ENTERED"
            then "Entered narrative thread: undefined"
       else if String.eqb (he_event h) "SPOOL_COMPLETED"
            then "Completed narrative thread: undefined"
       else if String.eqb (he_event h) "VARIABLE_CHANGED"
            then "World state changed: undefined"
       else he_event h).
Proof.
  intros Hview. split; [exact (buildAgentView_unchanged agentId s s' _ Hview)|].
  revert Hview. unfold buildAgentView, bind, get.
  destruct (firstStoryworld s) as [sw|]; [|discriminate].
  destruct (firstWorldState s) as [ws|]; [|discriminate].
  intros [= <- _]. cbn [buildView recentHistory].
  assert (Hhistory :
    buildRecentHistory agentId
      (map asNarrativeEvent
         (slice_last 20 (List.filter (actedOrSystem agentId) (events s))))
    = map (fun e => historyEntry (asNarrativeEvent e))
        (slice_last 10 (List.filter (actedOrSystem agentId) (events s)))).
  { unfold buildRecentHistory. rewrite filter_ownOrGlobal_engine, slice_last_map.
    rewrite slice_last_twice by lia. now rewrite map_map. }
  rewrite Hhistory. split; [reflexivity|]. split.
  - rewrite length_map, slice_last_length. lia.
  - intros h Hh. apply in_map_iff in Hh as (e & <- & _).
    unfold historyEntry, summarizeEvent.
    cbn [he_summary he_event asNarrativeEvent ne_eventType ne_encounterId
         ne_spoolId ne_variableId interpolate].
    reflexivity.
Qed.

(** ** Completion *)

(** X23.  [complete] ends the simulation whatever its status: it checks
    nothing and always returns.  Afterwards the status is [COMPLETED] and
    the completion time is set; the current frame, the agents, the world
    states and the session data are as before; one [SIMULATION_COMPLETED]
    event carrying the reason is added to the log; and until a new
    simulation is created [executeFrame] throws [Simulation not running] and
    [start] throws [Cannot start simulation in COMPLETED status], both
    without changing anything. *)
Theorem complete_ends_simulation (reason : option string) (s : Engine V) :
  exists s1 e,
    complete uuid now reason s = (Returned tt, s1) /\
    sim_status (simulation s1) = SIM_COMPLETED /\
    completedAt (simulation s1) = Some (now (clockReads s)) /\
    currentFrame (simulation s1) = currentFrame (simulation s) /\
    agents (simulation s1) = agents (simulation s) /\
    worldStates s1 = worldStates s /\ sessionData s1 = sessionData s /\
    events s1 = events s ++ [e] /\
    category e = SYSTEM /\ eventType e = "SIMULATION_COMPLETED" /\
    actorId e = None /\
    payload e
    = [("reason", match reason with Some r => PString r | None => PAbsent end)] /\
    (forall handler,
       executeFrame uuid now handler s1 = (Thrown "Simulation not running", s1)) /\
    start uuid now s1 = (Thrown "Cannot start simulation in COMPLETED status", s1).
Proof.
  unfold complete, bind at 1, modify at 1. unfold bind at 1, newDate.
  unfold bind at 1, modify at 1. rewrite emitEvent_run.
  eexists _, _. split; [reflexivity|].
  cbn. repeat split.
Qed.

(** ** The frame limit *)





End Properties.

(** * The properties on the trust storyworld *)

(** Closed facts about concrete runs, one conjunct at a time. *)
Ltac conjuncts_by_computation :=
  lazymatch goal with
  | |- _ /\ _ => split; [conjuncts_by_computation | conjuncts_by_computation]
  | |- _ => vm_compute; reflexivity
  end.

Lemma executeFrame_frame_monotonic_witness :
  let handlers := [Trust.choose [("a", "join")]; Trust.choose []] in
  let s' := Trust.frameWith [] (Trust.frameWith [("a", "join")] Trust.running) in
  forEach (executeFrame Trust.uuid Trust.now) handlers Trust.running = (Returned tt, s') /\
  frameValues Trust.uuid Trust.now handlers Trust.running
    = map (fun k => currentFrame (simulation Trust.running) + Z.of_nat k)
        (seq 1 (length handlers)) /\
  currentFrame (simulation s')
    = currentFrame (simulation Trust.running) + Z.of_nat (length handlers) /\
  framesOf s' = (fun f => f + Z.of_nat (length handlers)) <$> framesOf Trust.running.
Proof.
  intros handlers s'.
  assert (Hrun : forEach (executeFrame Trust.uuid Trust.now) handlers Trust.running
                 = (Returned tt, s')) by (vm_compute; reflexivity).
  split; [exact Hrun|].
  exact (executeFrame_frame_monotonic Trust.uuid Trust.now handlers Trust.running s' Hrun).
Defined.

(** Frame values of the two calls above: 1, then 2. *)
Example trust_frame_values :
  frameValues Trust.uuid Trust.now
    [Trust.choose [("a", "join")]; Trust.choose []] Trust.running = [1; 2].
Proof. vm_compute. reflexivity. Qed.

(** C3, counterexample.  Conditions the schema rejects (an unknown
    operator, a [NOT] whose child list is missing, a [NOT] whose child list
    is empty) evaluate to [true]; the evaluator returns a boolean and has
    no [MalformedGate] result. *)
Lemma malformed_gate_passes :
  let ws := newWorldState Trust.world in
  evaluateCondition Trust.xor ws (Some "a") = true /\
  evaluateCondition Trust.not_without_children ws (Some "a") = true /\
  evaluateCondition Trust.not_of_nothing ws (Some "a") = true.
Proof. repeat split. Qed.

Lemma malformed_condition_is_open_witness :
  malformed Trust.xor /\
  evaluateCondition Trust.xor (newWorldState Trust.world) (Some "a") = true.
Proof.
  assert (Hbad : malformed Trust.xor) by (left; reflexivity).
  split; [exact Hbad|].
  exact (malformed_condition_is_open Trust.xor (newWorldState Trust.world) (Some "a") Hbad).
Defined.

Lemma processChoice_invalid_choice_witness :
  firstStoryworld Trust.running = Some Trust.world /\
  firstWorldState Trust.running = Some (Trust.worldOf Trust.running) /\
  findChoice (encounters Trust.world) "surrender" = None /\
  exists e s',
    processChoice Trust.uuid Trust.now "a" "surrender" Trust.running = (Returned tt, s') /\
    events s' = (events Trust.running ++ [e])%list /\
    category e = SYSTEM /\ eventType e = "INVALID_CHOICE" /\
    actorId e = Some "a" /\ payload e = [("choiceId", PString "surrender")] /\
    worldStates s' = worldStates Trust.running /\
    sessionData s' = sessionData Trust.running /\
    simulation s' = simulation Trust.running /\
    storyworlds s' = storyworlds Trust.running.
Proof.
  assert (Hsw : firstStoryworld Trust.running = Some Trust.world)
    by (vm_compute; reflexivity).
  assert (Hws : firstWorldState Trust.running = Some (Trust.worldOf Trust.running))
    by (vm_compute; reflexivity).
  assert (Hnone : findChoice (encounters Trust.world) "surrender" = None)
    by reflexivity.
  split; [exact Hsw|]. split; [exact Hws|]. split; [exact Hnone|].
  exact (processChoice_invalid_choice Trust.uuid Trust.now "a" "surrender"
           Trust.running Trust.world (Trust.worldOf Trust.running) Hsw Hws
           (proj1 (findChoice_None (encounters Trust.world) "surrender") Hnone)).
Defined.

Lemma processChoice_ledger_complete_witness :
  let s' := Trust.exec (processChoice Trust.uuid Trust.now "a" "propose") Trust.running in
  processChoice Trust.uuid Trust.now "a" "propose" Trust.running = (Returned tt, s') /\
  forall agent, exists added,
    ledger s' agent = (ledger Trust.running agent ++ added)%list /\
    forall e, In e added ->
      agent = "a" /\
      exists sw, firstStoryworld Trust.running = Some sw /\ entryComplete sw "propose" e.
Proof.
  intros s'.
  assert (Hrun : processChoice Trust.uuid Trust.now "a" "propose" Trust.running
                 = (Returned tt, s')) by (vm_compute; reflexivity).
  split; [exact Hrun|].
  exact (processChoice_ledger_complete Trust.uuid Trust.now "a" "propose"
           Trust.running s' (Returned tt) Hrun).
Defined.

(** The entry recorded for [propose] lists both choices of [offer],
    although the gate of [propose] is closed. *)
Example trust_ledger_entry :
  ledger (Trust.exec (processChoice Trust.uuid Trust.now "a" "propose") Trust.running) "a"
  = [{| se_frame := 0; se_encounterId := "offer"; se_choiceId := "propose";
        se_availableChoices := ["propose"; "decline"]; choiceIndex := 0 |}].
Proof. vm_compute. reflexivity. Qed.

(** C6, counterexample.  With a generator whose ids are pairwise different,
    two exports in a row of the running trust simulation return different
    lists: the session ids of the first are [id-3] and [id-4], those of the
    second [id-5] and [id-6]. *)
Lemma export_twice_not_identical :
  let first := exportSessionOutcomes Trust.uuid Trust.running in
  let second := exportSessionOutcomes Trust.uuid (snd first) in
  fst first <> fst second /\
  (exists o1, fst first = Returned o1 /\ map sessionId o1 = ["id-3"; "id-4"]) /\
  (exists o2, fst second = Returned o2 /\ map sessionId o2 = ["id-5"; "id-6"]).
Proof.
  cbv zeta. split; [|split].
  - vm_compute. intros Heq. discriminate Heq.
  - eexists. split; [vm_compute; reflexivity | vm_compute; reflexivity].
  - eexists. split; [vm_compute; reflexivity | vm_compute; reflexivity].
Qed.

(** C7, counterexample.  Agent [a] has two [ACTIVE] entries, [alliance] at
    [offer] and [rivalry] at [duel].  Resolving [propose], which is not
    terminal and names [negotiate], moves both entries to [negotiate]: the
    second [ACTIVE] entry is not left unchanged, and the result is not the
    update of the first [ACTIVE] entry only. *)
Lemma next_encounter_moves_second_active_entry :
  let before := getAgentSpools (Trust.worldOf Trust.twoActive) "a" in
  let s' := Trust.exec (processChoice Trust.uuid Trust.now "a" "propose") Trust.twoActive in
  let after := getAgentSpools (Trust.worldOf s') "a" in
  processChoice Trust.uuid Trust.now "a" "propose" Trust.twoActive = (Returned tt, s') /\
  map (fun p => (spoolId p, status p, currentEncounterId p)) before
  = [("alliance", ACTIVE, Some "offer"); ("rivalry", ACTIVE, Some "duel")] /\
  map (fun p => (spoolId p, status p, currentEncounterId p)) after
  = [("alliance", ACTIVE, Some "negotiate"); ("rivalry", ACTIVE, Some "negotiate")] /\
  nth_error after 1 <> nth_error before 1 /\
  after <> advanceFirstActive "negotiate" before.
Proof.
  cbv zeta. split; [vm_compute; reflexivity|].
  split; [vm_compute; reflexivity|]. split; [vm_compute; reflexivity|].
  split; vm_compute; intros Heq; discriminate Heq.
Qed.

Lemma next_encounter_moves_every_active_entry_witness :
  let s' := Trust.exec (processChoice Trust.uuid Trust.now "a" "propose") Trust.twoActive in
  exists ws' e earlier,
    firstWorldState s' = Some ws' /\
    getAgentSpools ws' "a"
    = advanceEveryActive "negotiate" (getAgentSpools (Trust.worldOf Trust.twoActive) "a") /\
    (forall other, other <> "a" ->
       getAgentSpools ws' other = getAgentSpools (Trust.worldOf Trust.twoActive) other) /\
    events s' = (earlier ++ [e])%list /\
    category e = NARRATIVE /\ eventType e = "ENCOUNTER_STARTED" /\
    actorId e = Some "a" /\ payload e = [("encounterId", PString "negotiate")].
Proof.
  intros s'.
  refine (next_encounter_moves_every_active_entry Trust.uuid Trust.now "a" "propose"
            Trust.twoActive s' Trust.world (Trust.worldOf Trust.twoActive)
            Trust.propose Trust.offer "negotiate" _ _ _ _ _ _ _).
  - vm_compute; reflexivity.
  - vm_compute; reflexivity.
  - reflexivity.
  - intros Heq; discriminate Heq.
  - reflexivity.
  - intros Heq; discriminate Heq.
  - vm_compute; reflexivity.
Defined.

(** C8, at the failing input.  Agent [a] has joined the alliance and
    declined the offer, a terminal choice: its only progress entry is
    [COMPLETED].  The view still has [offer] as current encounter, taken
    from that entry, where resolving from [ACTIVE] entries gives none. *)
Lemma completed_spool_supplies_current_encounter :
  exists view,
    buildAgentView "a" Trust.declined = (Returned view, Trust.declined) /\
    map (fun p => (spoolId p, status p, currentEncounterId p)) (activeSpools view)
    = [("alliance", COMPLETED, Some "offer")] /\
    currentEncounter view = Some Trust.offer /\
    currentEncounterOfActive Trust.world "a" (activeSpools view) = None.
Proof.
  eexists. split; [vm_compute; reflexivity|].
  repeat split.
Qed.

(** C9, counterexample.  The id [sabotage] is the id of a choice of the
    storyworld, and resolving it does not apply the choice: its second
    mutation appends to a number, which throws.  The call throws after the
    ledger entry is recorded and the first mutation applied ([trust_level]
    is 55); the only event logged is the [VARIABLE_CHANGED] of the first
    mutation, there is no [CHOICE_MADE], and the spool [rivalry] the choice
    names is not entered. *)
Lemma throwing_mutation_stops_existing_choice :
  let s := Runs.riggedRun in
  let ws := Trust.worldOf s in
  let run := processChoice Trust.uuid Trust.now "a" "sabotage" s in
  let ws' := Trust.worldOf (snd run) in
  firstStoryworld s = Some Runs.rigged /\
  firstWorldState s = Some ws /\
  findChoice (encounters Runs.rigged) "sabotage"
  = Some (Runs.sabotage, Runs.riggedCrossroads) /\
  applyMutations ws (mutations Runs.sabotage) "a" = None /\
  fst run = Thrown "TypeError" /\
  map se_choiceId (ledger (snd run) "a") = ["sabotage"] /\
  option_map value (getVariable ws' "trust_level") = Some (JNum 55) /\
  map eventType (skipn (length (events s)) (events (snd run))) = ["VARIABLE_CHANGED"] /\
  getAgentSpools ws' "a" = [] /\
  map spoolId
    (transitionSpools Runs.rigged (currentFrame (simulation s)) "a"
       Runs.riggedCrossroads Runs.sabotage (getAgentSpools ws "a"))
  = ["rivalry"].
Proof.
  cbv zeta. conjuncts_by_computation.
Qed.

Lemma processChoice_applies_any_existing_choice_witness :
  let s := Runs.joined in
  let ws := Trust.worldOf s in
  (* [a] is at the encounter [offer]; the gate of [propose] is closed and
     the view of [a] offers [decline] only *)
  (evaluate Trust.world "high_trust" ws (Some "a") = false /\
   exists view,
     buildAgentView "a" s = (Returned view, s) /\
     option_map enc_id (currentEncounter view) = Some "offer" /\
     map choice_id (availableChoices view) = ["decline"]) /\
  (* what the transition of [propose] makes of the progress of [a] *)
  map (fun p => (spoolId p, status p, currentEncounterId p))
    (transitionSpools Trust.world (currentFrame (simulation s)) "a"
       Trust.offer Trust.propose (getAgentSpools ws "a"))
  = [("alliance", ACTIVE, Some "negotiate")] /\
  exists s' ws',
    processChoice Trust.uuid Trust.now "a" "propose" s = (Returned tt, s') /\
    ledger s' "a"
    = (ledger s "a" ++
       match sessionData s !! "a" with
       | Some _ =>
           [ledgerEntry (currentFrame (simulation s))
              Trust.offer Trust.propose "propose"]
       | None => []
       end)%list /\
    firstWorldState s' = Some ws' /\
    ws_variables ws'
    = ws_variables
        (setVariable ws "trust_level" (JNum 75) (Some "a")) /\
    getAgentSpools ws' "a"
    = transitionSpools Trust.world (currentFrame (simulation s)) "a"
        Trust.offer Trust.propose (getAgentSpools ws "a").
Proof.
  intros s ws. split; [|split].
  - split; [vm_compute; reflexivity|].
    eexists. split; [vm_compute; reflexivity|]. split; reflexivity.
  - vm_compute. reflexivity.
  - refine (processChoice_applies_any_existing_choice Trust.uuid Trust.now
              "a" "propose" s Trust.world ws
              (setVariable ws "trust_level" (JNum 75) (Some "a"))
              Trust.propose Trust.offer _ _ _ _).
    + vm_compute; reflexivity.
    + vm_compute; reflexivity.
    + reflexivity.
    + vm_compute; reflexivity.
Defined.

(** After [propose] is resolved for [a]: the ledger holds both choices of
    [a], [trust_level] is 75, and the entry of [a] is at [negotiate]. *)
Example joined_then_propose :
  let s' := Trust.exec (processChoice Trust.uuid Trust.now "a" "propose") Runs.joined in
  map se_choiceId (ledger s' "a") = ["join"; "propose"] /\
  option_map value (getVariable (Trust.worldOf s') "trust_level") = Some (JNum 75) /\
  map (fun p => (spoolId p, status p, currentEncounterId p))
    (getAgentSpools (Trust.worldOf s') "a")
  = [("alliance", ACTIVE, Some "negotiate")].
Proof. cbv zeta. conjuncts_by_computation. Qed.

(** The same choice resolved for an agent that has entered no spool and has
    no current encounter: it is recorded and its mutation applied, and the
    agent, having no [ACTIVE] entry, still has no progress. *)
Example running_then_propose :
  let s' := Trust.exec (processChoice Trust.uuid Trust.now "a" "propose") Trust.running in
  getAgentSpools (Trust.worldOf Trust.running) "a" = [] /\
  map se_choiceId (ledger s' "a") = ["propose"] /\
  option_map value (getVariable (Trust.worldOf s') "trust_level") = Some (JNum 75) /\
  getAgentSpools (Trust.worldOf s') "a" = [].
Proof. cbv zeta. conjuncts_by_computation. Qed.

(** C1, at the failing input.  In a simulation whose agents have the ids
    [""] and ["a"], the agent with the empty id chooses [feud].  The view
    then built for [a] has in its recent history the entries made of the
    [CHOICE_MADE] and [SPOOL_ENTERED] events of the other agent: an actor id
    that is the empty string passes the test for an absent actor. *)
Lemma empty_agent_id_leaks_history :
  exists view e1 e2,
    buildAgentView "a" Trust.anonymousFeud = (Returned view, Trust.anonymousFeud) /\
    In e1 (events Trust.anonymousFeud) /\ In e2 (events Trust.anonymousFeud) /\
    actorId e1 = Some "" /\ eventType e1 = "CHOICE_MADE" /\
    actorId e2 = Some "" /\ eventType e2 = "SPOOL_ENTERED" /\
    Some "" <> Some "a" /\
    In (historyEntry (asNarrativeEvent e1)) (recentHistory view) /\
    In (historyEntry (asNarrativeEvent e2)) (recentHistory view).
Proof.
  destruct (nth_error (events Trust.anonymousFeud) 4) as [e1|] eqn:H1;
    [|vm_compute in H1; discriminate H1].
  destruct (nth_error (events Trust.anonymousFeud) 5) as [e2|] eqn:H2;
    [|vm_compute in H2; discriminate H2].
  eexists _, e1, e2.
  split; [vm_compute; reflexivity|].
  split; [exact (nth_error_In _ _ H1)|]. split; [exact (nth_error_In _ _ H2)|].
  vm_compute in H1, H2. injection H1 as <-. injection H2 as <-.
  repeat split; try discriminate.
  - vm_compute. tauto.
  - vm_compute. tauto.
Qed.

(** * Further properties on the trust storyworld *)

(** The runs below are sequences of public calls. *)
Lemma started_reachable (agentIds : list string) :
  reachable Trust.uuid Trust.now (Trust.started agentIds).
Proof.
  unfold Trust.started, Trust.exec.
  eapply reachable_call; [|apply call_start].
  eapply reachable_call; [|apply call_createSimulation].
  eapply reachable_call; [|apply call_loadStoryworld].
  apply reachable_new.
Qed.

Lemma frameWith_reachable (picks : list (string * string)) (s : Engine json) :
  reachable Trust.uuid Trust.now s ->
  reachable Trust.uuid Trust.now (Trust.frameWith picks s).
Proof.
  intros Hs. unfold Trust.frameWith, Trust.exec.
  eapply reachable_call; [exact Hs | apply call_executeFrame].
Qed.

Lemma twoActive_reachable : reachable Trust.uuid Trust.now Trust.twoActive.
Proof. do 2 apply frameWith_reachable. apply started_reachable. Qed.

Lemma declined_reachable : reachable Trust.uuid Trust.now Trust.declined.
Proof. do 2 apply frameWith_reachable. apply started_reachable. Qed.

Lemma applyMutation_touches_one_variable_witness :
  let ws := newWorldState Trust.world in
  applyMutation ws Runs.raise "a" = Some Runs.raised /\
  variableIds Runs.raised = variableIds ws /\
  (forall other, other <> "trust_level" ->
     getVariable Runs.raised other = getVariable ws other) /\
  frame Runs.raised = frame ws /\ spoolProgress Runs.raised = spoolProgress ws.
Proof.
  intros ws.
  assert (Hm : applyMutation ws Runs.raise "a" = Some Runs.raised)
    by (vm_compute; reflexivity).
  split; [exact Hm|].
  destruct (applyMutation_touches_one_variable ws Runs.raised Runs.raise "a" Hm)
    as (Hids & Hother & Hframe & Hprogress & _).
  split; [exact Hids|]. split; [exact Hother|]. split; [exact Hframe | exact Hprogress].
Defined.

Lemma reachable_variables_wellKeyed_witness :
  reachable Trust.uuid Trust.now Trust.twoActive /\
  worldsSatisfy wellKeyed Trust.twoActive.
Proof.
  split; [exact twoActive_reachable|].
  exact (reachable_variables_wellKeyed Trust.uuid Trust.now Trust.twoActive
           twoActive_reachable).
Defined.

Lemma reachable_progress_engineMade_witness :
  reachable Trust.uuid Trust.now Trust.declined /\
  worldsSatisfy progressEngineMade Trust.declined.
Proof.
  split; [exact declined_reachable|].
  exact (reachable_progress_engineMade Trust.uuid Trust.now Trust.declined
           declined_reachable).
Defined.

Lemma condition_reads_only_its_variables_witness :
  let c := condition Trust.high_trust in
  let ws1 := Trust.worldOf Trust.running in
  let ws2 := advanceFrame Runs.otherBusy in
  (forall id, In id (mentionedVariables c) -> readValue ws1 id = readValue ws2 id) /\
  evaluateCondition c ws1 (Some "a") = evaluateCondition c ws2 None.
Proof.
  intros c ws1 ws2.
  assert (Hsame : forall id, In id (mentionedVariables c) ->
                             readValue ws1 id = readValue ws2 id).
  { intros id Hin. vm_compute in Hin. destruct Hin as [<- | []].
    vm_compute. reflexivity. }
  split; [exact Hsame|].
  exact (condition_reads_only_its_variables c ws1 ws2 (Some "a") None Hsame).
Defined.

Lemma undeclared_gate_is_open_witness :
  (forall g, In g (gates Trust.world) -> gate_id g <> "full_moon") /\
  (forall agentId,
     evaluate Trust.world "full_moon" (newWorldState Trust.world) agentId = true).
Proof.
  assert (Hnone : forall g, In g (gates Trust.world) -> gate_id g <> "full_moon").
  { intros g Hin. cbn in Hin. destruct Hin as [<- | []]. discriminate. }
  split; [exact Hnone|].
  exact (proj1 (undeclared_gate_is_open Trust.world "full_moon"
                  (newWorldState Trust.world) Hnone)).
Defined.

Lemma view_offers_only_new_spools_witness :
  let view := buildView Trust.world "a" "sim" (Trust.worldOf Runs.joined) [] in
  let offered :=
    {| ss_spoolId := "rivalry"; ss_spoolName := "rivalry";
       ss_description := "rivalry" |} in
  In offered (availableSpools view) /\
  (forall p, In p (activeSpools view) -> spoolId p <> ss_spoolId offered).
Proof.
  intros view offered.
  assert (Hin : In offered (availableSpools view))
    by (vm_compute; left; reflexivity).
  split; [exact Hin|].
  exact (proj1 (view_offers_only_new_spools Trust.world "a" "sim"
                  (Trust.worldOf Runs.joined) [] offered Hin)).
Defined.

Lemma view_ignores_other_agents_progress_witness :
  let ws1 := Trust.worldOf Trust.running in
  let ws2 := Runs.otherBusy in
  ws_variables ws1 = ws_variables ws2 /\
  frame ws1 = frame ws2 /\
  getAgentSpools ws1 "a" = getAgentSpools ws2 "a" /\
  getAgentSpools ws1 "b" <> getAgentSpools ws2 "b" /\
  buildView Trust.world "a" "sim" ws1 [] = buildView Trust.world "a" "sim" ws2 [].
Proof.
  intros ws1 ws2.
  assert (Hvars : ws_variables ws1 = ws_variables ws2) by reflexivity.
  assert (Hframe : frame ws1 = frame ws2) by reflexivity.
  assert (Hown : getAgentSpools ws1 "a" = getAgentSpools ws2 "a")
    by (vm_compute; reflexivity).
  split; [exact Hvars|]. split; [exact Hframe|]. split; [exact Hown|].
  split; [vm_compute; intros Heq; discriminate Heq|].
  exact (view_ignores_other_agents_progress Trust.world "a" "sim" ws1 ws2 []
           Hvars Hframe Hown).
Defined.



(** The run above is at frame 1 of 2 before the call and at frame 2,
    completed, after it. *)
Example lastFrame_values :
  (currentFrame (simulation Runs.lastFrame), maxFrames (config Runs.lastFrame),
   currentFrame (simulation (Trust.frameWith [] Runs.lastFrame)))
  = (1, 2, 2).
Proof. vm_compute. reflexivity. Qed.

(** With [maxFrames] 0 the first frame still runs: the call returns, agent
    [a] enters the alliance, and the simulation completes at frame 1. *)
Example zero_limit_runs_one_frame :
  let s' := Trust.frameWith [("a", "join")] Runs.zeroLimit in
  maxFrames (config Runs.zeroLimit) = 0 /\
  executeFrame Trust.uuid Trust.now (Trust.choose [("a", "join")]) Runs.zeroLimit
  = (Returned tt, s') /\
  currentFrame (simulation s') = 1 /\
  sim_status (simulation s') = SIM_COMPLETED /\
  map spoolId (getAgentSpools (Trust.worldOf s') "a") = ["alliance"].
Proof. cbv zeta. conjuncts_by_computation. Qed.

Lemma start_works_once_witness :
  start Trust.uuid Trust.now Runs.created = (Returned tt, Trust.running) /\
  sim_status (simulation Runs.created) = INITIALIZING /\
  sim_status (simulation Trust.running) = RUNNING /\
  start Trust.uuid Trust.now Trust.running
  = (Thrown "Cannot start simulation in RUNNING status", Trust.running).
Proof.
  assert (Hrun : start Trust.uuid Trust.now Runs.created = (Returned tt, Trust.running))
    by (vm_compute; reflexivity).
  destruct (start_works_once Trust.uuid Trust.now Runs.created Trust.running Hrun)
    as (Hbefore & Hafter & _ & _ & _ & _ & _ & Hagain).
  split; [exact Hrun|]. split; [exact Hbefore|]. split; [exact Hafter | exact Hagain].
Defined.

Lemma executeFrame_without_storyworld_witness :
  sim_status (simulation Runs.unloaded) = RUNNING /\
  firstStoryworld Runs.unloaded = None /\
  existsb isActive (agents (simulation Runs.unloaded)) = true /\
  executeFrame Trust.uuid Trust.now (Trust.choose []) Runs.unloaded
  = (Thrown "Storyworld not loaded", Runs.unloaded).
Proof.
  assert (Hstatus : sim_status (simulation Runs.unloaded) = RUNNING)
    by (vm_compute; reflexivity).
  assert (Hnone : firstStoryworld Runs.unloaded = None) by (vm_compute; reflexivity).
  assert (Hactive : existsb isActive (agents (simulation Runs.unloaded)) = true)
    by (vm_compute; reflexivity).
  split; [exact Hstatus|]. split; [exact Hnone|]. split; [exact Hactive|].
  pose proof (executeFrame_without_storyworld Trust.uuid Trust.now (Trust.choose [])
                Runs.unloaded Hstatus (or_introl Hnone)) as Hthrows.
  rewrite Hactive in Hthrows. exact Hthrows.
Defined.

Lemma processChoice_touches_only_its_agent_witness :
  let s' := Trust.exec (processChoice Trust.uuid Trust.now "a" "join") Trust.running in
  processChoice Trust.uuid Trust.now "a" "join" Trust.running = (Returned tt, s') /\
  choiceStep "a" Trust.running s'.
Proof.
  intros s'.
  assert (Hrun : processChoice Trust.uuid Trust.now "a" "join" Trust.running
                 = (Returned tt, s')) by (vm_compute; reflexivity).
  split; [exact Hrun|].
  exact (processChoice_touches_only_its_agent Trust.uuid Trust.now "a" "join"
           Trust.running s' (Returned tt) Hrun).
Defined.

Lemma executeFrame_leaves_idle_agents_alone_witness :
  let handler := Trust.choose [("a", "join"); ("c", "feud")] in
  let s' := Trust.exec (executeFrame Trust.uuid Trust.now handler) Runs.benched in
  (forall agent, In agent (agents (simulation Runs.benched)) ->
     isActive agent = true -> agent_id agent <> "c") /\
  executeFrame Trust.uuid Trust.now handler Runs.benched = (Returned tt, s') /\
  untouched "c" Runs.benched s'.
Proof.
  intros handler s'.
  assert (Hidle : forall agent, In agent (agents (simulation Runs.benched)) ->
                    isActive agent = true -> agent_id agent <> "c").
  { intros agent Hin Hactive. vm_compute in Hin.
    destruct Hin as [<- | [<- | []]]; [discriminate | discriminate Hactive]. }
  assert (Hrun : executeFrame Trust.uuid Trust.now handler Runs.benched
                 = (Returned tt, s')) by (vm_compute; reflexivity).
  split; [exact Hidle|]. split; [exact Hrun|].
  exact (executeFrame_leaves_idle_agents_alone Trust.uuid Trust.now handler "c"
           Runs.benched s' (Returned tt) Hidle Hrun).
Defined.

(** The inactive agent [c] is in the callback's table and still enters no
    spool, while [a] does. *)
Example benched_agent_stays_out :
  let s' :=
    Trust.exec
      (executeFrame Trust.uuid Trust.now (Trust.choose [("a", "join"); ("c", "feud")]))
      Runs.benched in
  map spoolId (getAgentSpools (Trust.worldOf s') "a") = ["alliance"] /\
  getAgentSpools (Trust.worldOf s') "c" = [].
Proof. vm_compute. split; reflexivity. Qed.

Lemma frame_without_choices_keeps_narrative_witness :
  let s' := Trust.exec (executeFrame Trust.uuid Trust.now Runs.greet) Runs.joined in
  (forall i agent view action,
     In agent (agents (simulation Runs.joined)) -> isActive agent = true ->
     Runs.greet i (agent_id agent) view = Resolved (Some action) ->
     truthy (act_choiceId action) = false) /\
  executeFrame Trust.uuid Trust.now Runs.greet Runs.joined = (Returned tt, s') /\
  narrativeFixed Runs.joined s'.
Proof.
  intros s'.
  assert (Hquiet : forall i agent view action,
            In agent (agents (simulation Runs.joined)) -> isActive agent = true ->
            Runs.greet i (agent_id agent) view = Resolved (Some action) ->
            truthy (act_choiceId action) = false).
  { intros i agent view action _ _ Hanswer. injection Hanswer as <-. reflexivity. }
  assert (Hrun : executeFrame Trust.uuid Trust.now Runs.greet Runs.joined
                 = (Returned tt, s')) by (vm_compute; reflexivity).
  split; [exact Hquiet|]. split; [exact Hrun|].
  exact (frame_without_choices_keeps_narrative Trust.uuid Trust.now Runs.greet
           Runs.joined s' (Returned tt) Hquiet Hrun).
Defined.

Lemma reachable_log_append_only_witness :
  reachable Trust.uuid Trust.now Trust.twoActive /\
  exists ks,
    map ev_id (events Trust.twoActive) = map Trust.uuid ks /\
    drawnBetween 0 (uuidCalls Trust.twoActive) ks /\ List.NoDup ks.
Proof.
  split; [exact twoActive_reachable|].
  exact (proj1 (reachable_log_append_only Trust.uuid Trust.now Trust.twoActive
                  twoActive_reachable)).
Defined.

Lemma export_one_outcome_per_agent_witness :
  reachable Trust.uuid Trust.now Trust.declined /\
  exists outcomes,
    exportSessionOutcomes Trust.uuid Trust.declined
    = (Returned outcomes,
       set_uuidCalls
         (uuidCalls Trust.declined + length (agents (simulation Trust.declined)))
         Trust.declined) /\
    map so_agentId outcomes = map agent_id (agents (simulation Trust.declined)).
Proof.
  split; [exact declined_reachable|].
  destruct (export_one_outcome_per_agent Trust.uuid Trust.now Trust.declined
              declined_reachable) as (outcomes & Hrun & Hids & _).
  exists outcomes. split; [exact Hrun | exact Hids].
Defined.

(** The outcomes of the run in which [a] joined the alliance and declined:
    one per agent, the completed spool among the entered ones. *)
Example declined_outcomes :
  map (fun o => (so_agentId o, totalChoices o, spoolsEntered o, spoolsCompleted o,
                 endingsReached o))
    (match fst (exportSessionOutcomes Trust.uuid Trust.declined) with
     | Returned outcomes => outcomes
     | Thrown _ => []
     end)
  = [("a", 2, ["alliance"], ["alliance"], []); ("b", 0, [], [], [])].
Proof. vm_compute. reflexivity. Qed.

Lemma processChoice_event_trace_witness :
  let ws := Trust.worldOf Runs.joined in
  let ws2 := setVariable ws "trust_level" (JNum 75) (Some "a") in
  firstStoryworld Runs.joined = Some Trust.world /\
  firstWorldState Runs.joined = Some ws /\
  findChoice (encounters Trust.world) "propose" = Some (Trust.propose, Trust.offer) /\
  applyMutations ws (mutations Trust.propose) "a" = Some ws2 /\
  exists s' added,
    processChoice Trust.uuid Trust.now "a" "propose" Runs.joined = (Returned tt, s') /\
    events s' = (events Runs.joined ++ added)%list /\
    map said added = choiceTrace Trust.world Trust.offer Trust.propose /\
    Forall (fun e => actorId e = Some "a" /\ targetId e = None /\
                     ev_simulationId e = sim_id (simulation Runs.joined) /\
                     ev_frame e = currentFrame (simulation Runs.joined)) added.
Proof.
  intros ws ws2.
  assert (Hsw : firstStoryworld Runs.joined = Some Trust.world)
    by (vm_compute; reflexivity).
  assert (Hws : firstWorldState Runs.joined = Some ws) by (vm_compute; reflexivity).
  assert (Hfound : findChoice (encounters Trust.world) "propose"
                   = Some (Trust.propose, Trust.offer)) by reflexivity.
  assert (Hms : applyMutations ws (mutations Trust.propose) "a" = Some ws2)
    by (vm_compute; reflexivity).
  split; [exact Hsw|]. split; [exact Hws|]. split; [exact Hfound|]. split; [exact Hms|].
  exact (processChoice_event_trace Trust.uuid Trust.now "a" "propose" Runs.joined
           Trust.world ws ws2 Trust.propose Trust.offer Hsw Hws Hfound Hms).
Defined.

(** The events of [propose]: the change of [trust_level], the choice, the
    next encounter. *)
Example propose_trace :
  map (fun saying => snd (fst saying))
    (choiceTrace Trust.world Trust.offer Trust.propose)
  = ["VARIABLE_CHANGED"; "CHOICE_MADE"; "ENCOUNTER_STARTED"].
Proof. reflexivity. Qed.

Lemma engine_view_history_witness :
  exists view,
    buildAgentView "a" Trust.twoActive = (Returned view, Trust.twoActive) /\
    recentHistory view
    = map (fun e => historyEntry (asNarrativeEvent e))
        (slice_last 10 (List.filter (actedOrSystem "a") (events Trust.twoActive))) /\
    (length (recentHistory view) <= 10)%nat.
Proof.
  assert (Hbuilt : exists view,
            buildAgentView "a" Trust.twoActive = (Returned view, Trust.twoActive))
    by (eexists; vm_compute; reflexivity).
  destruct Hbuilt as [view Hview]. exists view. split; [exact Hview|].
  destruct (engine_view_history "a" Trust.twoActive Trust.twoActive view Hview)
    as (_ & Hhistory & Hlength & _).
  split; [exact Hhistory | exact Hlength].
Defined.

(** The history agent [a] sees after joining both spools: its two choices
    and entries, none naming an encounter or a spool. *)
Example twoActive_history :
  match fst (buildAgentView "a" Trust.twoActive) with
  | Returned view => map he_summary (recentHistory view)
  | Thrown _ => []
  end
  = ["SIMULATION_CREATED"; "SIMULATION_STARTED"; "VIEW_DELIVERED";
     "Made choice in undefined"; "Entered narrative thread: undefined";
     "VIEW_DELIVERED"; "Made choice in undefined";
     "Entered narrative thread: undefined"].
Proof. vm_compute. reflexivity. Qed.
